(** * Mudbrick: redaction pattern search and OCR coordinate conversion

    A shallow embedding of the redaction search module (pattern table,
    validators, [searchPatterns], [buildCharMap], [getRectsForRange],
    [luhnCheck], [escapeRegex]) and of the word-box conversion of
    [js/ocr.js], followed by the properties established about them.

    Conventions of the embedding:
    - a JavaScript string is the list of its UTF-16 code units;
    - a JavaScript Number holding a coordinate of the text geometry is
      an exact rational ([Q]); rounding, infinities and NaN of IEEE
      doubles are not part of that model.  The coordinates of the OCR
      boxes are doubles ([spec_float], the binary64 format of the
      Standard Library's specification of IEEE 754), with the rounding
      of each operation.  Where the source really produces NaN
      ([parseInt] on a non-numeric string) the Number is an [option Z],
      [None] being NaN;
    - built-ins supplied by the browser ([Math.sqrt], [new RegExp], the
      Unicode case mapping, the optional [pdfjsLib.Util.transform]) are
      the fields of the class [Host]. *)

From Stdlib Require Import String Ascii.
From Stdlib Require Import List Bool Arith ZArith NArith QArith Qabs Qminmax Lia.
From Stdlib Require Import Qpower SpecFloat.
Import ListNotations.

Set Implicit Arguments.

(* ================================================================= *)
(** * Part I: the embedding *)
(* ================================================================= *)

(** ** Strings *)

Definition char16 := N.
Definition jsstring := list char16.

(** A literal of the source, as code units. *)
Definition js (s : string) : jsstring :=
  map N_of_ascii (list_ascii_of_string s).

Definition ch (s : string) : char16 :=
  match s with
  | String a _ => N_of_ascii a
  | EmptyString => 0%N
  end.

Definition SPACE : char16 := 32%N.
Definition DASH : char16 := 45%N.
Definition BACKSLASH : char16 := 92%N.
Definition NEWLINE : char16 := 10%N.

Fixpoint str_eqb (s t : jsstring) : bool :=
  match s, t with
  | [], [] => true
  | a :: s', b :: t' => N.eqb a b && str_eqb s' t'
  | _, _ => false
  end.

(** [s.substring(i, j)] for [i <= j], and [s.substring(i)]. *)
Definition substring (s : jsstring) (i j : nat) : jsstring :=
  firstn (j - i) (skipn i s).
Definition substring_from (s : jsstring) (i : nat) : jsstring :=
  skipn i s.

(** [\d] *)
Definition isDigit (c : char16) : bool :=
  (48 <=? c)%N && (c <=? 57)%N.

(** [\s]: WhiteSpace and LineTerminator code units. *)
Definition isSpace (c : char16) : bool :=
  existsb (N.eqb c)
    [9; 10; 11; 12; 13; 32; 160; 5760; 8232; 8233; 8239; 8287; 12288; 65279]%N
  || ((8192 <=? c)%N && (c <=? 8202)%N).

(** [\w] *)
Definition isWordChar (c : char16) : bool :=
  isDigit c
  || ((65 <=? c)%N && (c <=? 90)%N)
  || ((97 <=? c)%N && (c <=? 122)%N)
  || (c =? 95)%N.

(** [s.trim()] *)
Fixpoint trimStart (s : jsstring) : jsstring :=
  match s with
  | c :: s' => if isSpace c then trimStart s' else s
  | [] => []
  end.
Definition trim (s : jsstring) : jsstring :=
  rev (trimStart (rev (trimStart s))).

(** [words.join(sep)] *)
Fixpoint join (sep : jsstring) (l : list jsstring) : jsstring :=
  match l with
  | [] => []
  | [s] => s
  | s :: l' => s ++ sep ++ join sep l'
  end.

(** ** Numbers *)

Definition Qlt_bool (a b : Q) : bool := negb (Qle_bool b a).

Definition Qnat (n : nat) : Q := inject_Z (Z.of_nat n).

(** A Number that may be NaN. *)
Definition number := option Z.
Definition NaN : number := None.

(** [a === n], [a >= n], [a > n] against an integer literal: every
    comparison with NaN is false. *)
Definition num_eq (a : number) (n : Z) : bool :=
  match a with Some v => (v =? n)%Z | None => false end.
Definition num_ge (a : number) (n : Z) : bool :=
  match a with Some v => (n <=? v)%Z | None => false end.
Definition num_gt (a : number) (n : Z) : bool :=
  match a with Some v => (n <? v)%Z | None => false end.
Definition num_add (a b : number) : number :=
  match a, b with Some u, Some v => Some (u + v)%Z | _, _ => None end.
Definition num_mul (a : number) (n : Z) : number :=
  match a with Some v => Some (v * n)%Z | None => None end.
Definition num_sub (a : number) (n : Z) : number :=
  match a with Some v => Some (v - n)%Z | None => None end.
(** [a % n] *)
Definition num_rem (a : number) (n : Z) : number :=
  match a with Some v => Some (Z.rem v n) | None => None end.

(** Value of a code unit as a digit in a radix up to 36. *)
Definition digitValue (c : char16) : option Z :=
  if ((48 <=? c) && (c <=? 57))%N then Some (Z.of_N c - 48)%Z
  else if ((97 <=? c) && (c <=? 122))%N then Some (Z.of_N c - 87)%Z
  else if ((65 <=? c) && (c <=? 90))%N then Some (Z.of_N c - 55)%Z
  else None.

(** The longest prefix of digits of radix [R], as a number; [acc] is
    [None] until a first digit is read. *)
Fixpoint parseDigits (R : Z) (s : jsstring) (acc : number) : number :=
  match s with
  | [] => acc
  | c :: s' =>
      match digitValue c with
      | Some d =>
          if (d <? R)%Z
          then parseDigits R s'
                 (Some (match acc with Some v => v * R + d | None => d end)%Z)
          else acc
      | None => acc
      end
  end.

(** [parseInt(s, radix)]; [radix] is [None] when the argument is omitted
    (then a [0x]/[0X] prefix selects radix 16), [Some 10] in [luhnCheck].
    Leading white space and one sign are skipped; the result is NaN when
    no digit follows.  The integer is exact: the strings parsed by the
    source have at most three characters. *)
Definition parseInt (s : jsstring) (radix : option Z) : number :=
  let s1 := trimStart s in
  let '(sign, s2) :=
    match s1 with
    | c :: r => if (c =? 45)%N then ((-1)%Z, r)
                else if (c =? 43)%N then (1%Z, r) else (1%Z, s1)
    | [] => (1%Z, s1)
    end in
  let '(R, s3) :=
    match radix with
    | Some R => (R, s2)
    | None =>
        match s2 with
        | z :: x :: r =>
            if ((z =? 48) && ((x =? 120) || (x =? 88)))%N
            then (16%Z, r) else (10%Z, s2)
        | _ => (10%Z, s2)
        end
    end in
  match parseDigits R s3 None with
  | Some v => Some (sign * v)%Z
  | None => NaN
  end.

(** ** Validators and helpers of the pattern table *)

(** [match.replace(/[-\s]/g, '')] *)
Definition isSeparator (c : char16) : bool := (c =? DASH)%N || isSpace c.
Definition stripSeparators (m : jsstring) : jsstring :=
  filter (fun c => negb (isSeparator c)) m.

(** [match.replace(/\D/g, '')] *)
Definition stripNonDigits (m : jsstring) : jsstring := filter isDigit m.

(** [num[i]]: a one-character string, or [undefined] (converted to a
    string by [parseInt]) outside the string. *)
Definition charAt (num : jsstring) (i : nat) : jsstring :=
  match nth_error num i with
  | Some c => [c]
  | None => js "undefined"
  end.

(** The body of the [for (i = num.length - 1; i >= 0; i--)] loop of
    [luhnCheck]; [k] is [i + 1]. *)
Fixpoint luhnLoop (num : jsstring) (k : nat) (sum : number) (alt : bool)
  : number :=
  match k with
  | O => sum
  | S i =>
      let n := parseInt (charAt num i) (Some 10%Z) in
      let n := if alt
               then let n2 := num_mul n 2 in
                    if num_gt n2 9 then num_sub n2 9 else n2
               else n in
      luhnLoop num i (num_add sum n) (negb alt)
  end.

Definition luhnCheck (num : jsstring) : bool :=
  num_eq (num_rem (luhnLoop num (length num) (Some 0%Z) false) 10) 0.

(** [REDACTION_PATTERNS.ssn.validate] *)
Definition ssn_validate (m : jsstring) : bool :=
  let digits := stripSeparators m in
  if negb (length digits =? 9) then false
  else
    let area := parseInt (substring digits 0 3) None in
    if num_eq area 0 || num_eq area 666 || num_ge area 900 then false
    else if str_eqb (substring digits 3 5) (js "00") then false
    else if str_eqb (substring_from digits 5) (js "0000") then false
    else true.

(** [REDACTION_PATTERNS.creditCard.validate] *)
Definition creditCard_validate (m : jsstring) : bool :=
  let digits := stripSeparators m in
  if (length digits <? 13) || (19 <? length digits) then false
  else luhnCheck digits.

(** [REDACTION_PATTERNS.phone.validate] *)
Definition phone_validate (m : jsstring) : bool :=
  let digits := stripNonDigits m in
  (10 <=? length digits) && (length digits <=? 11).

(** The character class of [escapeRegex]: [[.*+?^${}()|[\]\\]]. *)
Definition escapeClass : jsstring := js ".*+?^${}()|[]\".

Definition inEscapeClass (c : char16) : bool := existsb (N.eqb c) escapeClass.

(** [string.replace(/[.*+?^${}()|[\]\\]/g, '\\$&')] *)
Definition escapeRegex (s : jsstring) : jsstring :=
  flat_map (fun c => if inEscapeClass c then [BACKSLASH; c] else [c]) s.

(** ** Regular expressions *)

(** Character sets of a pattern. *)
Inductive cclass : Type :=
| CChar (c : char16)
| CRange (lo hi : char16)
| CDigit
| CSpace
| CWord
| CDot
| CNot (k : cclass)
| CUnion (k1 k2 : cclass).

(** Patterns without captures, look-around or back-references: what the
    pattern table uses. A bounded repetition [r{m,n}] is written out as
    [m] copies of [r] followed by [n - m] nested optional copies, which
    the matcher tries greedily, as the language does. *)
Inductive regex : Type :=
| Eps
| Chr (k : cclass)
| Seq (r1 r2 : regex)
| Alt (r1 r2 : regex)
| Star (r : regex)
| WordB.

(** A RegExp object with the [g] flag; [lastIndex] is threaded by the
    caller. *)
Record RegExp : Type := mkRegExp { source : regex; ignoreCase : bool }.

(** What the browser supplies. [RegExp_gi p] is the pattern of
    [new RegExp(p, 'gi')], [None] when the constructor throws a
    SyntaxError. [Canonicalize] is the case folding of a case-insensitive
    match. [Util_transform] is [window.pdfjsLib?.Util?.transform], absent
    or present. [Math_sqrt] is [Math.sqrt] on the rationals of the
    model. *)
Definition Matrix : Type := (Q * Q * Q * Q * Q * Q)%type.

Class Host : Type := {
  Math_sqrt : Q -> Q;
  Util_transform : option (Matrix -> Matrix -> Matrix);
  Canonicalize : char16 -> char16;
  RegExp_gi : jsstring -> option regex
}.

Definition N_range (lo hi : char16) : list char16 :=
  map N.of_nat (seq (N.to_nat lo) (N.to_nat hi + 1 - N.to_nat lo)).

Definition isLineTerminator (c : char16) : bool :=
  existsb (N.eqb c) [10; 13; 8232; 8233]%N.

Section Matching.
Context `{Host}.

(** Membership of a code unit in a character set. *)
Fixpoint cmem (ic : bool) (k : cclass) (c : char16) : bool :=
  match k with
  | CChar a =>
      if ic then (Canonicalize a =? Canonicalize c)%N else (a =? c)%N
  | CRange lo hi =>
      if ic
      then existsb (fun a => (Canonicalize a =? Canonicalize c)%N)
             (N_range lo hi)
      else (lo <=? c)%N && (c <=? hi)%N
  | CDigit => isDigit c
  | CSpace => isSpace c
  | CWord => isWordChar c
  | CDot => negb (isLineTerminator c)
  | CNot k' => negb (cmem ic k' c)
  | CUnion k1 k2 => cmem ic k1 c || cmem ic k2 c
  end.

Definition wordAt (txt : jsstring) (i : nat) : bool :=
  match nth_error txt i with
  | Some c => isWordChar c
  | None => false
  end.

Definition atWordBoundary (txt : jsstring) (i : nat) : bool :=
  xorb (match i with O => false | S j => wordAt txt j end) (wordAt txt i).

(** Greedy iteration of a star whose body is matched by [step]: at most
    [n] iterations (an iteration consumes at least one code unit, so the
    length of the text bounds their number), each tried before the
    continuation [k]. *)
Fixpoint starIter (step : nat -> (nat -> option nat) -> option nat)
  (k : nat -> option nat) (n : nat) (i : nat) : option nat :=
  match n with
  | O => k i
  | S n' =>
      match step i (fun j => if j =? i then None else starIter step k n' j)
      with
      | Some e => Some e
      | None => k i
      end
  end.

(** The backtracking matcher, in continuation-passing style as in the
    language specification: [matchR ic r txt i k] matches [r] at index
    [i] of [txt] and hands the end index to [k]; the result is the end
    index of the whole match. An iteration of a star that consumes
    nothing is rejected. *)
Fixpoint matchR (ic : bool) (r : regex) (txt : jsstring) (i : nat)
  (k : nat -> option nat) {struct r} : option nat :=
  match r with
  | Eps => k i
  | Chr cl =>
      match nth_error txt i with
      | Some c => if cmem ic cl c then k (S i) else None
      | None => None
      end
  | Seq r1 r2 => matchR ic r1 txt i (fun j => matchR ic r2 txt j k)
  | Alt r1 r2 =>
      match matchR ic r1 txt i k with
      | Some e => Some e
      | None => matchR ic r2 txt i k
      end
  | Star r' =>
      starIter (fun j k' => matchR ic r' txt j k') k (S (length txt)) i
  | WordB => if atWordBoundary txt i then k i else None
  end.

(** Scan of [RegExpBuiltinExec] from [i]; [n] start positions remain. *)
Fixpoint execFrom (n : nat) (re : RegExp) (txt : jsstring) (i : nat)
  : option (nat * nat) :=
  match n with
  | O => None
  | S n' =>
      match matchR (ignoreCase re) (source re) txt i (fun e => Some e) with
      | Some e => Some (i, e)
      | None => execFrom n' re txt (S i)
      end
  end.

(** [regex.exec(txt)] with [regex.lastIndex = lastIndex]: the index and
    the end of the leftmost match at or after [lastIndex], to which
    [lastIndex] then moves; [None] is [null] (and [lastIndex] is 0). *)
Definition exec (re : RegExp) (txt : jsstring) (lastIndex : nat)
  : option (nat * nat) :=
  if length txt <? lastIndex then None
  else execFrom (S (length txt - lastIndex)) re txt lastIndex.

End Matching.

(** ** The pattern table *)

Definition seqs (l : list regex) : regex := fold_right Seq Eps l.
Definition opt (r : regex) : regex := Alt r Eps.
Definition plus (r : regex) : regex := Seq r (Star r).
(** [r{n}] *)
Definition rep (n : nat) (r : regex) : regex := seqs (repeat r n).
(** [r{0,n}], greedy *)
Fixpoint upto (n : nat) (r : regex) : regex :=
  match n with
  | O => Eps
  | S n' => opt (Seq r (upto n' r))
  end.
Fixpoint alts (l : list regex) : regex :=
  match l with
  | [] => Chr (CNot (CUnion CDot (CNot CDot)))
  | [r] => r
  | r :: l' => Alt r (alts l')
  end.
Definition chr (s : string) : regex := Chr (CChar (ch s)).
(** The pattern that matches the code units of [s] in sequence. *)
Definition literal (s : jsstring) : regex :=
  seqs (map (fun c => Chr (CChar c)) s).

Definition digit : regex := Chr CDigit.
(** [[-\s]] *)
Definition sepClass : cclass := CUnion (CChar DASH) CSpace.
(** [[-.\s]] *)
Definition phoneSepClass : cclass :=
  CUnion (CChar DASH) (CUnion (CChar (ch ".")) CSpace).
(** [[A-Za-z]] *)
Definition alphaClass : cclass :=
  CUnion (CRange (ch "A") (ch "Z")) (CRange (ch "a") (ch "z")).
Definition alnumClass : cclass :=
  CUnion alphaClass (CRange (ch "0") (ch "9")).
(** [[A-Za-z0-9._%+\-]] *)
Definition emailUserClass : cclass :=
  CUnion alnumClass
    (CUnion (CChar (ch "."))
       (CUnion (CChar (ch "_"))
          (CUnion (CChar (ch "%"))
             (CUnion (CChar (ch "+")) (CChar DASH))))).
(** [[A-Za-z0-9.\-]] *)
Definition emailDomainClass : cclass :=
  CUnion alnumClass (CUnion (CChar (ch ".")) (CChar DASH)).
(** [[\/\-]] *)
Definition dateSepClass : cclass := CUnion (CChar (ch "/")) (CChar DASH).

(** [/\b\d{3}[-\s]?\d{2}[-\s]?\d{4}\b/g] *)
Definition ssn_regex : RegExp :=
  mkRegExp
    (seqs [WordB; rep 3 digit; opt (Chr sepClass); rep 2 digit;
           opt (Chr sepClass); rep 4 digit; WordB])
    false.

(** [/\b(?:\d{4}[-\s]?){3}\d{1,4}\b/g] *)
Definition creditCard_regex : RegExp :=
  mkRegExp
    (seqs [WordB; rep 3 (Seq (rep 4 digit) (opt (Chr sepClass)));
           digit; upto 3 digit; WordB])
    false.

(** [/\b[A-Za-z0-9._%+\-]+@[A-Za-z0-9.\-]+\.[A-Za-z]{2,}\b/g] *)
Definition email_regex : RegExp :=
  mkRegExp
    (seqs [WordB; plus (Chr emailUserClass); chr "@";
           plus (Chr emailDomainClass); chr ".";
           rep 2 (Chr alphaClass); Star (Chr alphaClass); WordB])
    false.

(** [/(?:\+?1[-.\s]?)?\(?\d{3}\)?[-.\s]?\d{3}[-.\s]?\d{4}\b/g] *)
Definition phone_regex : RegExp :=
  mkRegExp
    (seqs [opt (seqs [opt (chr "+"); chr "1"; opt (Chr phoneSepClass)]);
           opt (chr "("); rep 3 digit; opt (chr ")");
           opt (Chr phoneSepClass); rep 3 digit;
           opt (Chr phoneSepClass); rep 4 digit; WordB])
    false.

Definition monthNames : list string :=
  ["Jan"; "Feb"; "Mar"; "Apr"; "May"; "Jun";
   "Jul"; "Aug"; "Sep"; "Oct"; "Nov"; "Dec"]%string.

(** [/\b(?:\d{1,2}[\/\-]\d{1,2}[\/\-]\d{2,4}|(?:Jan|...|Dec)[a-z]*\.?\s+\d{1,2},?\s+\d{4})\b/gi] *)
Definition date_regex : RegExp :=
  mkRegExp
    (seqs [WordB;
           Alt
             (seqs [digit; upto 1 digit; Chr dateSepClass;
                    digit; upto 1 digit; Chr dateSepClass;
                    rep 2 digit; upto 2 digit])
             (seqs [alts (map (fun m => literal (js m)) monthNames);
                    Star (Chr (CRange (ch "a") (ch "z")));
                    opt (chr "."); plus (Chr CSpace);
                    digit; upto 1 digit; opt (chr ",");
                    plus (Chr CSpace); rep 4 digit]);
           WordB])
    true.

Module Pattern.
Record t : Type := mk {
  label : string;
  description : string;
  regex : option RegExp;
  validate : jsstring -> bool
}.
End Pattern.

Definition REDACTION_PATTERNS : list (string * Pattern.t) :=
  [ ("ssn", Pattern.mk "Social Security Numbers" "XXX-XX-XXXX format"
              (Some ssn_regex) ssn_validate);
    ("creditCard", Pattern.mk "Credit Card Numbers"
              "Visa, Mastercard, Amex, Discover"
              (Some creditCard_regex) creditCard_validate);
    ("email", Pattern.mk "Email Addresses" "user@domain.com"
              (Some email_regex) (fun _ => true));
    ("phone", Pattern.mk "Phone Numbers"
              "US formats: (555) 123-4567, 555-123-4567, +1 555 123 4567"
              (Some phone_regex) phone_validate);
    ("date", Pattern.mk "Dates" "MM/DD/YYYY, MM-DD-YYYY, Month DD, YYYY"
              (Some date_regex) (fun _ => true));
    ("custom", Pattern.mk "Custom Pattern"
              "Enter your own regex or text to find"
              None (fun _ => true)) ]%string.

(** [REDACTION_PATTERNS[patternName]]; a name outside the table is
    [undefined], or an inherited property without a [regex]: either way
    the pattern is skipped. *)
Fixpoint lookupPattern (name : string) (tbl : list (string * Pattern.t))
  : option Pattern.t :=
  match tbl with
  | [] => None
  | (n, p) :: tbl' =>
      if String.eqb name n then Some p else lookupPattern name tbl'
  end.

(** ** Character map and rectangles *)

Module TextItem.
Record t : Type := mk {
  str : option jsstring;
  transform : Matrix;
  width : Q
}.
End TextItem.

Module Viewport.
Record t : Type := mk { transform : Matrix }.
End Viewport.

Module CharPos.
Record t : Type := mk { x : Q; y : Q; w : Q; h : Q }.
End CharPos.

Module Rect.
Record t : Type := mk { x : Q; y : Q; width : Q; height : Q }.
End Rect.

Definition transformPoint (viewportTransform textTransform : Matrix)
  : Matrix :=
  let '(a, b, c, d, e, f) := viewportTransform in
  let '(ta, tb, tc, td, te, tf) := textTransform in
  (a * ta + c * tb,
   b * ta + d * tb,
   a * tc + c * td,
   b * tc + d * td,
   a * te + c * tf + e,
   b * te + d * tf + f).

Definition m2 (m : Matrix) : Q := let '(_, _, v, _, _, _) := m in v.
Definition m3 (m : Matrix) : Q := let '(_, _, _, v, _, _) := m in v.
Definition m4 (m : Matrix) : Q := let '(_, _, _, _, v, _) := m in v.
Definition m5 (m : Matrix) : Q := let '(_, _, _, _, _, v) := m in v.

Section CharMap.
Context `{Host}.

(** [Util.transform?.(vt, it) || transformPoint(vt, it)]: an array is
    never falsy. *)
Definition itemTransform (viewport : Viewport.t) (item : TextItem.t)
  : Matrix :=
  match Util_transform with
  | Some f => f (Viewport.transform viewport) (TextItem.transform item)
  | None =>
      transformPoint (Viewport.transform viewport) (TextItem.transform item)
  end.

Definition fontSizeOf (tx : Matrix) : Q :=
  Math_sqrt (m2 tx * m2 tx + m3 tx * m3 tx).

(** The boxes pushed for the characters of one item. *)
Definition itemChars (viewport : Viewport.t) (item : TextItem.t)
  (s : jsstring) : list (option CharPos.t) :=
  let tx := itemTransform viewport item in
  let x := m4 tx in
  let y := m5 tx in
  let fontSize := fontSizeOf tx in
  let avgCharWidth :=
    TextItem.width item
    / Qnat (if length s =? 0 then 1 else length s) in
  map (fun i =>
         Some (CharPos.mk (x + avgCharWidth * Qnat i) (y - fontSize)
                 avgCharWidth fontSize))
      (seq 0 (length s)).

(** One iteration of [for (const item of items)]. *)
Definition buildCharMap_step (viewport : Viewport.t)
  (acc : jsstring * list (option CharPos.t)) (item : TextItem.t)
  : jsstring * list (option CharPos.t) :=
  let '(fullText, charMap) := acc in
  match TextItem.str item with
  | None | Some [] => (fullText ++ [SPACE], charMap ++ [None])
  | Some s =>
      (fullText ++ s ++ [SPACE],
       charMap ++ itemChars viewport item s ++ [None])
  end.

Definition buildCharMap (items : list TextItem.t) (viewport : Viewport.t)
  : jsstring * list (option CharPos.t) :=
  fold_left (buildCharMap_step viewport) items ([], []).

End CharMap.

Definition rectOf (pos : CharPos.t) : Rect.t :=
  Rect.mk (CharPos.x pos) (CharPos.y pos) (CharPos.w pos) (CharPos.h pos).

(** [Math.abs(pos.y - currentRect.y) < pos.h * 0.5] *)
Definition sameLine (pos : CharPos.t) (currentRect : Rect.t) : bool :=
  Qlt_bool (Qabs (CharPos.y pos - Rect.y currentRect))
           (CharPos.h pos * (1 # 2)).

Definition extendRect (currentRect : Rect.t) (pos : CharPos.t) : Rect.t :=
  let newRight := CharPos.x pos + CharPos.w pos in
  Rect.mk (Rect.x currentRect) (Rect.y currentRect)
          (newRight - Rect.x currentRect)
          (Qmax (Rect.height currentRect) (CharPos.h pos)).

(** One iteration of the loop of [getRectsForRange] on [charMap[i]];
    the state is [(rects, currentRect)]. *)
Definition rects_step (st : list Rect.t * option Rect.t)
  (pos : option CharPos.t) : list Rect.t * option Rect.t :=
  let '(rects, currentRect) := st in
  match pos with
  | None =>
      match currentRect with
      | Some r => (rects ++ [r], None)
      | None => (rects, None)
      end
  | Some p =>
      match currentRect with
      | None => (rects, Some (rectOf p))
      | Some r =>
          if sameLine p r then (rects, Some (extendRect r p))
          else (rects ++ [r], Some (rectOf p))
      end
  end.

(** The indices visited by
    [for (i = startIdx; i < endIdx && i < charMap.length; i++)]. *)
Definition rangeIndices (len startIdx endIdx : nat) : list nat :=
  seq startIdx (Nat.min endIdx len - startIdx).

Definition getRectsForRange (charMap : list (option CharPos.t))
  (startIdx endIdx : nat) : list Rect.t :=
  let '(rects, currentRect) :=
    fold_left (fun st i => rects_step st (nth i charMap None))
      (rangeIndices (length charMap) startIdx endIdx) ([], None) in
  match currentRect with
  | Some r => rects ++ [r]
  | None => rects
  end.

(** ** Pattern search *)

Close Scope Q_scope.

(** Result of a computation that may throw, or not return within the
    given number of loop iterations. *)
Inductive outcome (A : Type) : Type :=
| Returns (a : A)
| Throws
| OutOfFuel.
Arguments Returns {A} a.
Arguments Throws {A}.
Arguments OutOfFuel {A}.

Definition bind {A B : Type} (m : outcome A) (f : A -> outcome B)
  : outcome B :=
  match m with
  | Returns a => f a
  | Throws => Throws
  | OutOfFuel => OutOfFuel
  end.

Notation "x <- m ;; k" := (bind m (fun x => k))
  (at level 61, m at next level, right associativity).

Module Match.
Record t : Type := mk {
  pageNum : nat;
  pattern : string;
  text : jsstring;
  rects : list Rect.t
}.
End Match.

Module Page.
Record t : Type := mk {
  items : list TextItem.t;
  viewport : Viewport.t
}.
End Page.

(** A PDF.js document: its pages, numbered from 1. *)
Definition PDFDoc : Type := list Page.t.

Section Search.
Context `{Host}.

(** The [try { new RegExp(p, 'gi') } catch { new RegExp(escapeRegex(p),
    'gi') }] of [searchPatterns]; the second constructor call is outside
    any handler. *)
Definition customRegExp (customPattern : jsstring) : outcome RegExp :=
  match RegExp_gi customPattern with
  | Some r => Returns (mkRegExp r true)
  | None =>
      match RegExp_gi (escapeRegex customPattern) with
      | Some r => Returns (mkRegExp r true)
      | None => Throws
      end
  end.

(** The [while ((match = regex.exec(fullText)) !== null)] loop; [fuel]
    bounds the number of calls of [exec]. *)
Fixpoint matchLoop (fuel : nat) (re : RegExp) (validate : jsstring -> bool)
  (pageNum : nat) (patternName : string)
  (fullText : jsstring) (charMap : list (option CharPos.t))
  (lastIndex : nat) (results : list Match.t) : outcome (list Match.t) :=
  match fuel with
  | O => OutOfFuel
  | S fuel' =>
      match exec re fullText lastIndex with
      | None => Returns results
      | Some (index, lastIndex') =>
          let matchText := substring fullText index lastIndex' in
          if negb (validate matchText)
          then matchLoop fuel' re validate pageNum patternName
                 fullText charMap lastIndex' results
          else
            let startIdx := index in
            let endIdx := startIdx + length matchText in
            let rects := getRectsForRange charMap startIdx endIdx in
            if 0 <? length rects
            then matchLoop fuel' re validate pageNum patternName
                   fullText charMap lastIndex'
                   (results ++ [Match.mk pageNum patternName matchText rects])
            else matchLoop fuel' re validate pageNum patternName
                   fullText charMap lastIndex' results
      end
  end.

(** A string is truthy when it is present and not empty. *)
Definition truthy (s : option jsstring) : option jsstring :=
  match s with
  | Some (c :: s') => Some (c :: s')
  | _ => None
  end.

(** One iteration of [for (const patternName of patternNames)]. *)
Definition searchPattern (fuel : nat) (pageNum : nat)
  (fullText : jsstring) (charMap : list (option CharPos.t))
  (customPattern : option jsstring)
  (results : list Match.t) (patternName : string)
  : outcome (list Match.t) :=
  match lookupPattern patternName REDACTION_PATTERNS with
  | None => Returns results
  | Some pattern =>
      regex <-
        (match String.eqb patternName "custom", truthy customPattern with
         | true, Some p => re <- customRegExp p ;; Returns (Some re)
         | _, _ => Returns (Pattern.regex pattern)
         end) ;;
      match regex with
      | None => Returns results
      | Some re =>
          matchLoop fuel re (Pattern.validate pattern) pageNum patternName
            fullText charMap 0 results
      end
  end.

Fixpoint forPatterns (fuel : nat) (pageNum : nat)
  (fullText : jsstring) (charMap : list (option CharPos.t))
  (customPattern : option jsstring)
  (patternNames : list string) (results : list Match.t)
  : outcome (list Match.t) :=
  match patternNames with
  | [] => Returns results
  | patternName :: rest =>
      results' <- searchPattern fuel pageNum fullText charMap
                    customPattern results patternName ;;
      forPatterns fuel pageNum fullText charMap customPattern rest results'
  end.

(** The [for (pageNum = 1; pageNum <= pageCount; pageNum++)] loop over
    the pages that remain. *)
Fixpoint forPages (fuel : nat) (pages : list Page.t) (pageNum : nat)
  (patternNames : list string) (customPattern : option jsstring)
  (results : list Match.t) : outcome (list Match.t) :=
  match pages with
  | [] => Returns results
  | page :: rest =>
      let '(fullText, charMap) :=
        buildCharMap (Page.items page) (Page.viewport page) in
      results' <- forPatterns fuel pageNum fullText charMap customPattern
                    patternNames results ;;
      forPages fuel rest (S pageNum) patternNames customPattern results'
  end.

(** [searchPatterns(pdfDoc, patternNames, customPattern)]; [fuel] bounds
    each [while] loop. *)
Definition searchPatterns (fuel : nat) (pdfDoc : option PDFDoc)
  (patternNames : list string) (customPattern : option jsstring)
  : outcome (list Match.t) :=
  match pdfDoc with
  | None => Returns []
  | Some pages => forPages fuel pages 1 patternNames customPattern []
  end.

End Search.

(** ** OCR word boxes ([js/ocr.js]) *)

(** A Number of the OCR code: an IEEE 754 double, with the operations
    of the specification, each rounded to the nearest double, ties to
    the even significand. *)
Definition double : Type := spec_float.
Definition fdiv : double -> double -> double := SFdiv 53 1024.
Definition fsub : double -> double -> double := SFsub 53 1024.
Definition fmul : double -> double -> double := SFmul 53 1024.

(** The double of an integer literal. *)
Definition dbl (z : Z) : double := binary_normalize 53 1024 z 0 false.

Definition OCR_DPI : double := dbl 300.
Definition PDF_DPI : double := dbl 72.
Definition SCALE_FACTOR : double := fdiv OCR_DPI PDF_DPI.

Module Bbox.
Record t : Type := mk { x0 : double; y0 : double; x1 : double; y1 : double }.
End Bbox.

Module Word.
Record t : Type := mk { text : jsstring; bbox : Bbox.t; confidence : double }.
End Word.

Module Line.
Record t : Type := mk { words : option (list Word.t); bbox : Bbox.t }.
End Line.

Module Paragraph.
Record t : Type := mk { lines : option (list Line.t) }.
End Paragraph.

Module Block.
Record t : Type := mk { paragraphs : option (list Paragraph.t) }.
End Block.

(** [result.data] of the recognition call. *)
Module OcrData.
Record t : Type := mk {
  blocks : option (list Block.t);
  text : option jsstring
}.
End OcrData.

Module OcrLine.
Record t : Type := mk { text : jsstring; bbox : Bbox.t }.
End OcrLine.

(** An entry of [ocrResults]. *)
Module OcrPage.
Record t : Type := mk {
  words : list Word.t;
  lines : list OcrLine.t;
  fullText : jsstring;
  pageHeight : double
}.
End OcrPage.

(** Image coordinates (300 DPI) to PDF coordinates (72 DPI). *)
Definition pdfBbox (b : Bbox.t) : Bbox.t :=
  Bbox.mk (fdiv (Bbox.x0 b) SCALE_FACTOR) (fdiv (Bbox.y0 b) SCALE_FACTOR)
          (fdiv (Bbox.x1 b) SCALE_FACTOR) (fdiv (Bbox.y1 b) SCALE_FACTOR).

Definition convertWord (word : Word.t) : Word.t :=
  Word.mk (Word.text word) (pdfBbox (Word.bbox word)) (Word.confidence word).

(** The accumulators [words], [lines], [fullText] of [runOCR]. *)
Definition ocrAcc : Type := (list Word.t * list OcrLine.t * jsstring)%type.

Definition ocrLine (acc : ocrAcc) (line : Line.t) : ocrAcc :=
  let '(words, lines, fullText) := acc in
  match Line.words line with
  | None => acc
  | Some ws =>
      let words' := words ++ map convertWord ws in
      let lineText := join [SPACE] (map Word.text ws) in
      (words',
       lines ++ [OcrLine.mk lineText (pdfBbox (Line.bbox line))],
       fullText ++ lineText ++ [NEWLINE])
  end.

Definition ocrParagraph (acc : ocrAcc) (para : Paragraph.t) : ocrAcc :=
  match Paragraph.lines para with
  | None => acc
  | Some ls => fold_left ocrLine ls acc
  end.

Definition ocrBlock (acc : ocrAcc) (block : Block.t) : ocrAcc :=
  match Block.paragraphs block with
  | None => acc
  | Some ps => fold_left ocrParagraph ps acc
  end.

(** The entry stored in [ocrResults[pageNum]] for one recognised page. *)
Definition ocrPageResult (data : OcrData.t) (pageHeight : double)
  : OcrPage.t :=
  let '(words, lines, fullText) :=
    match OcrData.blocks data with
    | Some bs => fold_left ocrBlock bs ([], [], [])
    | None =>
        ([], [], match truthy (OcrData.text data) with
                 | Some s => s
                 | None => []
                 end)
    end in
  OcrPage.mk words lines (trim fullText) pageHeight.

(** Width of a stored box, as [getOCRTextEntries] and
    [renderOCRTextLayer] compute it: [bbox.x1 - bbox.x0]. *)
Definition bboxWidth (b : Bbox.t) : double := fsub (Bbox.x1 b) (Bbox.x0 b).

(** *** The values of doubles

    What the conversion is compared with: the real number that a double
    stands for, as an exact rational. *)

Open Scope Q_scope.

(** The significand of [SCALE_FACTOR], the double nearest to 300/72:
    [SCALE_FACTOR] is [SCALE_MANTISSA * 2^-50]. *)
Definition SCALE_MANTISSA : Z := 4691249611844267.

(** The number that a double stands for: [2^e], [m * 2^e], the sign. *)
Definition pow2 (e : Z) : Q := 2 ^ e.

Definition scaled (m e : Z) : Q := inject_Z m * pow2 e.

Definition signQ (s : bool) : Q := if s then - (1) else 1.

(** The real number of a double; [0] for the infinities and NaN, which
    [isFinite] tells apart. *)
Definition realValue (x : double) : Q :=
  match x with
  | S754_finite s m e => signQ s * scaled (Zpos m) e
  | _ => 0
  end.

Definition isFinite (x : double) : bool :=
  match x with
  | S754_zero _ | S754_finite _ _ _ => true
  | _ => false
  end.

(** The doubles that a division of a pixel coordinate by [SCALE_FACTOR]
    gives: below [2^16] in magnitude, with an exponent of at most
    [-37]. *)
Definition smallDouble (x : double) : Prop :=
  match x with
  | S754_zero _ => True
  | S754_finite _ m e =>
      (-1074 <= e <= -37)%Z /\ (Zpos m < 2 ^ (16 - e))%Z
  | _ => False
  end.

(** A double below [2^17] in magnitude. *)
Definition inPixelRange (x : double) : Prop :=
  match x with
  | S754_zero _ => True
  | S754_finite _ m e =>
      (-1074 <= e)%Z /\ (Zdigits2 (Zpos m) + e <= 17)%Z
  | _ => False
  end.

(** The double of a sign, a rounded mantissa and an exponent. *)
Definition roundedDouble (s : bool) (m2 e2 : Z) : double :=
  match m2 with
  | Z0 => S754_zero s
  | Zpos p => S754_finite s p e2
  | Zneg _ => S754_nan
  end.

(** A pixel coordinate: a double that is a number, of magnitude at most
    65536. *)
Definition pixelCoordinate (x : double) : Prop :=
  valid_binary 53 1024 x = true
  /\ isFinite x = true
  /\ Qabs (realValue x) <= 65536.

Close Scope Q_scope.

(** ** A concrete host

    A browser restricted to what the examples need: square roots exact
    on squares of rationals, ASCII case folding, no [pdfjsLib] global,
    and a RegExp constructor for a fragment of the pattern syntax
    (alternation, sequence, groups, the greedy quantifiers [*], [+],
    [?], the dot, the class escapes, [\b], and escaped syntax
    characters); a pattern outside the fragment is answered [None]. *)

Definition sqrtExact (q : Q) : Q :=
  let r := Qred q in
  Qmake (Z.sqrt (Qnum r)) (Pos.sqrt (Qden r)).

Definition asciiUpper (c : char16) : char16 :=
  if ((97 <=? c) && (c <=? 122))%N then (c - 32)%N else c.

(** SyntaxCharacter of the pattern grammar. *)
Definition isSyntaxCharacter (c : char16) : bool :=
  existsb (N.eqb c) (js "^$\.*+?()[]{}|").

(** A pattern character, escaped when it is a syntax character. *)
Definition renderLiteral (c : char16) : jsstring :=
  if isSyntaxCharacter c then [BACKSLASH; c] else [c].

Definition isChar (s : string) (c : char16) : bool := (c =? ch s)%N.

Definition parseEscape (e : char16) : option (regex * bool) :=
  if isSyntaxCharacter e || isChar "/" e then Some (Chr (CChar e), true)
  else if isChar "d" e then Some (Chr CDigit, true)
  else if isChar "D" e then Some (Chr (CNot CDigit), true)
  else if isChar "s" e then Some (Chr CSpace, true)
  else if isChar "S" e then Some (Chr (CNot CSpace), true)
  else if isChar "w" e then Some (Chr CWord, true)
  else if isChar "W" e then Some (Chr (CNot CWord), true)
  else if isChar "n" e then Some (Chr (CChar 10%N), true)
  else if isChar "r" e then Some (Chr (CChar 13%N), true)
  else if isChar "t" e then Some (Chr (CChar 9%N), true)
  else if isChar "b" e then Some (WordB, false)
  else None.

(** A quantifier after the atom [a], if any. *)
Definition parseQuantifier (a : regex) (s : jsstring)
  : option (regex * jsstring) :=
  match s with
  | q :: rest =>
      let quantified :=
        if isChar "*" q then Some (Star a)
        else if isChar "+" q then Some (plus a)
        else if isChar "?" q then Some (opt a)
        else None in
      match quantified with
      | Some r =>
          match rest with
          | l :: _ => if isChar "?" l then None else Some (r, rest)
          | [] => Some (r, rest)
          end
      | None => Some (a, s)
      end
  | [] => Some (a, s)
  end.

Fixpoint parseDisjunction (n : nat) (s : jsstring)
  : option (regex * jsstring) :=
  match n with
  | O => None
  | S n' =>
      match parseAlternative n' s with
      | Some (r1, c :: rest) =>
          if isChar "|" c
          then match parseDisjunction n' rest with
               | Some (r2, rest') => Some (Alt r1 r2, rest')
               | None => None
               end
          else Some (r1, c :: rest)
      | other => other
      end
  end
with parseAlternative (n : nat) (s : jsstring)
  : option (regex * jsstring) :=
  match n with
  | O => None
  | S n' =>
      match s with
      | [] => Some (Eps, [])
      | c :: _ =>
          if isChar "|" c || isChar ")" c then Some (Eps, s)
          else
            match parseTerm n' s with
            | Some (r, rest) =>
                match parseAlternative n' rest with
                | Some (r', rest') => Some (Seq r r', rest')
                | None => None
                end
            | None => None
            end
      end
  end
with parseTerm (n : nat) (s : jsstring) : option (regex * jsstring) :=
  match n with
  | O => None
  | S n' =>
      match s with
      | [] => None
      | c :: rest =>
          if isChar "(" c then
            let body :=
              match rest with
              | q :: rest' =>
                  if isChar "?" q
                  then match rest' with
                       | k :: rest'' => if isChar ":" k then Some rest'' else None
                       | [] => None
                       end
                  else Some rest
              | [] => Some rest
              end in
            match body with
            | Some b =>
                match parseDisjunction n' b with
                | Some (r, d :: rest') =>
                    if isChar ")" d then parseQuantifier r rest' else None
                | _ => None
                end
            | None => None
            end
          else if isChar "\" c then
            match rest with
            | e :: rest' =>
                match parseEscape e with
                | Some (r, true) => parseQuantifier r rest'
                | Some (r, false) => Some (r, rest')
                | None => None
                end
            | [] => None
            end
          else if isChar "." c then parseQuantifier (Chr CDot) rest
          else if isSyntaxCharacter c && negb (isChar "]" c || isChar "}" c)
          then None
          else parseQuantifier (Chr (CChar c)) rest
      end
  end.

Definition RegExp_fragment (p : jsstring) : option regex :=
  match parseDisjunction (4 * length p + 4) p with
  | Some (r, []) => Some r
  | _ => None
  end.

Definition browser : Host :=
  {| Math_sqrt := sqrtExact;
     Util_transform := None;
     Canonicalize := asciiUpper;
     RegExp_gi := RegExp_fragment |}.

(** ** Definitions used to state the properties *)

(** The text of a run: nothing when [str] is missing or empty. *)
Definition runText (item : TextItem.t) : jsstring :=
  match TextItem.str item with
  | Some s => s
  | None => []
  end.

(** The run texts in order, each followed by the separator space. *)
Definition indexText (items : list TextItem.t) : jsstring :=
  flat_map (fun item => runText item ++ [SPACE]) items.

(** [charMap.slice(startIdx, endIdx)] *)
Definition slice {A : Type} (l : list A) (startIdx endIdx : nat) : list A :=
  firstn (endIdx - startIdx) (skipn startIdx l).

(** The walk over a slice as the design describes it, for a given
    same-line test: a null entry closes the open rectangle; a non-null
    entry extends the open rectangle when the test holds, else closes it
    and opens a new one; the open rectangle is flushed at the end. *)
Fixpoint walkSpec (test : CharPos.t -> Rect.t -> bool)
  (open : option Rect.t) (entries : list (option CharPos.t))
  : list Rect.t :=
  match entries with
  | [] => match open with Some r => [r] | None => [] end
  | None :: rest =>
      match open with
      | Some r => r :: walkSpec test None rest
      | None => walkSpec test None rest
      end
  | Some p :: rest =>
      match open with
      | None => walkSpec test (Some (rectOf p)) rest
      | Some r =>
          if test p r then walkSpec test (Some (extendRect r p)) rest
          else r :: walkSpec test (Some (rectOf p)) rest
      end
  end.

Open Scope Q_scope.


Close Scope Q_scope.

(** Font size of the glyph boxes of an item. *)
Definition itemFontSize `{Host} (viewport : Viewport.t) (item : TextItem.t)
  : Q :=
  fontSizeOf (itemTransform viewport item).

(** What [buildCharMap] appends to the character map for one item: a box
    per character, then the null separator. *)
Definition runMap `{Host} (viewport : Viewport.t) (item : TextItem.t)
  : list (option CharPos.t) :=
  match TextItem.str item with
  | Some s => itemChars viewport item s ++ [None]
  | None => [None]
  end.

(** ** Example inputs *)

(** A page-space viewport at scale 1 of a 792-point-high page. *)
Definition exampleViewport : Viewport.t :=
  Viewport.mk (1, 0, 0, -(1), 0, 792)%Q.

(** Two runs on one baseline, 12-point font: ["123-45"] then ["6789"]. *)
Definition runA : TextItem.t :=
  TextItem.mk (Some (js "123-45")) (12, 0, 0, 12, 100, 700)%Q 36%Q.
Definition runB : TextItem.t :=
  TextItem.mk (Some (js "6789")) (12, 0, 0, 12, 140, 700)%Q 24%Q.

Definition onLine (y h : Q) (entry : option CharPos.t) : bool :=
  match entry with
  | Some p => Qeq_bool (CharPos.y p) y && Qeq_bool (CharPos.h p) h
  | None => true
  end.

(** A box lies on the line whose top edge is [y] when it has that top
    edge and a positive height. *)
Definition alignedWith (y : Q) (p : CharPos.t) : Prop :=
  CharPos.y p = y /\ (0 < CharPos.h p)%Q.

(** The boxes of [itemChars], without the [Some]. *)
Definition itemBoxes `{Host} (viewport : Viewport.t) (item : TextItem.t)
  (s : jsstring) : list CharPos.t :=
  let tx := itemTransform viewport item in
  let avgCharWidth :=
    (TextItem.width item
     / Qnat (if length s =? 0 then 1 else length s))%Q in
  map (fun i =>
         CharPos.mk (m4 tx + avgCharWidth * Qnat i)%Q
           (m5 tx - fontSizeOf tx)%Q avgCharWidth (fontSizeOf tx))
      (seq 0 (length s)).

(** ** Shapes of matches and the validators' rules *)

(** [n] decimal digits. *)
Definition allDigits (n : nat) (s : jsstring) : Prop :=
  length s = n /\ forallb isDigit s = true.

(** [[-\s]?] *)
Definition optionalSeparator (s : jsstring) : Prop :=
  s = [] \/ exists c, s = [c] /\ isSeparator c = true.

(** The text of a match of [\d{3}[-\s]?\d{2}[-\s]?\d{4}]: area, group and
    serial with their optional separators. *)
Definition ssnShape (m : jsstring) : Prop :=
  exists area s1 group s2 serial,
    m = area ++ s1 ++ group ++ s2 ++ serial
    /\ allDigits 3 area /\ optionalSeparator s1
    /\ allDigits 2 group /\ optionalSeparator s2
    /\ allDigits 4 serial.

(** The text of a match of [(?:\d{4}[-\s]?){3}\d{1,4}]. *)
Definition cardShape (m : jsstring) : Prop :=
  exists g1 s1 g2 s2 g3 s3 g4,
    m = g1 ++ s1 ++ g2 ++ s2 ++ g3 ++ s3 ++ g4
    /\ allDigits 4 g1 /\ optionalSeparator s1
    /\ allDigits 4 g2 /\ optionalSeparator s2
    /\ allDigits 4 g3 /\ optionalSeparator s3
    /\ forallb isDigit g4 = true /\ 1 <= length g4 <= 4.

(** The number written by a string of decimal digits. *)
Definition decimalValue (s : jsstring) : Z :=
  fold_left (fun acc c => acc * 10 + (Z.of_N c - 48))%Z s 0%Z.

(** The rule of the SSN row of the pattern table. *)
Definition ssnRule (area group serial : jsstring) : Prop :=
  decimalValue area <> 0%Z
  /\ decimalValue area <> 666%Z
  /\ ~ (900 <= decimalValue area <= 999)%Z
  /\ group <> js "00"
  /\ serial <> js "0000".

(** The Luhn checksum: from the rightmost digit leftwards, every second
    digit is doubled, 9 is subtracted from a double above 9, and the sum
    of all must be a multiple of 10. [luhnSum] takes the digits from the
    right. *)
Definition luhnDouble (d : Z) : Z :=
  if (9 <? 2 * d)%Z then (2 * d - 9)%Z else (2 * d)%Z.

Fixpoint luhnSum (fromRight : list Z) : Z :=
  match fromRight with
  | [] => 0
  | [d] => d
  | d :: e :: rest => d + luhnDouble e + luhnSum rest
  end%Z.

Definition digitOf (c : char16) : Z := (Z.of_N c - 48)%Z.

Definition luhnValid (digits : jsstring) : Prop :=
  (luhnSum (rev (map digitOf digits)) mod 10 = 0)%Z.

(** The sum of [luhnCheck] from the right with its flag [alt]. *)
Fixpoint altSum (alt : bool) (fromRight : list Z) : Z :=
  match fromRight with
  | [] => 0
  | d :: rest =>
      (if alt then luhnDouble d else d) + altSum (negb alt) rest
  end%Z.

(** The words of a structured recognition result, in reading order. *)
Definition lineWords (line : Line.t) : list Word.t :=
  match Line.words line with Some ws => ws | None => [] end.
Definition paragraphWords (para : Paragraph.t) : list Word.t :=
  match Paragraph.lines para with
  | Some ls => flat_map lineWords ls
  | None => []
  end.
Definition blockWords (block : Block.t) : list Word.t :=
  match Block.paragraphs block with
  | Some ps => flat_map paragraphWords ps
  | None => []
  end.
Definition dataWords (data : OcrData.t) : list Word.t :=
  match OcrData.blocks data with
  | Some bs => flat_map blockWords bs
  | None => []
  end.

(** ** Literal patterns *)

Section Literal.
Context `{Host}.

(** Equality of code units up to the case folding of the [i] flag. *)
Definition ciEq (a c : char16) : bool :=
  (Canonicalize a =? Canonicalize c)%N.

(** [p] is a prefix of [txt], up to case folding. *)
Fixpoint ciPrefix (p txt : jsstring) : bool :=
  match p, txt with
  | [], _ => true
  | a :: p', c :: txt' => ciEq a c && ciPrefix p' txt'
  | _ :: _, [] => false
  end.

(** [p] occurs in [txt] at index [i], up to case folding. *)
Definition occursAt (p txt : jsstring) (i : nat) : bool :=
  ciPrefix p (skipn i txt).

End Literal.

(** The constructor accepts a pattern made of pattern characters and of
    escaped syntax characters, and the RegExp matches these characters in
    sequence (PatternCharacter and IdentityEscape of the grammar). *)
Definition acceptsLiterals (H : Host) : Prop :=
  forall s, RegExp_gi (flat_map renderLiteral s) = Some (literal s).

(** Case-sensitive prefix and substring tests. *)
Fixpoint isPrefix (p txt : jsstring) : bool :=
  match p, txt with
  | [], _ => true
  | a :: p', c :: txt' => (a =? c)%N && isPrefix p' txt'
  | _ :: _, [] => false
  end.
Fixpoint isSubstring (p txt : jsstring) : bool :=
  isPrefix p txt
  || match txt with
     | [] => false
     | _ :: txt' => isSubstring p txt'
     end.

(** ** Search results *)

(** A reported match carries geometry. *)
Definition hasRects (m : Match.t) : Prop := Match.rects m <> [].

(** A page without text items. *)
Definition emptyPage : Page.t := Page.mk [] exampleViewport.

(** A page whose only item has no text: the index is a lone separator. *)
Definition blankPage : Page.t :=
  Page.mk [TextItem.mk None (12, 0, 0, 12, 100, 700)%Q 0%Q] exampleViewport.

(** Least number of code units a match of [r] consumes. *)
Fixpoint minLen (r : regex) : nat :=
  match r with
  | Eps => 0
  | Chr _ => 1
  | Seq r1 r2 => minLen r1 + minLen r2
  | Alt r1 r2 => Nat.min (minLen r1) (minLen r2)
  | Star _ => 0
  | WordB => 0
  end.

(** Every match of the pattern consumes at least one code unit. *)
Definition progresses (re : RegExp) : Prop := 1 <= minLen (source re).

(** The custom pattern, when one is supplied, compiles to a pattern
    whose matches are never empty. *)
Definition customProgresses `{Host} (customPattern : option jsstring)
  : Prop :=
  match truthy customPattern with
  | Some p => exists re, customRegExp p = Returns re /\ progresses re
  | None => True
  end.

(** A bound on the iterations of the search loop that suffices for every
    page of [pages]. *)
Definition enoughFuel (pages : list Page.t) (fuel : nat) : Prop :=
  forall page,
    In page pages -> length (indexText (Page.items page)) + 2 <= fuel.

(** A page with the single run ["(ABC"]. *)
Definition upperPage : Page.t :=
  Page.mk [TextItem.mk (Some (js "(ABC")) (12, 0, 0, 12, 100, 700)%Q 24%Q]
    exampleViewport.

(** ** The texts a pattern matches *)

Section Language.
Context `{Host}.

(** [matchesText ic r s]: the pattern [r] can consume exactly the code
    units [s] (a word-boundary assertion consumes nothing). *)
Fixpoint matchesText (ic : bool) (r : regex) (s : jsstring) : Prop :=
  match r with
  | Eps => s = []
  | Chr cl => exists c, s = [c] /\ cmem ic cl c = true
  | Seq r1 r2 =>
      exists s1 s2, s = s1 ++ s2 /\ matchesText ic r1 s1
                    /\ matchesText ic r2 s2
  | Alt r1 r2 => matchesText ic r1 s \/ matchesText ic r2 s
  | Star r' => exists l, s = concat l /\ Forall (matchesText ic r') l
  | WordB => s = []
  end.

End Language.

(** ** Bates numbering

    The stamping of sequential labels on the pages of a document. The
    PDF library is outside the repository: a document is the list of the
    sizes of its pages, the measure of a text in the embedded font is the
    field of [PdfFont], and the effect of the calls of [page.drawText]
    is the list of the stamps drawn. A Number that counts (a page
    number, a Bates number, a pad width) is an integer of [Z]; a sum is
    rounded to a double, and the string of a Number beyond the safe
    integers is that of the engine. *)

From Stdlib Require Import DecimalPos DecimalN Lqa.

(** [String(num)] for an integer. *)
Fixpoint uintChars (d : Decimal.uint) : jsstring :=
  match d with
  | Decimal.Nil => []
  | Decimal.D0 l => 48%N :: uintChars l
  | Decimal.D1 l => 49%N :: uintChars l
  | Decimal.D2 l => 50%N :: uintChars l
  | Decimal.D3 l => 51%N :: uintChars l
  | Decimal.D4 l => 52%N :: uintChars l
  | Decimal.D5 l => 53%N :: uintChars l
  | Decimal.D6 l => 54%N :: uintChars l
  | Decimal.D7 l => 55%N :: uintChars l
  | Decimal.D8 l => 56%N :: uintChars l
  | Decimal.D9 l => 57%N :: uintChars l
  end.

Definition String_of_Z (num : Z) : jsstring :=
  match num with
  | Zneg p => DASH :: uintChars (N.to_uint (Npos p))
  | _ => uintChars (N.to_uint (Z.to_N num))
  end.

(** The integer nearest to [z] that a double holds, ties to the even
    significand: from 54 bits on the low bits are rounded away.  For
    magnitudes below [2 ^ 1024]. *)
Definition roundDouble (z : Z) : Z :=
  let a := Z.abs z in
  let drop := (Z.log2 a + 1 - 53)%Z in
  if (drop <=? 0)%Z then z
  else
    let q := Z.shiftr a drop in
    let r := Z.land a (Z.ones drop) in
    let half := Z.shiftl 1 (drop - 1) in
    let q' :=
      if ((half <? r) || ((r =? half) && Z.odd q))%Z then (q + 1)%Z
      else q in
    (Z.sgn z * Z.shiftl q' drop)%Z.

(** [num++] on a Number that holds an integer. *)
Definition numSucc (num : Z) : Z := roundDouble (num + 1).

(** [Number.MAX_SAFE_INTEGER + 1]: up to this magnitude every integer
    is a double and is written with all its digits. *)
Definition SAFE : Z := 2 ^ 53.

(** What the engine writes for a Number beyond the safe integers: the
    shortest decimal that reads back as the Number, in exponent notation
    from [1e21]. *)
Class Engine : Type := {
  Number_toString : Z -> jsstring
}.

(** [String(num)] for a Number that holds an integer. *)
Definition String_of_Number {engine : Engine} (num : Z) : jsstring :=
  if (Z.abs num <=? SAFE)%Z then String_of_Z num else Number_toString num.

(** [s.padStart(targetLength, fill)] for a filler of one character. *)
Definition padStart (s : jsstring) (targetLength : Z) (fill : char16)
  : jsstring :=
  repeat fill (Z.to_nat targetLength - length s) ++ s.

(** [font.widthOfTextAtSize(text, size)]; [None] when the call throws,
    as it does for a text that the font cannot encode. *)
Class PdfFont : Type := {
  widthOfTextAtSize : jsstring -> Q -> option Q
}.

Definition MARGIN : Q := 36.

Module BatesOptions.
(** A field is [None] when the option is not given. *)
Record t : Type := mk {
  prefix : option jsstring;
  suffix : option jsstring;
  startNumber : option Z;
  zeroPad : option Z;
  position : option string;
  fontSize : option Q;
  color : option jsstring;
  startPage : option Z;
  endPage : option Z
}.
End BatesOptions.

(** A destructuring default: [{ field = d } = opts]. *)
Definition orElse {A : Type} (field : option A) (d : A) : A :=
  match field with
  | Some v => v
  | None => d
  end.

(** [prefix + String(num).padStart(zeroPad, '0') + suffix] *)
Definition batesLabel {engine : Engine} (prefix suffix : jsstring) (num zeroPad : Z)
  : jsstring :=
  prefix ++ padStart (String_of_Number num) zeroPad (ch "0") ++ suffix.

(** [previewBatesLabel(opts)] *)
Definition previewBatesLabel {engine : Engine} (opts : BatesOptions.t) : jsstring :=
  let prefix := orElse (BatesOptions.prefix opts) [] in
  let suffix := orElse (BatesOptions.suffix opts) [] in
  let startNumber := orElse (BatesOptions.startNumber opts) 1%Z in
  let zeroPad := orElse (BatesOptions.zeroPad opts) 6%Z in
  batesLabel prefix suffix startNumber zeroPad.

(** [calcPosition(position, pageW, pageH, textW, fontSize)] *)
Definition calcPosition (position : string) (pageW pageH textW fontSize : Q)
  : Q * Q :=
  (if String.eqb position "top-left"
   then (MARGIN, pageH - MARGIN - fontSize)
   else if String.eqb position "top-center"
   then ((pageW - textW) / 2, pageH - MARGIN - fontSize)
   else if String.eqb position "top-right"
   then (pageW - MARGIN - textW, pageH - MARGIN - fontSize)
   else if String.eqb position "bottom-left"
   then (MARGIN, MARGIN)
   else if String.eqb position "bottom-right"
   then (pageW - MARGIN - textW, MARGIN)
   else ((pageW - textW) / 2, MARGIN))%Q.

(** [parseInt(s, 16)]: as [parseInt], with the prefix [0x] or [0X]
    skipped. *)
Definition parseIntHex (s : jsstring) : number :=
  let s1 := trimStart s in
  let '(sign, s2) :=
    match s1 with
    | c :: r => if (c =? 45)%N then ((-1)%Z, r)
                else if (c =? 43)%N then (1%Z, r) else (1%Z, s1)
    | [] => (1%Z, s1)
    end in
  let s3 :=
    match s2 with
    | z :: x :: r =>
        if ((z =? 48) && ((x =? 120) || (x =? 88)))%N then r else s2
    | _ => s2
    end in
  match parseDigits 16 s3 None with
  | Some v => Some (sign * v)%Z
  | None => NaN
  end.

(** [parseInt(color.slice(i, j), 16) / 255]; [None] is NaN. *)
Definition colorComponent (color : jsstring) (i j : nat) : option Q :=
  match parseIntHex (substring color i j) with
  | Some v => Some (inject_Z v / 255)%Q
  | None => None
  end.

(** [PDFLib.rgb(r, g, b)]: the library throws unless each component is
    a number from 0 to 1. *)
Definition inUnit (component : option Q) : bool :=
  match component with
  | Some q => Qle_bool 0 q && Qle_bool q 1
  | None => false
  end.

Definition PDFLib_rgb (r g b : option Q) : outcome (Q * Q * Q) :=
  match r, g, b with
  | Some r', Some g', Some b' =>
      if inUnit r && inUnit g && inUnit b then Returns (r', g', b')
      else Throws
  | _, _, _ => Throws
  end.

Module PageSize.
Record t : Type := mk { width : Q; height : Q }.
End PageSize.

(** One call of [page.drawText(label, { x, y, size, font, color })] on
    the page of index [pageIndex]. *)
Module Stamp.
Record t : Type := mk {
  pageIndex : Z;
  label : jsstring;
  x : Q;
  y : Q;
  size : Q;
  color : Q * Q * Q
}.
End Stamp.

(** What [applyBatesNumbers] returns; the bytes of the saved document
    are stood for by the stamps drawn. *)
Module BatesResult.
Record t : Type := mk {
  stamps : list Stamp.t;
  firstLabel : jsstring;
  lastLabel : jsstring
}.
End BatesResult.

(** [Math.max(1, startPage) - 1]: index of the first page stamped. *)
Definition batesFirst (startPage : Z) : Z := (Z.max 1 startPage - 1)%Z.

(** [endPage > 0 ? Math.min(endPage, pageCount) : pageCount]: index
    after the last page stamped. *)
Definition batesLast (endPage : Z) (pageCount : nat) : Z :=
  if (0 <? endPage)%Z then Z.min endPage (Z.of_nat pageCount)
  else Z.of_nat pageCount.

Section Bates.
Context {font : PdfFont} {engine : Engine}.

(** [doc.getPage(i)]: throws outside the document. *)
Definition getPage (pages : list PageSize.t) (i : Z)
  : outcome PageSize.t :=
  if (i <? 0)%Z then Throws
  else match nth_error pages (Z.to_nat i) with
       | Some page => Returns page
       | None => Throws
       end.

(** [font.widthOfTextAtSize(label, fontSize)] *)
Definition measure (label : jsstring) (fontSize : Q) : outcome Q :=
  match widthOfTextAtSize label fontSize with
  | Some textWidth => Returns textWidth
  | None => Throws
  end.

(** The iterations of [for (let i = first; i < last; i++)] that remain
    are [count]. *)
Fixpoint stampLoop (pages : list PageSize.t) (prefix suffix : jsstring)
  (zeroPad : Z) (position : string) (fontSize : Q)
  (r g b : option Q) (first : Z)
  (count : nat) (i num : Z) (acc : BatesResult.t)
  : outcome BatesResult.t :=
  match count with
  | O => Returns acc
  | S count' =>
      page <- getPage pages i ;;
      let label := batesLabel prefix suffix num zeroPad in
      let firstLabel :=
        if (i =? first)%Z then label else BatesResult.firstLabel acc in
      textWidth <- measure label fontSize ;;
      let '(x, y) :=
        calcPosition position (PageSize.width page) (PageSize.height page)
          textWidth fontSize in
      color <- PDFLib_rgb r g b ;;
      stampLoop pages prefix suffix zeroPad position fontSize r g b first
        count' (i + 1)%Z (numSucc num)
        (BatesResult.mk
           (BatesResult.stamps acc
            ++ [Stamp.mk i label x y fontSize color])
           firstLabel label)
  end.

(** [applyBatesNumbers(pdfBytes, opts)], on the pages of the loaded
    document. *)
Definition applyBatesNumbers (pages : list PageSize.t)
  (opts : BatesOptions.t) : outcome BatesResult.t :=
  let prefix := orElse (BatesOptions.prefix opts) [] in
  let suffix := orElse (BatesOptions.suffix opts) [] in
  let startNumber := orElse (BatesOptions.startNumber opts) 1%Z in
  let zeroPad := orElse (BatesOptions.zeroPad opts) 6%Z in
  let position := orElse (BatesOptions.position opts) "bottom-center"%string in
  let fontSize := orElse (BatesOptions.fontSize opts) 10%Q in
  let color := orElse (BatesOptions.color opts) (js "#000000") in
  let startPage := orElse (BatesOptions.startPage opts) 1%Z in
  let endPage := orElse (BatesOptions.endPage opts) 0%Z in
  let r := colorComponent color 1 3 in
  let g := colorComponent color 3 5 in
  let b := colorComponent color 5 7 in
  let pageCount := length pages in
  let first := batesFirst startPage in
  let last := batesLast endPage pageCount in
  stampLoop pages prefix suffix zeroPad position fontSize r g b first
    (Z.to_nat (last - first)) first startNumber
    (BatesResult.mk [] [] []).

End Bates.

(** [0-9a-fA-F] *)
Definition hexDigits : jsstring := js "0123456789abcdefABCDEF".
Definition isHexDigit (c : char16) : bool := existsb (N.eqb c) hexDigits.

(** Two characters read in base 16 as a number from 0 to 255. *)
Definition hexPairOk (c1 c2 : char16) : bool :=
  match parseIntHex [c1; c2] with
  | Some v => ((0 <=? v) && (v <=? 255))%Z
  | None => false
  end.

(** A component of a colour is a number between 0 and 1. *)
Definition unitInterval (component : option Q) : Prop :=
  exists q, component = Some q /\ (0 <= q <= 1)%Q.

(** The Bates number of the [k]-th page stamped. *)
Definition batesNumber (startNumber : Z) (k : nat) : Z :=
  Nat.iter k numSucc startNumber.

(** The colour of the options, as [applyBatesNumbers] hands it to
    [PDFLib.rgb]. *)
Definition batesColor (opts : BatesOptions.t) : outcome (Q * Q * Q) :=
  let color := orElse (BatesOptions.color opts) (js "#000000") in
  PDFLib_rgb (colorComponent color 1 3) (colorComponent color 3 5)
    (colorComponent color 5 7).

(** The text of a label of measure [textWidth] starts and ends between
    the left and the right margin of a page. *)
Definition betweenMargins (page : PageSize.t) (textWidth : Q) (st : Stamp.t)
  : Prop :=
  (MARGIN <= Stamp.x st)%Q
  /\ (Stamp.x st + textWidth <= PageSize.width page - MARGIN)%Q.

(** A stamp is on a page of the document, at the position that
    [calcPosition] computes for the position name, the size of the page
    and the measure of the label; its base line is one margin above the
    bottom of the page, or one margin and the font size below its top;
    and a label that is no wider than the page less the two margins
    lies between them. *)
Definition placed {font : PdfFont} (pages : list PageSize.t)
  (position : string) (st : Stamp.t) : Prop :=
  exists page textWidth,
    nth_error pages (Z.to_nat (Stamp.pageIndex st)) = Some page
    /\ widthOfTextAtSize (Stamp.label st) (Stamp.size st) = Some textWidth
    /\ (Stamp.x st, Stamp.y st)
       = calcPosition position (PageSize.width page) (PageSize.height page)
           textWidth (Stamp.size st)
    /\ (Stamp.y st = MARGIN
        \/ Stamp.y st = (PageSize.height page - MARGIN - Stamp.size st)%Q)
    /\ ((textWidth <= PageSize.width page - 2 * MARGIN)%Q ->
        betweenMargins page textWidth st).

(** A font of the characters below 256, each six tenths of the size
    wide; it cannot encode the other characters. *)
Definition fixedPitch : PdfFont :=
  {| widthOfTextAtSize :=
       fun s size =>
         if forallb (fun c => (c <? 256)%N) s
         then Some (Qnat (length s) * size * (6 # 10))%Q
         else None |}.

(** An engine for the examples, whose numbers are safe integers. *)
Definition plainDigits : Engine := {| Number_toString := String_of_Z |}.

Definition letterPage : PageSize.t := PageSize.mk 612 792.

(** ** The Bates dialogue ([js/export.js])

    The values of the fields of the dialogue are the record
    [BatesForm.t]; [parsePageRanges], which is outside the files
    studied, is a parameter, and answers with page indices from 0. *)

(** [n || d] on a Number: [d] replaces NaN and 0. *)
Definition orNumber (n : number) (d : Z) : Z :=
  match n with
  | Some v => if (v =? 0)%Z then d else v
  | None => d
  end.

(** [s || d] on a string: [d] replaces the empty string. *)
Definition orString (s d : jsstring) : jsstring :=
  match s with
  | [] => d
  | _ => s
  end.

Module BatesForm.
Record t : Type := mk {
  prefix : jsstring;
  suffix : jsstring;
  start : jsstring;
  pad : jsstring;
  position : string;
  fontSize : jsstring;
  color : jsstring;
  pageRange : string;
  rangeInput : jsstring
}.
End BatesForm.

(** [parseInt(s)] as a Number: the integer read is rounded to the
    nearest double.  An integer of [2 ^ 1024] or more, which reads as
    Infinity, is outside the model. *)
Definition parseIntNumber (s : jsstring) : number :=
  match parseInt s None with
  | Some v => Some (roundDouble v)
  | None => NaN
  end.

(** [updateBatesPreview()]: the text written to the preview. *)
Definition updateBatesPreview {engine : Engine} (form : BatesForm.t) : jsstring :=
  previewBatesLabel
    (BatesOptions.mk
       (Some (BatesForm.prefix form))
       (Some (BatesForm.suffix form))
       (Some (orNumber (parseIntNumber (BatesForm.start form)) 1))
       (Some (orNumber (parseIntNumber (BatesForm.pad form)) 6))
       None None None None None).

Section ExecuteBates.
Context {font : PdfFont} {engine : Engine}.
Variable parsePageRanges : jsstring -> Z -> outcome (list Z).

(** [startPage] and [endPage] of [executeBates]; [None] when the
    function warns and returns. *)
Definition batesPageRange (form : BatesForm.t) (totalPages : Z)
  : option (Z * Z) :=
  if String.eqb (BatesForm.pageRange form) "custom"
  then
    let rangeText := trim (BatesForm.rangeInput form) in
    match rangeText with
    | [] => None
    | _ =>
        match parsePageRanges rangeText totalPages with
        | Returns pages =>
            match pages with
            | [] => None
            | first :: _ => Some (first + 1, last pages 0 + 1)%Z
            end
        | _ => None
        end
    end
  else Some (1, 0)%Z.

(** The options that [executeBates] hands to [applyBatesNumbers]. *)
Definition executeBatesOptions (form : BatesForm.t) (startPage endPage : Z)
  : BatesOptions.t :=
  BatesOptions.mk
    (Some (BatesForm.prefix form))
    (Some (BatesForm.suffix form))
    (Some (orNumber (parseIntNumber (BatesForm.start form)) 1))
    (Some (orNumber (parseIntNumber (BatesForm.pad form)) 6))
    (Some (BatesForm.position form))
    (Some (inject_Z (orNumber (parseIntNumber (BatesForm.fontSize form)) 10)))
    (Some (orString (BatesForm.color form) (js "#000000")))
    (Some startPage)
    (Some endPage).

(** [executeBates()]: [None] when the function returns before stamping,
    otherwise the outcome of [applyBatesNumbers]; [pdf] is
    [State.pdfBytes], null or the pages of the document. *)
Definition executeBates (pdf : option (list PageSize.t)) (totalPages : Z)
  (form : BatesForm.t) : option (outcome BatesResult.t) :=
  match pdf with
  | None => None
  | Some pages =>
      match batesPageRange form totalPages with
      | None => None
      | Some (startPage, endPage) =>
          Some (applyBatesNumbers pages
                  (executeBatesOptions form startPage endPage))
      end
  end.

End ExecuteBates.

(** Examples: a document of three pages, options and a dialogue. *)
Definition docOptions : BatesOptions.t :=
  BatesOptions.mk (Some (js "DOC-")) None None None None None None
    (Some 2%Z) None.

Definition docForm : BatesForm.t :=
  BatesForm.mk (js "DOC-") [] (js "7") (js "4") "top-right" (js "10")
    (js "#ff8000") "custom" (js " 1,3 ").

Definition threePages : list PageSize.t :=
  [letterPage; letterPage; letterPage].

Definition firstAndThird (rangeText : jsstring) (totalPages : Z)
  : outcome (list Z) :=
  Returns [0; 2]%Z.

(** ** The store of OCR results ([js/ocr.js])

    [ocrResults] is an object with the page numbers as keys. The keys
    are array indices, which an object lists in ascending order whatever
    the order of the assignments: the store is an association list kept
    in the order of the keys, and the state of the module is passed
    from call to call. *)

Definition OcrResults : Type := list (nat * OcrPage.t).

(** [ocrResults[pageNum] = result] *)
Fixpoint storeSet (store : OcrResults) (pageNum : nat) (result : OcrPage.t)
  : OcrResults :=
  match store with
  | [] => [(pageNum, result)]
  | (key, value) :: rest =>
      if pageNum <? key then (pageNum, result) :: store
      else if pageNum =? key then (pageNum, result) :: rest
      else (key, value) :: storeSet rest pageNum result
  end.

(** [ocrResults[pageNum]]; [None] is undefined. *)
Fixpoint storeGet (store : OcrResults) (pageNum : nat) : option OcrPage.t :=
  match store with
  | [] => None
  | (key, value) :: rest =>
      if pageNum =? key then Some value else storeGet rest pageNum
  end.

(** [hasOCRResults(pageNum)] *)
Definition hasOCRResults (store : OcrResults) (pageNum : nat) : bool :=
  match storeGet store pageNum with
  | Some _ => true
  | None => false
  end.

(** [getOCRResults(pageNum)]; [None] is null. *)
Definition getOCRResults (store : OcrResults) (pageNum : nat)
  : option OcrPage.t :=
  storeGet store pageNum.

(** [clearOCRResults()] *)
Definition clearOCRResults : OcrResults := [].

Section RunOCR.

(** The rendering of a page and its recognition by the worker:
    [result.data] and the height of the native viewport, or [None] when
    one of the two promises is rejected. *)
Variable recognize : nat -> option (OcrData.t * double).

(** The loop of [runOCR] over the pages that remain; the second
    component tells whether the loop came to its end. The calls of
    [onProgress], which are for display, are left out. *)
Fixpoint ocrPages (pageNumbers : list nat) (store : OcrResults)
  : OcrResults * bool :=
  match pageNumbers with
  | [] => (store, true)
  | pageNum :: rest =>
      match recognize pageNum with
      | Some (data, pageHeight) =>
          ocrPages rest (storeSet store pageNum (ocrPageResult data pageHeight))
      | None => (store, false)
      end
  end.

(** [runOCR(pdfDoc, pageNumbers, onProgress)]: the store after the
    call, and whether the promise is fulfilled; [engine] tells whether
    the engine loads and the worker is created. *)
Definition runOCR (engine : bool) (store : OcrResults)
  (pageNumbers : list nat) : OcrResults * bool :=
  if engine then ocrPages pageNumbers store else (store, false).

(** The pages of a request up to the first one that is not
    recognised. *)
Fixpoint recognizedPrefix (pageNumbers : list nat) : list nat :=
  match pageNumbers with
  | [] => []
  | pageNum :: rest =>
      match recognize pageNum with
      | Some _ => pageNum :: recognizedPrefix rest
      | None => []
      end
  end.

(** The entry that [runOCR] stores for a page. *)
Definition recognizedPage (pageNum : nat) : option OcrPage.t :=
  match recognize pageNum with
  | Some (data, pageHeight) => Some (ocrPageResult data pageHeight)
  | None => None
  end.

End RunOCR.

(** [i.str] as [join] writes it: nothing for a missing string. *)
Definition itemStr (item : TextItem.t) : jsstring :=
  match TextItem.str item with
  | Some s => s
  | None => []
  end.

(** [isPageScanned(pdfDoc, pageNum)]; rejected when the document has no
    such page. *)
Definition isPageScanned (pdfDoc : PDFDoc) (pageNum : nat) : outcome bool :=
  match pageNum with
  | O => Throws
  | S index =>
      match nth_error pdfDoc index with
      | None => Throws
      | Some page =>
          let text := trim (concat (map itemStr (Page.items page))) in
          Returns (length text <? 20)
      end
  end.

(** An element of the text layer, with the properties that
    [renderOCRTextLayer] sets: the class, the text, and of the style the
    lengths in pixels. *)
Module Span.
Record t : Type := mk {
  classList : list string;
  textContent : jsstring;
  left : double;
  top : double;
  width : double;
  height : double;
  fontSize : double
}.
End Span.

(** [container.querySelector('.ocr-text-span')] is not null; the
    elements of the container are not nested. *)
Definition hasOcrSpan (container : list Span.t) : bool :=
  existsb (fun e => existsb (String.eqb "ocr-text-span") (Span.classList e))
    container.

(** [Math.max(a, b)]: NaN when one of the two is NaN, and [+0] above
    [-0]. *)
Definition Math_max (a b : double) : double :=
  match SFcompare a b with
  | None => S754_nan
  | Some Lt => b
  | Some Gt => a
  | Some Eq =>
      match a with
      | S754_zero true => b
      | _ => a
      end
  end.

(** The literal [0.8]: the double nearest to 8/10. *)
Definition point8 : double := fdiv (dbl 8) (dbl 10).

Definition ocrSpan (scale : double) (word : Word.t) : Span.t :=
  let b := Word.bbox word in
  let height := fmul (fsub (Bbox.y1 b) (Bbox.y0 b)) scale in
  Span.mk ["ocr-text-span"%string] (Word.text word ++ [SPACE])
    (fmul (Bbox.x0 b) scale) (fmul (Bbox.y0 b) scale)
    (fmul (fsub (Bbox.x1 b) (Bbox.x0 b)) scale) height
    (Math_max (dbl 1) (fmul height point8)).

(** [renderOCRTextLayer(pageNum, container, viewport)]: the elements of
    the container after the call; [scale] is [viewport.scale]. *)
Definition renderOCRTextLayer (store : OcrResults) (pageNum : nat)
  (container : list Span.t) (scale : double) : list Span.t :=
  match storeGet store pageNum with
  | None => container
  | Some result =>
      match OcrPage.words result with
      | [] => container
      | words =>
          if hasOcrSpan container then container
          else container ++ map (ocrSpan scale) words
      end
  end.

(** An item and an entry of the text index of the search. *)
Module FindItem.
Record t : Type := mk {
  str : jsstring;
  start : nat;
  transform : list double;
  width : double;
  height : double;
  _ocr : bool
}.
End FindItem.

Module FindEntry.
Record t : Type := mk {
  pageNum : number;
  text : jsstring;
  items : list FindItem.t
}.
End FindEntry.

(** The loop over [result.words] in [getOCRTextEntries], from the word
    at which [offset] stands. *)
Fixpoint ocrItems (words : list Word.t) (offset : nat) : list FindItem.t :=
  match words with
  | [] => []
  | word :: rest =>
      let str :=
        match rest with
        | [] => Word.text word
        | _ => Word.text word ++ [SPACE]
        end in
      let b := Word.bbox word in
      FindItem.mk str offset
        [dbl 1; dbl 0; dbl 0; dbl 1; Bbox.x0 b; Bbox.y0 b]
        (fsub (Bbox.x1 b) (Bbox.x0 b)) (fsub (Bbox.y1 b) (Bbox.y0 b)) true
      :: ocrItems rest (offset + length str)
  end.

(** One iteration of the loop over [Object.entries(ocrResults)]; the key
    of an entry is the page number as a string. *)
Definition ocrEntry (entry : nat * OcrPage.t) : list FindEntry.t :=
  let '(key, result) := entry in
  let pageNum := parseInt (String_of_Z (Z.of_nat key)) None in
  match OcrPage.fullText result with
  | [] => []
  | _ =>
      let items := ocrItems (OcrPage.words result) 0 in
      [FindEntry.mk pageNum (concat (map FindItem.str items)) items]
  end.

(** [getOCRTextEntries()] *)
Definition getOCRTextEntries (store : OcrResults) : list FindEntry.t :=
  flat_map ocrEntry store.

(** An item of an entry is where its [start] says: the text of the entry
    from [start] on begins with the string of the item. *)
Definition itemAt (text : jsstring) (item : FindItem.t) : Prop :=
  substring text (FindItem.start item)
    (FindItem.start item + length (FindItem.str item))
  = FindItem.str item.

(** Examples: a recognition that finds one line of two words on page 1,
    only raw text on page 2, and fails on the other pages. *)
Definition helloWorld : OcrData.t :=
  OcrData.mk
    (Some [Block.mk (Some [Paragraph.mk (Some
       [Line.mk
          (Some [Word.mk (js "Hello")
                   (Bbox.mk (dbl 300) (dbl 300) (dbl 600) (dbl 350)) (dbl 90);
                 Word.mk (js "world")
                   (Bbox.mk (dbl 650) (dbl 300) (dbl 900) (dbl 350)) (dbl 80)])
          (Bbox.mk (dbl 300) (dbl 300) (dbl 900) (dbl 350))])])])
    (Some (js "Hello world")).

Definition rawOnly : OcrData.t := OcrData.mk None (Some (js "raw text")).

(** The height of a Letter page, in points. *)
Definition letterHeight : double := dbl 792.

Definition twoPageScan (pageNum : nat) : option (OcrData.t * double) :=
  match pageNum with
  | 1 => Some (helloWorld, letterHeight)
  | 2 => Some (rawOnly, letterHeight)
  | _ => None
  end.

(** The texts of lines, each followed by a line feed. *)
Definition linesText (lines : list OcrLine.t) : jsstring :=
  concat (map (fun line => OcrLine.text line ++ [NEWLINE]) lines).

(** A page of which the only text item is a run of 24 spaces. *)
Definition spacesPage : Page.t :=
  Page.mk [TextItem.mk (Some (repeat SPACE 24)) (1, 0, 0, 1, 0, 0)%Q 96]
    (Viewport.mk (1, 0, 0, 1, 0, 0)%Q).


(** A double that is not NaN and is at least 1. *)
Definition atLeastOne (x : double) : bool :=
  match SFcompare (dbl 1) x with
  | Some Lt | Some Eq => true
  | _ => false
  end.

(** What [renderOCRTextLayer] sets on the span of a word at a zoom. *)
Definition spanOfWord (scale : double) (word : Word.t) (span : Span.t)
  : Prop :=
  let b := Word.bbox word in
  Span.classList span = ["ocr-text-span"%string]
  /\ Span.textContent span = Word.text word ++ [SPACE]
  /\ Span.left span = fmul (Bbox.x0 b) scale
  /\ Span.top span = fmul (Bbox.y0 b) scale
  /\ Span.width span = fmul (fsub (Bbox.x1 b) (Bbox.x0 b)) scale
  /\ Span.height span = fmul (fsub (Bbox.y1 b) (Bbox.y0 b)) scale
  /\ (Span.fontSize span = S754_nan \/ atLeastOne (Span.fontSize span) = true).
(** ** Further definitions used to state properties *)



(** Number of entries of a span that carry a box. *)
Definition positioned (entries : list (option CharPos.t)) : nat :=
  length (filter (fun entry => match entry with
                               | Some _ => true
                               | None => false
                               end) entries).

(** The term of the Luhn sum for a digit, doubled or not. *)
Definition luhnTerm (alt : bool) (d : Z) : Z :=
  if alt then luhnDouble d else d.

(** The box that [buildCharMap] gives the character [i] of a run with
    the text [s]. *)
Definition runBox `{Host} (viewport : Viewport.t) (item : TextItem.t)
  (s : jsstring) (i : nat) : CharPos.t :=
  let tx := itemTransform viewport item in
  CharPos.mk
    (m4 tx + TextItem.width item / Qnat (length s) * Qnat i)%Q
    (m5 tx - fontSizeOf tx)%Q
    (TextItem.width item / Qnat (length s))%Q
    (fontSizeOf tx).

(** ** What a reported match is *)

(** [m] reports a match of the pattern [patternName] on the page
    [pageNum] whose text and character map are [fullText] and
    [charMap]: it carries the page and the pattern, its text is a
    non-empty part of the text of the page that passes [validate], and
    its rectangles are those of the span of that part. *)
Definition matchOf (pageNum : nat) (patternName : string)
  (validate : jsstring -> bool) (fullText : jsstring)
  (charMap : list (option CharPos.t)) (m : Match.t) : Prop :=
  Match.pageNum m = pageNum
  /\ Match.pattern m = patternName
  /\ validate (Match.text m) = true
  /\ Match.text m <> []
  /\ exists index lastIndex',
       Match.text m = substring fullText index lastIndex'
       /\ Match.rects m
          = getRectsForRange charMap index (index + length (Match.text m)).

(** [m] reports a match of one of the patterns [patternNames] of the
    table on the page [page], numbered [pageNum]. *)
Definition reportedOn `{Host} (page : Page.t) (pageNum : nat)
  (patternNames : list string) (m : Match.t) : Prop :=
  In (Match.pattern m) patternNames
  /\ exists pattern,
       lookupPattern (Match.pattern m) REDACTION_PATTERNS = Some pattern
       /\ matchOf pageNum (Match.pattern m) (Pattern.validate pattern)
            (fst (buildCharMap (Page.items page) (Page.viewport page)))
            (snd (buildCharMap (Page.items page) (Page.viewport page)))
            m.

(** The page numbers of the matches never decrease along the list. *)
Definition pagesAscend (l : list Match.t) : Prop :=
  forall i j a b,
    i <= j -> nth_error l i = Some a -> nth_error l j = Some b ->
    Match.pageNum a <= Match.pageNum b.

(** The page of the two example runs, and the SSN match that spans
    them. *)
Definition twoRunPage : Page.t := Page.mk [runA; runB] exampleViewport.

Definition spanningMatch : Match.t :=
  Match.mk 1 "ssn" (js "123-45 6789")
    (getRectsForRange
       (snd (buildCharMap (H := browser) [runA; runB] exampleViewport))
       0 11).

(** A pattern name that leads to a search: it is in the table and has a
    regex, its own or, for ['custom'], the supplied one. *)
Definition searchable (customPattern : option jsstring) (name : string)
  : bool :=
  match lookupPattern name REDACTION_PATTERNS with
  | None => false
  | Some pattern =>
      match String.eqb name "custom", truthy customPattern with
      | true, Some _ => true
      | _, _ => match Pattern.regex pattern with
                | Some _ => true
                | None => false
                end
      end
  end.

(** The integers [start], [start + 1], ..., [count] of them. *)
Definition Zseq (start : Z) (count : nat) : list Z :=
  map (fun k => (start + Z.of_nat k)%Z) (seq 0 count).

(* ================================================================= *)

(** ** The lines of a character map *)



(** ** Literal search

    The search of a string as a literal, in the design's words: the text
    of a page is read from left to right; where the string occurs, up to
    the case folding of the search, the occurrence is reported with the
    rectangles of its span, and the reading goes on after it. *)

Section LiteralSearch.
Context `{Host}.

(** The indices of the occurrences of [p] in [txt], which starts at
    [index] of the text of the page; [skip] characters belong to the
    occurrence found last. *)
Fixpoint literalScan (p txt : jsstring) (index skip : nat) : list nat :=
  match txt with
  | [] => []
  | _ :: txt' =>
      match skip with
      | S skip' => literalScan p txt' (S index) skip'
      | O =>
          if ciPrefix p txt
          then index :: literalScan p txt' (S index) (length p - 1)
          else literalScan p txt' (S index) 0
      end
  end.

(** The match reported for the occurrence at [index], if its span has a
    rectangle. *)
Definition literalMatch (p : jsstring) (pageNum : nat)
  (fullText : jsstring) (charMap : list (option CharPos.t)) (index : nat)
  : list Match.t :=
  match getRectsForRange charMap index (index + length p) with
  | [] => []
  | rects =>
      [Match.mk pageNum "custom"
         (substring fullText index (index + length p)) rects]
  end.

Definition literalMatches (p : jsstring) (pageNum : nat)
  (fullText : jsstring) (charMap : list (option CharPos.t))
  : list Match.t :=
  flat_map (literalMatch p pageNum fullText charMap)
    (literalScan p fullText 0 0).

(** The literal search of the pages of a document, numbered from
    [pageNum]. *)
Fixpoint literalSearch (p : jsstring) (pages : list Page.t) (pageNum : nat)
  : list Match.t :=
  match pages with
  | [] => []
  | page :: rest =>
      literalMatches p pageNum
        (fst (buildCharMap (Page.items page) (Page.viewport page)))
        (snd (buildCharMap (Page.items page) (Page.viewport page)))
      ++ literalSearch p rest (S pageNum)
  end.

End LiteralSearch.
(** * Part II: properties *)
(* ================================================================= *)

Unset Implicit Arguments.

(** ** The character map *)

Section CharMapFacts.
Context `{Host}.
Variable viewport : Viewport.t.

Lemma itemChars_length item s :
  length (itemChars viewport item s) = length s.
Proof.
  unfold itemChars. now rewrite length_map, length_seq.
Qed.

Lemma runMap_length item :
  length (runMap viewport item) = length (runText item ++ [SPACE]).
Proof.
  unfold runMap, runText.
  destruct (TextItem.str item) as [s|]; [|reflexivity].
  now rewrite !length_app, itemChars_length.
Qed.

Lemma buildCharMap_step_eq acc item :
  buildCharMap_step viewport acc item
  = (fst acc ++ runText item ++ [SPACE], snd acc ++ runMap viewport item).
Proof.
  destruct acc as [t m]. unfold buildCharMap_step, runText, runMap. simpl.
  destruct (TextItem.str item) as [[|c s]|]; reflexivity.
Qed.

Lemma buildCharMap_fold items : forall acc,
  fold_left (buildCharMap_step viewport) items acc
  = (fst acc ++ indexText items, snd acc ++ flat_map (runMap viewport) items).
Proof.
  induction items as [|item items IH]; intros [t m]; cbn [fold_left].
  - simpl. now rewrite !app_nil_r.
  - rewrite IH, buildCharMap_step_eq. simpl.
    now rewrite <- !app_assoc.
Qed.

Lemma buildCharMap_eq items :
  buildCharMap items viewport = (indexText items, flat_map (runMap viewport) items).
Proof.
  unfold buildCharMap. now rewrite buildCharMap_fold.
Qed.

Lemma flat_runMap_length items :
  length (flat_map (runMap viewport) items) = length (indexText items).
Proof.
  unfold indexText.
  induction items as [|item items IH]; simpl; [reflexivity|].
  rewrite !length_app, IH.
  pose proof (runMap_length item) as E. rewrite length_app in E.
  simpl in *. lia.
Qed.

Lemma indexText_app l1 l2 : indexText (l1 ++ l2) = indexText l1 ++ indexText l2.
Proof. apply flat_map_app. Qed.

Lemma nth_error_middle {A : Type} (l1 l2 : list A) (a : A) :
  nth_error (l1 ++ a :: l2) (length l1) = Some a.
Proof.
  rewrite nth_error_app2 by lia. now rewrite Nat.sub_diag.
Qed.

End CharMapFacts.

(** C1: for every list of text items, the concatenated text and the
    character map returned by [buildCharMap] have the same length. *)
Theorem buildCharMap_lengths `{Host} (items : list TextItem.t)
  (viewport : Viewport.t) :
  length (fst (buildCharMap items viewport))
  = length (snd (buildCharMap items viewport)).
Proof.
  rewrite buildCharMap_eq. simpl. symmetry. apply flat_runMap_length.
Qed.

(** C8: the concatenated text of the index is the concatenation of the
    run texts, each followed by the single separator space, and the
    character map holds the null marker at each separator position. *)
Theorem buildCharMap_text_and_separators `{Host} (viewport : Viewport.t) :
  (forall items, fst (buildCharMap items viewport) = indexText items)
  /\ (forall pre item post,
        let p := length (indexText pre) + length (runText item) in
        nth_error (fst (buildCharMap (pre ++ item :: post) viewport)) p
        = Some SPACE
        /\ nth_error (snd (buildCharMap (pre ++ item :: post) viewport)) p
           = Some None).
Proof.
  split.
  - intros items. now rewrite buildCharMap_eq.
  - intros pre item post p. rewrite buildCharMap_eq. simpl. split.
    + rewrite indexText_app. simpl.
      replace (indexText pre ++ (runText item ++ [SPACE]) ++ indexText post)
        with ((indexText pre ++ runText item) ++ SPACE :: indexText post)
        by (now rewrite <- !app_assoc).
      subst p. rewrite <- length_app. apply nth_error_middle.
    + rewrite flat_map_app. simpl.
      assert (E : exists chars,
                 runMap viewport item = chars ++ [None]
                 /\ length chars = length (runText item)).
      { unfold runMap, runText.
        destruct (TextItem.str item) as [s|].
        - eexists. split; [reflexivity|apply itemChars_length].
        - exists []. now split. }
      destruct E as (chars & -> & L).
      replace (flat_map (runMap viewport) pre ++ (chars ++ [None])
               ++ flat_map (runMap viewport) post)
        with ((flat_map (runMap viewport) pre ++ chars)
              ++ None :: flat_map (runMap viewport) post)
        by (now rewrite <- !app_assoc).
      subst p. rewrite <- (flat_runMap_length viewport pre), <- L, <- length_app.
      apply nth_error_middle.
Qed.

(** ** Rectangle reconstruction *)

Lemma skipn_nth_cons {A : Type} (d : A) (l : list A) : forall s,
  s < length l -> skipn s l = nth s l d :: skipn (S s) l.
Proof.
  induction l as [|a l IH]; intros s Hs; simpl in Hs; [lia|].
  destruct s as [|s]; [reflexivity|].
  simpl. apply IH. lia.
Qed.

Lemma map_nth_seq {A : Type} (d : A) (l : list A) n : forall s,
  s + n <= length l ->
  map (fun i => nth i l d) (seq s n) = firstn n (skipn s l).
Proof.
  induction n as [|n IH]; intros s Hs; [reflexivity|].
  simpl seq. simpl map.
  rewrite (skipn_nth_cons d l) by lia.
  simpl. f_equal. apply IH. lia.
Qed.

Lemma rangeIndices_slice {A : Type} (d : A) (l : list A) s e :
  map (fun i => nth i l d) (rangeIndices (length l) s e) = slice l s e.
Proof.
  unfold rangeIndices, slice.
  destruct (Nat.le_gt_cases s (length l)) as [Hs|Hs].
  - rewrite map_nth_seq by lia.
    destruct (Nat.le_gt_cases e (length l)) as [He|He].
    + now rewrite Nat.min_l by lia.
    + rewrite Nat.min_r by lia.
      rewrite !firstn_all2; trivial; rewrite length_skipn; lia.
  - replace (Nat.min e (length l) - s) with 0 by lia.
    rewrite skipn_all2 by lia. now rewrite firstn_nil.
Qed.

Lemma fold_left_through_map {A B C : Type} (f : A -> B -> A) (g : C -> B)
  (l : list C) : forall a,
  fold_left (fun st i => f st (g i)) l a = fold_left f (map g l) a.
Proof.
  induction l as [|c l IH]; intros a; simpl; [reflexivity|apply IH].
Qed.

Lemma rects_fold_walk entries : forall rects currentRect,
  (let '(rects', currentRect') :=
     fold_left rects_step entries (rects, currentRect) in
   match currentRect' with
   | Some r => rects' ++ [r]
   | None => rects'
   end)
  = rects ++ walkSpec sameLine currentRect entries.
Proof.
  induction entries as [|[p|] entries IH]; intros rects [r|];
    cbn [fold_left rects_step walkSpec].
  - reflexivity.
  - now rewrite app_nil_r.
  - destruct (sameLine p r); rewrite IH; [reflexivity|].
    now rewrite <- app_assoc.
  - now rewrite IH.
  - rewrite IH. now rewrite <- app_assoc.
  - now rewrite IH.
Qed.

Lemma getRectsForRange_walk charMap startIdx endIdx :
  getRectsForRange charMap startIdx endIdx
  = walkSpec sameLine None (slice charMap startIdx endIdx).
Proof.
  pose proof (rects_fold_walk (slice charMap startIdx endIdx) [] None) as E.
  cbn [app] in E. rewrite <- E.
  unfold getRectsForRange.
  now rewrite <- (rangeIndices_slice None), <- fold_left_through_map.
Qed.

Lemma Qlt_bool_iff a b : Qlt_bool a b = true <-> (a < b)%Q.
Proof.
  unfold Qlt_bool. rewrite negb_true_iff.
  split; intros Hab.
  - apply Qnot_le_lt. intros Hle.
    apply Qle_bool_iff in Hle. congruence.
  - destruct (Qle_bool b a) eqn:E; [|reflexivity].
    apply Qle_bool_iff in E. exfalso. now apply (Qlt_not_le a b).
Qed.

Lemma sameLine_iff pos r :
  sameLine pos r = true
  <-> (Qabs (CharPos.y pos - Rect.y r) < CharPos.h pos * (1 # 2))%Q.
Proof. apply Qlt_bool_iff. Qed.











Lemma walkSpec_all_null test entries :
  Forall (fun entry => entry = None) entries ->
  walkSpec test None entries = [].
Proof.
  induction 1 as [|entry entries -> _ IH]; [reflexivity|exact IH].
Qed.

Lemma slice_two_runs {A : Type} (P A1 A2 R : list A) (sep : A) s e :
  length P <= s -> s < length P + length A1 ->
  length P + length A1 + 1 < e ->
  e <= length P + length A1 + 1 + length A2 ->
  slice (P ++ (A1 ++ [sep]) ++ (A2 ++ [sep]) ++ R) s e
  = skipn (s - length P) A1
    ++ sep :: firstn (e - (length P + length A1 + 1)) A2.
Proof.
  intros H1 H2 H3 H4. unfold slice.
  rewrite skipn_app, (skipn_all2 P) by lia. cbn [app].
  rewrite skipn_app, skipn_app, length_app. cbn [length].
  replace (s - length P - (length A1 + 1)) with 0 by lia.
  replace (s - length P - length A1) with 0 by lia.
  cbn [skipn].
  rewrite <- !app_assoc.
  rewrite firstn_app, length_skipn.
  rewrite firstn_all2 by (rewrite length_skipn; lia).
  f_equal.
  replace (e - s - (length A1 - (s - length P)))
    with (S (e - (length P + length A1 + 1))) by lia.
  cbn [app firstn]. f_equal.
  rewrite firstn_app.
  replace (e - (length P + length A1 + 1) - length A2) with 0 by lia.
  cbn [firstn]. now rewrite app_nil_r.
Qed.

Lemma Forall_skipn {A : Type} (P : A -> Prop) (l : list A) : forall n,
  Forall P l -> Forall P (skipn n l).
Proof.
  induction l as [|a l IH]; intros [|n] Hl; simpl; trivial.
  apply IH. now inversion Hl.
Qed.

Lemma Forall_firstn {A : Type} (P : A -> Prop) (l : list A) : forall n,
  Forall P l -> Forall P (firstn n l).
Proof.
  induction l as [|a l IH]; intros [|n] Hl; simpl; trivial.
  inversion Hl; subst. constructor; auto.
Qed.

Lemma sameLine_aligned p r :
  alignedWith (Rect.y r) p -> sameLine p r = true.
Proof.
  intros [Ey Hh]. apply sameLine_iff. rewrite Ey.
  setoid_replace (Rect.y r - Rect.y r)%Q with 0%Q by ring.
  simpl Qabs.
  setoid_replace 0%Q with (0 * (1 # 2))%Q at 1 by ring.
  apply Qmult_lt_compat_r; [reflexivity|assumption].
Qed.

Lemma walk_aligned_run seg : forall r rest,
  Forall (alignedWith (Rect.y r)) seg ->
  exists r', Rect.y r' = Rect.y r
             /\ walkSpec sameLine (Some r) (map Some seg ++ rest)
                = walkSpec sameLine (Some r') rest.
Proof.
  induction seg as [|p seg IH]; intros r rest Hseg.
  - exists r. now split.
  - inversion Hseg as [|? ? Hp Hseg']; subst.
    cbn [map app walkSpec]. rewrite (sameLine_aligned p r Hp).
    destruct (IH (extendRect r p) rest Hseg') as (r' & Ey & E).
    exists r'. now split.
Qed.

Lemma walk_two_segments y1 y2 seg1 seg2 :
  seg1 <> [] -> seg2 <> [] ->
  Forall (alignedWith y1) seg1 -> Forall (alignedWith y2) seg2 ->
  length (walkSpec sameLine None (map Some seg1 ++ None :: map Some seg2))
  = 2.
Proof.
  intros N1 N2 F1 F2.
  destruct seg1 as [|p seg1]; [congruence|].
  destruct seg2 as [|q seg2]; [congruence|].
  inversion F1 as [|? ? [Ep Hp] F1']; subst.
  inversion F2 as [|? ? [Eq Hq] F2']; subst.
  cbn [map app walkSpec].
  destruct (walk_aligned_run seg1 (rectOf p) (None :: Some q :: map Some seg2) F1')
    as (r1 & _ & ->).
  cbn [map walkSpec].
  pose proof (walk_aligned_run seg2 (rectOf q) [] F2') as (r2 & _ & E).
  rewrite app_nil_r in E. now rewrite E.
Qed.

Section TwoRuns.
Context `{Host}.
Variable viewport : Viewport.t.

Lemma itemChars_boxes item s :
  itemChars viewport item s = map Some (itemBoxes viewport item s).
Proof.
  unfold itemChars, itemBoxes. now rewrite map_map.
Qed.

Lemma itemBoxes_length item s : length (itemBoxes viewport item s) = length s.
Proof. unfold itemBoxes. now rewrite length_map, length_seq. Qed.

Lemma itemBoxes_aligned item s :
  (0 < itemFontSize viewport item)%Q ->
  Forall (alignedWith (m5 (itemTransform viewport item)
                       - itemFontSize viewport item)%Q)
         (itemBoxes viewport item s).
Proof.
  intros Hf. unfold itemBoxes. apply Forall_forall.
  intros p Hp. apply in_map_iff in Hp. destruct Hp as (i & <- & _).
  split; [reflexivity|exact Hf].
Qed.

End TwoRuns.

(** C2, as the code has it: a span that covers characters of two
    consecutive runs of positive font size yields exactly two
    rectangles, wherever the two runs lie (on one line or on two): the
    null separator after the first run closes the open rectangle. *)
Theorem two_runs_two_rects `{Host} (viewport : Viewport.t)
  (pre post : list TextItem.t) (it1 it2 : TextItem.t) (s1 s2 : jsstring)
  (startIdx endIdx : nat) :
  TextItem.str it1 = Some s1 ->
  TextItem.str it2 = Some s2 ->
  (0 < itemFontSize viewport it1)%Q ->
  (0 < itemFontSize viewport it2)%Q ->
  length (indexText pre) <= startIdx < length (indexText pre) + length s1 ->
  length (indexText pre) + length s1 + 1 < endIdx
    <= length (indexText pre) + length s1 + 1 + length s2 ->
  length (getRectsForRange
            (snd (buildCharMap (pre ++ it1 :: it2 :: post) viewport))
            startIdx endIdx)
  = 2.
Proof.
  intros E1 E2 F1 F2 [Hs1 Hs2] [He1 He2].
  rewrite buildCharMap_eq, getRectsForRange_walk. cbn [snd].
  rewrite flat_map_app. cbn [flat_map].
  unfold runMap at 2 3. rewrite E1, E2, !itemChars_boxes.
  pose proof (flat_runMap_length viewport pre) as Lpre.
  pose proof (itemBoxes_length viewport it1 s1) as L1.
  pose proof (itemBoxes_length viewport it2 s2) as L2.
  set (P := flat_map (runMap viewport) pre) in *.
  set (B1 := itemBoxes viewport it1 s1) in *.
  set (B2 := itemBoxes viewport it2 s2) in *.
  rewrite slice_two_runs by (rewrite ?length_map; lia).
  rewrite skipn_map, firstn_map, !length_map.
  apply walk_two_segments
    with (y1 := (m5 (itemTransform viewport it1) - itemFontSize viewport it1)%Q)
         (y2 := (m5 (itemTransform viewport it2) - itemFontSize viewport it2)%Q).
  - intros N. apply (f_equal (@length _)) in N.
    rewrite length_skipn in N. simpl in N. lia.
  - intros N. apply (f_equal (@length _)) in N.
    rewrite length_firstn in N. simpl in N. lia.
  - apply Forall_skipn, itemBoxes_aligned, F1.
  - apply Forall_firstn, itemBoxes_aligned, F2.
Qed.

(** The two runs ["123-45"] and ["6789"] of the examples. *)
Lemma two_runs_two_rects_witness :
  TextItem.str runA = Some (js "123-45")
  /\ TextItem.str runB = Some (js "6789")
  /\ (0 < itemFontSize (H := browser) exampleViewport runA)%Q
  /\ (0 < itemFontSize (H := browser) exampleViewport runB)%Q
  /\ length
       (getRectsForRange
          (snd (buildCharMap (H := browser) ([] ++ runA :: runB :: [])
                  exampleViewport)) 0 11)
     = 2.
Proof.
  do 4 (split; [reflexivity|]).
  apply (two_runs_two_rects (H := browser) exampleViewport [] [] runA runB
           (js "123-45") (js "6789") 0 11);
    [reflexivity | reflexivity | reflexivity | reflexivity
    | cbn; lia | cbn; lia].
Defined.

(** C2, as stated, fails: the SSN match ["123-45 6789"] spans the two
    runs, which lie on one line (same top edge 80, same height 12), and
    has two rectangles, not one. *)
Lemma same_line_runs_counterexample :
  forallb (onLine 80 12)
    (snd (buildCharMap (H := browser) [runA; runB] exampleViewport)) = true
  /\ exec (H := browser) ssn_regex
       (fst (buildCharMap (H := browser) [runA; runB] exampleViewport)) 0
     = Some (0, 11)
  /\ length
       (getRectsForRange
          (snd (buildCharMap (H := browser) [runA; runB] exampleViewport))
          0 11) = 2
  /\ length
       (getRectsForRange
          (snd (buildCharMap (H := browser) [runA; runB] exampleViewport))
          0 11) <> 1.
Proof.
  repeat split; try reflexivity. vm_compute. discriminate.
Qed.

(** ** Validators *)

Lemma isDigit_range c : isDigit c = true <-> (48 <= c <= 57)%N.
Proof.
  unfold isDigit. rewrite andb_true_iff, !N.leb_le. tauto.
Qed.

Lemma isDigit_not_separator c : isDigit c = true -> isSeparator c = false.
Proof.
  intros Hc. apply isDigit_range in Hc.
  assert (E : exists n, n < 10 /\ c = (48 + N.of_nat n)%N).
  { exists (N.to_nat (c - 48)). split; lia. }
  destruct E as (n & Hn & ->).
  do 10 (destruct n as [|n]; [reflexivity|]). lia.
Qed.

Lemma strip_digits s :
  forallb isDigit s = true -> stripSeparators s = s.
Proof.
  unfold stripSeparators.
  induction s as [|c s IH]; simpl; [reflexivity|].
  intros Hs. apply andb_true_iff in Hs as [Hc Hs].
  rewrite (isDigit_not_separator c Hc). simpl. now rewrite IH.
Qed.

Lemma strip_app s t :
  stripSeparators (s ++ t) = stripSeparators s ++ stripSeparators t.
Proof. apply filter_app. Qed.

Lemma strip_optionalSeparator s :
  optionalSeparator s -> stripSeparators s = [].
Proof.
  intros [->|(c & -> & Hc)]; [reflexivity|].
  unfold stripSeparators. simpl. now rewrite Hc.
Qed.

Lemma str_eqb_eq s : forall t, str_eqb s t = true <-> s = t.
Proof.
  induction s as [|a s IH]; intros [|b t]; simpl; split;
    try congruence; try reflexivity.
  - intros E. apply andb_true_iff in E as [E1 E2].
    apply N.eqb_eq in E1. apply IH in E2. congruence.
  - intros E. inversion E; subst. rewrite N.eqb_refl. simpl. now apply IH.
Qed.

Lemma str_eqb_neq s t : str_eqb s t = false <-> s <> t.
Proof.
  rewrite <- str_eqb_eq. destruct (str_eqb s t); split; congruence.
Qed.

Lemma trimStart_digit c s :
  isDigit c = true -> trimStart (c :: s) = c :: s.
Proof.
  intros Hc. simpl.
  pose proof (isDigit_not_separator c Hc) as Hs.
  unfold isSeparator in Hs. apply orb_false_iff in Hs as [_ ->].
  reflexivity.
Qed.

Lemma digitValue_digit c :
  isDigit c = true -> digitValue c = Some (Z.of_N c - 48)%Z.
Proof.
  intros Hc. unfold digitValue. unfold isDigit in Hc. now rewrite Hc.
Qed.

Lemma digit_bounds c :
  isDigit c = true -> (0 <= Z.of_N c - 48 <= 9)%Z.
Proof. intros Hc. apply isDigit_range in Hc. lia. Qed.

(** [parseInt] of three decimal digits, without a radix. *)
Lemma parseInt_three_digits c1 c2 c3 :
  isDigit c1 = true -> isDigit c2 = true -> isDigit c3 = true ->
  parseInt [c1; c2; c3] None = Some (decimalValue [c1; c2; c3]).
Proof.
  intros H1 H2 H3. unfold parseInt.
  rewrite (trimStart_digit c1 _ H1).
  pose proof (proj1 (isDigit_range c1) H1) as R1.
  pose proof (proj1 (isDigit_range c2) H2) as R2.
  replace (c1 =? 45)%N with false by (symmetry; apply N.eqb_neq; lia).
  replace (c1 =? 43)%N with false by (symmetry; apply N.eqb_neq; lia).
  replace ((c2 =? 120) || (c2 =? 88))%N with false
    by (symmetry; apply orb_false_iff; split; apply N.eqb_neq; lia).
  rewrite andb_false_r.
  cbn [parseDigits].
  rewrite (digitValue_digit c1 H1), (digitValue_digit c2 H2),
    (digitValue_digit c3 H3).
  pose proof (digit_bounds c1 H1). pose proof (digit_bounds c2 H2).
  pose proof (digit_bounds c3 H3).
  replace (Z.of_N c1 - 48 <? 10)%Z with true by (symmetry; apply Z.ltb_lt; lia).
  replace (Z.of_N c2 - 48 <? 10)%Z with true by (symmetry; apply Z.ltb_lt; lia).
  replace (Z.of_N c3 - 48 <? 10)%Z with true by (symmetry; apply Z.ltb_lt; lia).
  unfold decimalValue. cbn [fold_left]. f_equal. lia.
Qed.

Lemma allDigits_3 s :
  allDigits 3 s ->
  exists c1 c2 c3, s = [c1; c2; c3]
    /\ isDigit c1 = true /\ isDigit c2 = true /\ isDigit c3 = true.
Proof.
  intros [L D]. destruct s as [|c1 [|c2 [|c3 [|? ?]]]]; try discriminate.
  simpl in D. rewrite !andb_true_iff in D.
  exists c1, c2, c3. tauto.
Qed.

Lemma ssn_validate_digits area group serial :
  allDigits 3 area -> allDigits 2 group -> allDigits 4 serial ->
  ssn_validate (area ++ group ++ serial) = true
  <-> ssnRule area group serial.
Proof.
  intros Ha Hg Hn.
  destruct (allDigits_3 area Ha) as (c1 & c2 & c3 & -> & D1 & D2 & D3).
  destruct Hg as [Lg Dg]. destruct Hn as [Ln Dn].
  destruct group as [|g1 [|g2 [|? ?]]]; try discriminate.
  destruct serial as [|n1 [|n2 [|n3 [|n4 [|? ?]]]]]; try discriminate.
  unfold ssn_validate.
  rewrite strip_digits
    by (rewrite !forallb_app, Dg, Dn; simpl; now rewrite D1, D2, D3).
  cbn [app length Nat.eqb negb substring substring_from skipn firstn Nat.sub].
  rewrite (parseInt_three_digits c1 c2 c3 D1 D2 D3).
  unfold ssnRule.
  set (a := decimalValue [c1; c2; c3]).
  assert (Ra : (0 <= a <= 999)%Z).
  { subst a. unfold decimalValue. cbn [fold_left].
    pose proof (digit_bounds c1 D1). pose proof (digit_bounds c2 D2).
    pose proof (digit_bounds c3 D3). lia. }
  cbn [num_eq num_ge].
  destruct (a =? 0)%Z eqn:E0; cbn [orb].
  { apply Z.eqb_eq in E0. split; [discriminate|]. tauto. }
  destruct (a =? 666)%Z eqn:E6; cbn [orb].
  { apply Z.eqb_eq in E6. split; [discriminate|]. tauto. }
  destruct (900 <=? a)%Z eqn:E9.
  { apply Z.leb_le in E9. split; [discriminate|].
    intros (_ & _ & N & _). exfalso. apply N. lia. }
  apply Z.eqb_neq in E0, E6. apply Z.leb_gt in E9.
  destruct (str_eqb [g1; g2] (js "00")) eqn:Eg.
  { apply str_eqb_eq in Eg. split; [discriminate|]. tauto. }
  destruct (str_eqb [n1; n2; n3; n4] (js "0000")) eqn:En.
  { apply str_eqb_eq in En. split; [discriminate|]. tauto. }
  apply str_eqb_neq in Eg, En.
  split; [intros _|reflexivity].
  repeat split; trivial. lia.
Qed.


Lemma parseInt_one_digit c :
  isDigit c = true -> parseInt [c] (Some 10%Z) = Some (digitOf c).
Proof.
  intros Hc. unfold parseInt. rewrite (trimStart_digit c [] Hc).
  pose proof (proj1 (isDigit_range c) Hc) as R.
  replace (c =? 45)%N with false by (symmetry; apply N.eqb_neq; lia).
  replace (c =? 43)%N with false by (symmetry; apply N.eqb_neq; lia).
  cbn [parseDigits]. rewrite (digitValue_digit c Hc).
  pose proof (digit_bounds c Hc).
  replace (Z.of_N c - 48 <? 10)%Z with true by (symmetry; apply Z.ltb_lt; lia).
  unfold digitOf. f_equal. lia.
Qed.

Lemma luhnSum_altSum l :
  luhnSum l = altSum false l
  /\ (forall d, luhnSum (d :: l) = altSum false (d :: l)).
Proof.
  induction l as [|a l [IH1 IH2]].
  - split; [reflexivity|]. intros d. simpl. lia.
  - split; [apply IH2|].
    intros d. cbn [luhnSum altSum negb]. rewrite IH1. lia.
Qed.

Lemma altSum_nonneg l : forall alt,
  Forall (fun d => 0 <= d <= 9)%Z l -> (0 <= altSum alt l)%Z.
Proof.
  induction l as [|d l IH]; intros alt Hl; simpl; [lia|].
  inversion Hl as [|? ? Hd Hl']; subst.
  specialize (IH (negb alt) Hl').
  destruct alt; unfold luhnDouble; [destruct (9 <? 2 * d)%Z eqn:E|]; lia.
Qed.

Lemma digits_Forall s :
  forallb isDigit s = true ->
  Forall (fun d => 0 <= d <= 9)%Z (map digitOf s).
Proof.
  intros Hs. apply Forall_forall. intros d Hd.
  apply in_map_iff in Hd as (c & <- & Hc).
  apply digit_bounds. now apply (proj1 (forallb_forall _ _) Hs).
Qed.

Lemma luhnLoop_digits num : forallb isDigit num = true ->
  forall k sum alt, k <= length num ->
  luhnLoop num k (Some sum) alt
  = Some (sum + altSum alt (rev (map digitOf (firstn k num))))%Z.
Proof.
  intros Hnum. induction k as [|i IH]; intros sum alt Hk.
  - simpl. f_equal. lia.
  - destruct (nth_error num i) as [c|] eqn:Ec;
      [|apply nth_error_None in Ec; lia].
    assert (Hc : isDigit c = true).
    { apply (proj1 (forallb_forall _ _) Hnum). eapply nth_error_In, Ec. }
    assert (F : firstn (S i) num = firstn i num ++ [c]).
    { clear - Ec. revert i Ec.
      induction num as [|a num IHn]; intros [|i] Ec; simpl in *;
        try discriminate.
      - now inversion Ec.
      - f_equal. now apply IHn. }
    rewrite F, map_app, rev_app_distr. cbn [map rev app altSum].
    cbn [luhnLoop]. unfold charAt. rewrite Ec, (parseInt_one_digit c Hc).
    pose proof (digit_bounds c Hc) as B. fold (digitOf c) in B.
    destruct alt; cbn [num_mul num_gt num_sub num_add negb].
    + unfold luhnDouble at 1.
      replace (9 <? digitOf c * 2)%Z with (9 <? 2 * digitOf c)%Z
        by (f_equal; lia).
      destruct (9 <? 2 * digitOf c)%Z; cbn [num_add];
        rewrite IH by lia; f_equal; lia.
    + rewrite IH by lia. f_equal. lia.
Qed.

Lemma luhnCheck_digits digits :
  forallb isDigit digits = true ->
  luhnCheck digits = true <-> luhnValid digits.
Proof.
  intros Hd. unfold luhnCheck, luhnValid.
  rewrite (luhnLoop_digits digits Hd) by lia.
  rewrite firstn_all. cbn [num_rem num_eq]. rewrite Z.add_0_l.
  rewrite (proj1 (luhnSum_altSum _)).
  rewrite Z.rem_mod_nonneg;
    [apply Z.eqb_eq | apply altSum_nonneg, Forall_rev, digits_Forall, Hd | lia].
Qed.


(** ** OCR word boxes *)

Lemma ocrLine_words acc line :
  fst (fst (ocrLine acc line))
  = fst (fst acc) ++ map convertWord (lineWords line).
Proof.
  destruct acc as [[ws ls] t]. unfold ocrLine, lineWords.
  destruct (Line.words line); simpl; [reflexivity|now rewrite app_nil_r].
Qed.

Lemma ocrParagraph_words para : forall acc,
  fst (fst (ocrParagraph acc para))
  = fst (fst acc) ++ map convertWord (paragraphWords para).
Proof.
  unfold ocrParagraph, paragraphWords.
  destruct (Paragraph.lines para) as [ls|];
    [|intros acc; simpl; now rewrite app_nil_r].
  induction ls as [|l ls IH]; intros acc; simpl.
  - now rewrite app_nil_r.
  - rewrite IH, ocrLine_words, map_app. now rewrite app_assoc.
Qed.

Lemma ocrBlock_words block : forall acc,
  fst (fst (ocrBlock acc block))
  = fst (fst acc) ++ map convertWord (blockWords block).
Proof.
  unfold ocrBlock, blockWords.
  destruct (Block.paragraphs block) as [ps|];
    [|intros acc; simpl; now rewrite app_nil_r].
  induction ps as [|p ps IH]; intros acc; simpl.
  - now rewrite app_nil_r.
  - rewrite IH, ocrParagraph_words, map_app. now rewrite app_assoc.
Qed.

Lemma ocrBlocks_words bs : forall acc,
  fst (fst (fold_left ocrBlock bs acc))
  = fst (fst acc) ++ map convertWord (flat_map blockWords bs).
Proof.
  induction bs as [|b bs IH]; intros acc; simpl.
  - now rewrite app_nil_r.
  - rewrite IH, ocrBlock_words, map_app. now rewrite app_assoc.
Qed.

Lemma ocrPageResult_words data pageHeight :
  OcrPage.words (ocrPageResult data pageHeight)
  = map convertWord (dataWords data).
Proof.
  unfold ocrPageResult, dataWords.
  destruct (OcrData.blocks data) as [bs|]; [|reflexivity].
  pose proof (ocrBlocks_words bs ([], [], [])) as E.
  destruct (fold_left ocrBlock bs ([], [], [])) as [[ws ls] t].
  exact E.
Qed.

(** *** Rounding of the division and of the subtraction

    The operations of [SpecFloat] round to the nearest double. What
    follows bounds the rounding error of a division by [SCALE_FACTOR]
    and of a subtraction, from the definitions of the operations. *)

Open Scope Z_scope.

Lemma digits2_size p : digits2_pos p = Pos.size p.
Proof. induction p; cbn; congruence. Qed.

(** The number of binary digits. *)
Lemma Zdigits2_log2 m : 0 < m -> Zdigits2 m = Z.log2 m + 1.
Proof.
  destruct m as [|p|p]; try lia. intros _. cbn [Zdigits2].
  rewrite digits2_size. destruct p; cbn [Z.log2 Pos.size]; lia.
Qed.

Lemma Zdigits2_bounds m :
  0 < m -> 2 ^ (Zdigits2 m - 1) <= m < 2 ^ Zdigits2 m.
Proof.
  intros Pm. rewrite Zdigits2_log2 by exact Pm.
  pose proof (Z.log2_spec m Pm) as S.
  replace (Z.log2 m + 1 - 1) with (Z.log2 m) by lia.
  replace (Z.log2 m + 1) with (Z.succ (Z.log2 m)) by lia. exact S.
Qed.

Lemma Zdigits2_nonneg m : 0 <= Zdigits2 m.
Proof. destruct m; cbn; lia. Qed.

Lemma Zdigits2_le m d : 0 <= d -> 0 <= m < 2 ^ d -> Zdigits2 m <= d.
Proof.
  intros D [L U]. destruct (Z.eq_dec m 0) as [->|N]; [cbn; lia|].
  rewrite Zdigits2_log2 by lia.
  assert (Z.log2 m < d) by (apply Z.log2_lt_pow2; lia). lia.
Qed.

(** Shifting a significand to the right halves it. *)
Lemma shr_1_m r : 0 <= shr_m r -> shr_m (shr_1 r) = shr_m r / 2.
Proof.
  destruct r as [m b s]. cbn [shr_m shr_1]. intros Pm.
  destruct m as [|[p|p|]|p]; cbn [shr_m]; try lia;
    now rewrite <- Z.div2_div.
Qed.

Lemma iter_pos_nat {A : Type} (f : A -> A) p : forall x,
  iter_pos f p x = Nat.iter (Pos.to_nat p) f x.
Proof.
  induction p as [p IH|p IH|]; intros x; cbn [iter_pos].
  - rewrite !IH, Pos2Nat.inj_xI.
    replace (S (2 * Pos.to_nat p))%nat
      with (Pos.to_nat p + (Pos.to_nat p + 1))%nat by lia.
    rewrite !Nat.iter_add. reflexivity.
  - rewrite !IH, Pos2Nat.inj_xO.
    replace (2 * Pos.to_nat p)%nat with (Pos.to_nat p + Pos.to_nat p)%nat
      by lia.
    now rewrite Nat.iter_add.
  - reflexivity.
Qed.

Lemma iter_shr_1 n : forall r,
  0 <= shr_m r ->
  shr_m (Nat.iter n shr_1 r) = shr_m r / 2 ^ Z.of_nat n.
Proof.
  induction n as [|n IH]; intros r Pm.
  - cbn. now rewrite Z.div_1_r.
  - rewrite Nat.iter_succ, shr_1_m.
    + rewrite IH by exact Pm. rewrite Nat2Z.inj_succ, Z.pow_succ_r by lia.
      rewrite Z.div_div by lia. f_equal. lia.
    + rewrite IH by exact Pm. apply Z.div_pos; lia.
Qed.

Lemma shr_record_of_loc_m m l : shr_m (shr_record_of_loc m l) = m.
Proof. destruct l as [|[ | | ]]; reflexivity. Qed.

(** The truncation before rounding: the significand loses the digits
    beyond the 53rd, away from the subnormal range. *)
Lemma shr_fexp_spec m e l :
  0 <= m -> -1074 <= e ->
  exists r,
    shr_fexp 53 1024 m e l = (r, e + Z.max 0 (Zdigits2 m - 53))
    /\ shr_m r = m / 2 ^ Z.max 0 (Zdigits2 m - 53).
Proof.
  intros Pm E. unfold shr_fexp, fexp, emin, shr.
  pose proof (Zdigits2_nonneg m) as D.
  destruct (Z.max (Zdigits2 m + e - 53) (3 - 1024 - 53) - e) as [|p|p] eqn:N.
  - eexists. split.
    + f_equal. lia.
    + rewrite shr_record_of_loc_m. replace (Z.max 0 _) with 0 by lia.
      now rewrite Z.div_1_r.
  - eexists. split.
    + f_equal. lia.
    + rewrite iter_pos_nat, iter_shr_1
        by (rewrite shr_record_of_loc_m; exact Pm).
      rewrite shr_record_of_loc_m. f_equal. f_equal. lia.
  - eexists. split.
    + f_equal. lia.
    + rewrite shr_record_of_loc_m. replace (Z.max 0 _) with 0 by lia.
      now rewrite Z.div_1_r.
Qed.

(** Rounding to nearest moves a truncated significand by one at most. *)
Lemma round_nearest_even_bounds m l :
  m <= round_nearest_even m l <= m + 1.
Proof.
  destruct l as [|[ | | ]]; cbn [round_nearest_even]; try lia.
  destruct (Z.even m); lia.
Qed.

(** The rounding of a significand: a bound that does not look at the
    rounding mode. *)
Lemma round_aux_spec sx mx ex lx :
  0 <= mx -> -1074 <= ex ->
  let k := Z.max 0 (Zdigits2 mx - 53) in
  ex + k + 1 <= 971 ->
  exists m2 k2,
    binary_round_aux 53 1024 sx mx ex lx
    = match m2 with
      | Z0 => S754_zero sx
      | Zpos p => S754_finite sx p (ex + k2)
      | Zneg _ => S754_nan
      end
    /\ 0 <= m2 /\ k <= k2 <= k + 1
    /\ mx - 3 * 2 ^ k < m2 * 2 ^ k2 <= mx + 2 ^ k.
Proof.
  intros Pm E k B. unfold binary_round_aux.
  destruct (shr_fexp_spec mx ex lx Pm E) as (r1 & -> & M1). fold k in M1 |- *.
  set (m1 := round_nearest_even (shr_m r1) (loc_of_shr_record r1)).
  assert (K0 : 0 <= k) by lia.
  assert (Q1 : 0 <= shr_m r1) by (rewrite M1; apply Z.div_pos; lia).
  pose proof (round_nearest_even_bounds (shr_m r1) (loc_of_shr_record r1))
    as R1. fold m1 in R1.
  assert (U1 : shr_m r1 < 2 ^ 53).
  { rewrite M1. destruct (Z.eq_dec mx 0) as [->|N0]; [now rewrite Z.div_0_l by lia|].
    pose proof (Zdigits2_bounds mx ltac:(lia)) as Bd.
    apply Z.div_lt_upper_bound; [lia|].
    rewrite <- Z.pow_add_r by lia.
    eapply Z.lt_le_trans; [apply Bd|]. apply Z.pow_le_mono_r; lia. }
  assert (D1 : Zdigits2 m1 <= 54) by (apply Zdigits2_le; lia).
  destruct (shr_fexp_spec m1 (ex + k) loc_Exact ltac:(lia) ltac:(lia))
    as (r2 & -> & M2).
  set (n2 := Z.max 0 (Zdigits2 m1 - 53)) in *.
  assert (N2 : 0 <= n2 <= 1) by lia.
  exists (shr_m r2), (k + n2).
  assert (Q2 : 0 <= shr_m r2) by (rewrite M2; apply Z.div_pos; lia).
  split; [|split; [exact Q2|split; [lia|]]].
  - destruct (shr_m r2) as [|p|p]; [reflexivity| |lia].
    replace (ex + k + n2 <=? 1024 - 53) with true
      by (symmetry; apply Z.leb_le; lia).
    f_equal. lia.
  - (* mx / 2^k * 2^k in (mx - 2^k, mx] *)
    pose proof (Z.div_mod mx (2 ^ k) ltac:(lia)) as Dm.
    pose proof (Z.mod_pos_bound mx (2 ^ k) ltac:(lia)) as Bm.
    pose proof (Z.div_mod m1 (2 ^ n2) ltac:(lia)) as Dm2.
    pose proof (Z.mod_pos_bound m1 (2 ^ n2) ltac:(lia)) as Bm2.
    rewrite <- M1 in Dm. rewrite <- M2 in Dm2.
    rewrite Z.pow_add_r by lia.
    assert (P2 : 1 <= 2 ^ n2 <= 2).
    { destruct (Z.eq_dec n2 0) as [->|]; [cbn; lia|].
      replace n2 with 1 by lia. cbn. lia. }
    assert (Pk : 0 < 2 ^ k) by lia.
    nia.
Qed.

Lemma SCALE_FACTOR_eq : SCALE_FACTOR = S754_finite false 4691249611844267 (-50).
Proof. vm_compute. reflexivity. Qed.

(** The integer division behind a division by [SCALE_FACTOR]: the
    quotient, its exponent, and its size for a dividend below [2^17]. *)
Lemma div_core_S mx ex :
  0 < mx -> -1074 <= ex -> Zdigits2 mx + ex <= 17 ->
  exists q e' l,
    SFdiv_core_binary 53 1024 mx ex SCALE_MANTISSA (-50) = (q, e', l)
    /\ 0 <= q /\ -1074 <= e' <= ex + 50
    /\ q * SCALE_MANTISSA <= mx * 2 ^ (ex + 50 - e') < (q + 1) * SCALE_MANTISSA
    /\ e' + Z.max 0 (Zdigits2 q - 53) <= -38
    /\ q < 2 ^ (15 - e').
Proof.
  intros Px E D. unfold SFdiv_core_binary.
  change (Zdigits2 SCALE_MANTISSA) with 53.
  set (e' := Z.min (fexp 53 1024 (Zdigits2 mx + ex - (53 + -50)))
               (ex - -50)).
  assert (E' : -1074 <= e' <= ex + 50 /\ e' <= Z.max (Zdigits2 mx + ex - 56) (-1074)).
  { unfold e', fexp, emin. lia. }
  set (s := ex - -50 - e').
  assert (S0 : 0 <= s) by (unfold s; lia).
  set (m' := match s with
             | 0 => mx
             | Z.pos _ => Z.shiftl mx s
             | Z.neg _ => 0
             end).
  assert (M' : m' = mx * 2 ^ s).
  { unfold m'. destruct s as [|p|p] eqn:Es; [cbn; lia| |lia].
    now rewrite Z.shiftl_mul_pow2 by lia. }
  pose proof (Z.div_eucl_eq m' SCALE_MANTISSA ltac:(unfold SCALE_MANTISSA; lia)) as Q.
  pose proof (Z.mod_pos_bound m' SCALE_MANTISSA ltac:(unfold SCALE_MANTISSA; lia)) as R.
  unfold Z.modulo in R.
  destruct (Z.div_eucl m' SCALE_MANTISSA) as [q r].
  exists q, e', (new_location SCALE_MANTISSA r). split; [reflexivity|].
  replace (ex + 50 - e') with s by (unfold s; lia). rewrite <- M'.
  assert (Pm : 0 < m') by (rewrite M'; apply Z.mul_pos_pos; lia).
  assert (Q0 : 0 <= q) by (unfold SCALE_MANTISSA in *; nia).
  pose proof (Zdigits2_bounds mx Px) as Bx.
  assert (Um : m' < 2 ^ (Zdigits2 mx + s)).
  { rewrite M', Z.pow_add_r by (pose proof (Zdigits2_nonneg mx); lia).
    apply Z.mul_lt_mono_pos_r; lia. }
  assert (Uq : q * 2 ^ 52 < 2 ^ (Zdigits2 mx + s)).
  { eapply Z.le_lt_trans; [|exact Um].
    transitivity (q * SCALE_MANTISSA); [apply Z.mul_le_mono_nonneg_l; [lia|unfold SCALE_MANTISSA; lia]|].
    unfold SCALE_MANTISSA in *. lia. }
  split; [exact Q0|]. split; [lia|]. split; [unfold SCALE_MANTISSA in *; lia|].
  pose proof (Zdigits2_nonneg mx) as Dn.
  assert (T : Zdigits2 mx + s = Zdigits2 mx + ex + 50 - e') by (unfold s; lia).
  split.
  - (* digits of q *)
    destruct (Z_le_gt_dec (Zdigits2 mx + s - 52) 0) as [Le|Gt].
    + (* q = 0 *)
      assert (q = 0).
      { assert (2 ^ (Zdigits2 mx + s) <= 2 ^ 52)
          by (apply Z.pow_le_mono_r; lia). nia. }
      subst q. cbn [Zdigits2]. lia.
    + assert (Zdigits2 q <= Zdigits2 mx + s - 52).
      { apply Zdigits2_le; [lia|]. split; [exact Q0|].
        apply Z.mul_lt_mono_pos_r with (p := 2 ^ 52); [lia|].
        rewrite <- Z.pow_add_r by lia.
        now replace (Zdigits2 mx + s - 52 + 52) with (Zdigits2 mx + s) by lia. }
      lia.
  - (* q < 2^(15 - e') *)
    apply Z.mul_lt_mono_pos_r with (p := 2 ^ 52); [lia|].
    rewrite <- Z.pow_add_r by lia.
    eapply Z.lt_le_trans; [exact Uq|]. apply Z.pow_le_mono_r; lia.
Qed.

Open Scope Q_scope.

Lemma pow2_pos e : 0 < pow2 e.
Proof. apply Qpower_0_lt. reflexivity. Qed.

Lemma pow2_add a b : pow2 (a + b) == pow2 a * pow2 b.
Proof. unfold pow2. apply Qpower_plus. discriminate. Qed.

Lemma pow2_inj k : (0 <= k)%Z -> inject_Z (2 ^ k) == pow2 k.
Proof. intros K. unfold pow2. now rewrite Zpower_Qpower. Qed.

Lemma pow2_le a b : (a <= b)%Z -> pow2 a <= pow2 b.
Proof. intros L. apply Qpower_le_compat_l; [exact L|discriminate]. Qed.

Lemma scaled_scale m k e : (0 <= k)%Z -> scaled (m * 2 ^ k) e == scaled m (e + k).
Proof.
  intros K. unfold scaled. rewrite inject_Z_mult, pow2_inj, pow2_add by exact K. ring.
Qed.

Lemma signQ_abs s q : Qabs (signQ s * q) == Qabs q.
Proof.
  destruct s; unfold signQ.
  - setoid_replace (- (1) * q) with (- q) by ring. apply Qabs_opp.
  - now setoid_replace (1 * q) with q by ring.
Qed.

Lemma realValue_S : realValue SCALE_FACTOR == scaled SCALE_MANTISSA (-50).
Proof. rewrite SCALE_FACTOR_eq. unfold realValue, signQ, SCALE_MANTISSA. ring. Qed.

(** A division by [SCALE_FACTOR] of a double below [2^17]: the result
    is small and within [2^-36] of the quotient of the values. *)
Lemma fdiv_S_value x :
  inPixelRange x ->
  smallDouble (fdiv x SCALE_FACTOR)
  /\ Qabs (realValue (fdiv x SCALE_FACTOR) - realValue x / realValue SCALE_FACTOR)
     <= pow2 (-36).
Proof.
  destruct x as [s|s| |s m e]; cbn [inPixelRange]; try tauto.
  - intros _. rewrite SCALE_FACTOR_eq. cbn [fdiv SFdiv smallDouble realValue].
    split; [exact I|].
    setoid_replace (0 - 0 / (signQ false * scaled 4691249611844267 (-50))) with 0
      by (unfold Qdiv; ring).
    cbn [Qabs]. apply Qlt_le_weak, pow2_pos.
  - intros [E D]. rewrite realValue_S. rewrite SCALE_FACTOR_eq.
    cbn [fdiv SFdiv]. change (Z.pos 4691249611844267) with SCALE_MANTISSA.
    destruct (div_core_S (Zpos m) e ltac:(lia) E D)
      as (q & e' & l & -> & Q0 & E' & B & K & Uq).
    destruct (round_aux_spec (xorb s false) q e' l Q0 ltac:(lia) ltac:(lia))
      as (m2 & k2 & -> & M0 & K2 & R).
    set (k := Z.max 0 (Zdigits2 q - 53)) in *.
    assert (S2 : (m2 * 2 ^ k2 < 2 ^ (16 - e'))%Z).
    { assert (2 ^ k < 2 ^ (15 - e'))%Z by (apply Z.pow_lt_mono_r; lia).
      replace (16 - e')%Z with (Z.succ (15 - e'))%Z by lia.
      rewrite Z.pow_succ_r by lia. lia. }
    replace (xorb s false) with s by (now destruct s).
    assert (Val : realValue (match m2 with
                         | 0%Z => S754_zero s
                         | Z.pos p => S754_finite s p (e' + k2)
                         | Z.neg _ => S754_nan
                         end) == signQ s * scaled m2 (e' + k2)).
    { destruct m2 as [|p|p]; [|reflexivity|lia].
      unfold realValue, scaled. cbn [inject_Z]. ring. }
    split.
    + destruct m2 as [|p|p]; [exact I| |lia]. cbn [smallDouble]. split; [lia|].
      apply Z.mul_lt_mono_pos_r with (p := (2 ^ k2)%Z); [lia|].
      rewrite <- Z.pow_add_r by lia.
      now replace (16 - (e' + k2) + k2)%Z with (16 - e')%Z by lia.
    + rewrite Val. cbn [realValue].
      set (sh := (e + 50 - e')%Z) in *.
      assert (X : signQ s * scaled m2 (e' + k2)
                  - signQ s * scaled (Z.pos m) e / scaled SCALE_MANTISSA (-50)
                  == signQ s
                     * ((inject_Z (m2 * 2 ^ k2)
                         - inject_Z (Z.pos m * 2 ^ sh) / inject_Z SCALE_MANTISSA)
                        * pow2 e')).
      { rewrite <- (scaled_scale m2 k2 e') by lia.
        unfold scaled. rewrite (inject_Z_mult (Z.pos m)), pow2_inj by (unfold sh; lia).
        replace e with (sh + e' + -50)%Z at 1 by (unfold sh; lia).
        rewrite !pow2_add. field. split.
        - unfold SCALE_MANTISSA. discriminate.
        - pose proof (pow2_pos (-50)). lra. }
      rewrite X, signQ_abs, Qabs_Qmult.
      rewrite (Qabs_pos (pow2 e')) by (apply Qlt_le_weak, pow2_pos).
      assert (A : Qabs (inject_Z (m2 * 2 ^ k2)
                        - inject_Z (Z.pos m * 2 ^ sh) / inject_Z SCALE_MANTISSA)
                  <= inject_Z (2 ^ (k + 2))).
      { destruct B as [B1 B2]. destruct R as [R1 R2].
        set (a := inject_Z (m2 * 2 ^ k2)).
        set (b := inject_Z (Z.pos m * 2 ^ sh)).
        set (pk := inject_Z (2 ^ k)).
        assert (B1q : inject_Z q * inject_Z SCALE_MANTISSA <= b).
        { unfold b. rewrite <- inject_Z_mult, <- Zle_Qle. exact B1. }
        assert (B2q : b < (inject_Z q + 1) * inject_Z SCALE_MANTISSA).
        { unfold b. change 1 with (inject_Z 1).
          rewrite <- inject_Z_plus, <- inject_Z_mult, <- Zlt_Qlt. exact B2. }
        assert (R1q : inject_Z q < a + 3 * pk).
        { unfold a, pk. change 3 with (inject_Z 3).
          rewrite <- inject_Z_mult, <- inject_Z_plus, <- Zlt_Qlt. lia. }
        assert (R2q : a <= inject_Z q + pk).
        { unfold a, pk. rewrite <- inject_Z_plus, <- Zle_Qle. exact R2. }
        assert (Pk : 1 <= pk).
        { unfold pk. change 1 with (inject_Z 1). rewrite <- Zle_Qle.
          assert (0 < 2 ^ k)%Z by (apply Z.pow_pos_nonneg; lia). lia. }
        assert (E4 : inject_Z (2 ^ (k + 2)) == 4 * pk).
        { rewrite Z.pow_add_r by lia. rewrite inject_Z_mult. unfold pk.
          change (inject_Z (2 ^ 2)) with 4. ring. }
        rewrite E4. apply Qabs_Qle_condition.
        unfold SCALE_MANTISSA in *. unfold Qdiv.
        change (/ inject_Z 4691249611844267) with (1 # 4691249611844267).
        change (inject_Z 4691249611844267) with (4691249611844267 # 1) in *.
        split; lra. }
      eapply Qle_trans.
      * apply Qmult_le_compat_r; [exact A|apply Qlt_le_weak, pow2_pos].
      * rewrite pow2_inj by lia. rewrite <- pow2_add. apply pow2_le. lia.
Qed.

Open Scope Z_scope.

Lemma iter_xO m d : Zpos (Pos.iter xO m d) = Zpos m * 2 ^ Zpos d.
Proof.
  induction d as [|d IH] using Pos.peano_ind.
  - cbn [Pos.iter]. lia.
  - rewrite Pos.iter_succ, Pos2Z.inj_xO, IH, Pos2Z.inj_succ,
      Z.pow_succ_r by lia. lia.
Qed.

(** Aligning a significand to a smaller exponent. *)
Lemma shl_align_spec m e e' :
  e' <= e ->
  Zpos (fst (shl_align m e e')) = Zpos m * 2 ^ (e - e')
  /\ snd (shl_align m e e') = e'.
Proof.
  intros L. unfold shl_align.
  destruct (e' - e) as [|p|p] eqn:D; cbn [fst snd].
  - replace (e - e') with 0 by lia. cbn. lia.
  - lia.
  - rewrite iter_xO. split; [|reflexivity]. f_equal. f_equal. lia.
Qed.

Lemma Zdigits2_shift m j :
  0 < m -> 0 <= j -> Zdigits2 (m * 2 ^ j) = Zdigits2 m + j.
Proof.
  intros Pm J. rewrite !Zdigits2_log2 by (try apply Z.mul_pos_pos; lia).
  rewrite Z.log2_mul_pow2 by lia. lia.
Qed.

Open Scope Q_scope.

Lemma Qabs_inject a b c :
  (Z.abs (a - b) <= c)%Z -> Qabs (inject_Z a - inject_Z b) <= inject_Z c.
Proof.
  intros L. apply Qabs_Qle_condition. unfold Qminus.
  rewrite <- !inject_Z_opp, <- inject_Z_plus, <- !Zle_Qle. lia.
Qed.

Lemma realValue_rounded s m2 e2 :
  (0 <= m2)%Z -> realValue (roundedDouble s m2 e2) == signQ s * scaled m2 e2.
Proof.
  intros M. destruct m2 as [|p|p]; [|reflexivity|lia].
  unfold roundedDouble, realValue, scaled. cbn [inject_Z]. ring.
Qed.

(** The rounding of an exact result [mx * 2^ex] to a double. *)
Lemma binary_round_spec sx mx ex :
  (-1074 <= ex)%Z ->
  let f := fexp 53 1024 (Zdigits2 (Zpos mx) + ex) in
  (f + 1 <= 971)%Z ->
  exists m2 e2,
    binary_round 53 1024 sx mx ex = roundedDouble sx m2 e2
    /\ (0 <= m2)%Z /\ (-1074 <= e2 <= f + 1)%Z
    /\ Qabs (scaled m2 e2 - scaled (Zpos mx) ex) <= 3 * pow2 f.
Proof.
  intros E f F. unfold binary_round.
  change (fexp 53 1024 (Z.pos (digits2_pos mx) + ex)) with f.
  assert (Ff : f = Z.max (Zdigits2 (Zpos mx) + ex - 53) (-1074))
    by reflexivity.
  pose proof (Zdigits2_bounds (Zpos mx) ltac:(lia)) as Bd.
  pose proof (Zdigits2_nonneg (Zpos mx)) as Dn.
  destruct (Z_le_gt_dec f ex) as [Le|Gt].
  - (* the mantissa is shifted to the left, or kept *)
    destruct (shl_align_spec mx ex f Le) as [Sm Se].
    destruct (shl_align mx ex f) as [mz ez]. cbn [fst snd] in Sm, Se. subst ez.
    cbv beta iota.
    assert (Dz : Zdigits2 (Zpos mz) = (Zdigits2 (Zpos mx) + (ex - f))%Z).
    { rewrite Sm. apply Zdigits2_shift; lia. }
    destruct (round_aux_spec sx (Zpos mz) f loc_Exact ltac:(lia) ltac:(lia)
                ltac:(lia)) as (m2 & k2 & -> & M0 & K2 & R).
    replace (Z.max 0 (Zdigits2 (Zpos mz) - 53)) with 0%Z in * by lia.
    exists m2, (f + k2)%Z. split; [reflexivity|]. split; [exact M0|].
    split; [lia|].
    assert (X : scaled m2 (f + k2) - scaled (Zpos mx) ex
                == (inject_Z (m2 * 2 ^ k2) - inject_Z (Zpos mz)) * pow2 f).
    { rewrite <- (scaled_scale m2 k2 f) by lia.
      replace ex with (f + (ex - f))%Z at 1 by lia.
      rewrite <- (scaled_scale (Zpos mx) (ex - f) f) by lia. rewrite <- Sm.
      unfold scaled. ring. }
    rewrite X, Qabs_Qmult, (Qabs_pos (pow2 f)) by (apply Qlt_le_weak, pow2_pos).
    apply Qmult_le_compat_r; [|apply Qlt_le_weak, pow2_pos].
    change 3 with (inject_Z 3). apply Qabs_inject.
    change (2 ^ 0)%Z with 1%Z in R. lia.
  - (* the mantissa is kept and roundedDouble *)
    assert (Sh : shl_align mx ex f = (mx, ex)).
    { unfold shl_align. destruct (f - ex)%Z eqn:D; try reflexivity. lia. }
    rewrite Sh. cbv beta iota.
    destruct (round_aux_spec sx (Zpos mx) ex loc_Exact ltac:(lia) ltac:(lia)
                ltac:(lia)) as (m2 & k2 & -> & M0 & K2 & R).
    set (k := Z.max 0 (Zdigits2 (Zpos mx) - 53)) in *.
    exists m2, (ex + k2)%Z. split; [reflexivity|]. split; [exact M0|].
    split; [lia|].
    assert (X : scaled m2 (ex + k2) - scaled (Zpos mx) ex
                == (inject_Z (m2 * 2 ^ k2) - inject_Z (Zpos mx)) * pow2 ex).
    { rewrite <- (scaled_scale m2 k2 ex) by lia. unfold scaled. ring. }
    rewrite X, Qabs_Qmult, (Qabs_pos (pow2 ex)) by (apply Qlt_le_weak, pow2_pos).
    assert (A : Qabs (inject_Z (m2 * 2 ^ k2) - inject_Z (Zpos mx))
                <= 3 * inject_Z (2 ^ k)).
    { change 3 with (inject_Z 3). rewrite <- inject_Z_mult.
      apply Qabs_inject. assert (0 < 2 ^ k)%Z by (apply Z.pow_pos_nonneg; lia).
      lia. }
    eapply Qle_trans.
    + apply Qmult_le_compat_r; [exact A|apply Qlt_le_weak, pow2_pos].
    + rewrite pow2_inj by lia. rewrite <- Qmult_assoc, <- pow2_add.
      apply Qmult_le_l; [reflexivity|]. apply pow2_le. lia.
Qed.

Lemma scaled_aligned s m e ez :
  (ez <= e)%Z ->
  scaled (cond_Zopp s (Zpos (fst (shl_align m e ez)))) ez
  == signQ s * scaled (Zpos m) e.
Proof.
  intros L. destruct (shl_align_spec m e ez L) as [-> _].
  replace e with (ez + (e - ez))%Z at 2 by lia.
  rewrite <- scaled_scale by lia. unfold scaled, cond_Zopp, signQ.
  destruct s; [rewrite inject_Z_opp|]; ring.
Qed.

Lemma aligned_bound s m e ez :
  (ez <= e)%Z -> (Zpos m < 2 ^ (16 - e))%Z ->
  (Z.abs (cond_Zopp s (Zpos (fst (shl_align m e ez)))) < 2 ^ (16 - ez))%Z.
Proof.
  intros L B. destruct (shl_align_spec m e ez L) as [-> _].
  assert (A : (Z.abs (cond_Zopp s (Zpos m * 2 ^ (e - ez)))
               = Zpos m * 2 ^ (e - ez))%Z).
  { assert (0 < 2 ^ (e - ez))%Z by (apply Z.pow_pos_nonneg; lia).
    unfold cond_Zopp. destruct s; lia. }
  rewrite A.
  assert (0 <= 16 - e)%Z.
  { destruct (Z_le_gt_dec 0 (16 - e)); [lia|].
    rewrite Z.pow_neg_r in B by lia. lia. }
  replace (16 - ez)%Z with ((16 - e) + (e - ez))%Z by lia.
  rewrite Z.pow_add_r by lia.
  apply Z.mul_lt_mono_pos_r; [apply Z.pow_pos_nonneg; lia|exact B].
Qed.

Lemma isFinite_rounded s m2 e2 : (0 <= m2)%Z -> isFinite (roundedDouble s m2 e2) = true.
Proof. destruct m2; [reflexivity|reflexivity|lia]. Qed.

(** The difference of two small doubles is a number within [3 * 2^-36]
    of the difference of the values. *)
Lemma fsub_value a b :
  smallDouble a -> smallDouble b ->
  isFinite (fsub a b) = true
  /\ Qabs (realValue (fsub a b) - (realValue a - realValue b)) <= 3 * pow2 (-36).
Proof.
  assert (Z3 : 0 <= 3 * pow2 (-36)).
  { pose proof (pow2_pos (-36)). lra. }
  assert (Zero : forall q, q == 0 -> Qabs q <= 3 * pow2 (-36)).
  { intros q ->. exact Z3. }
  destruct a as [sa|sa| |sa ma ea], b as [sb|sb| |sb mb eb];
    cbn [smallDouble]; try tauto.
  - intros _ _. split; [now destruct sa, sb|]. apply Zero.
    destruct sa, sb; cbn; ring.
  - intros _ _. split; [reflexivity|]. apply Zero.
    cbn [fsub SFsub realValue]. destruct sb; unfold signQ; cbn [negb]; ring.
  - intros _ _. split; [reflexivity|]. apply Zero. cbn [fsub SFsub realValue]. ring.
  - intros [Ea Ba] [Eb Bb]. cbn [fsub SFsub].
    set (ez := Z.min ea eb).
    set (M := (cond_Zopp sa (Zpos (fst (shl_align ma ea ez)))
               - cond_Zopp sb (Zpos (fst (shl_align mb eb ez))))%Z).
    assert (VM : scaled M ez == realValue (S754_finite sa ma ea)
                          - realValue (S754_finite sb mb eb)).
    { unfold M, Z.sub. unfold scaled at 1. rewrite inject_Z_plus, inject_Z_opp.
      cbn [realValue].
      rewrite <- (scaled_aligned sa ma ea ez), <- (scaled_aligned sb mb eb ez)
        by (unfold ez; lia).
      unfold scaled. ring. }
    assert (BM : (Z.abs M < 2 ^ (17 - ez))%Z).
    { pose proof (aligned_bound sa ma ea ez ltac:(unfold ez; lia) Ba).
      pose proof (aligned_bound sb mb eb ez ltac:(unfold ez; lia) Bb).
      replace (17 - ez)%Z with (Z.succ (16 - ez))%Z by lia.
      rewrite Z.pow_succ_r by (unfold ez; lia). unfold M. lia. }
    rewrite <- VM. unfold binary_normalize.
    assert (R : forall s p,
               Z.abs M = Zpos p ->
               isFinite (binary_round 53 1024 s p ez) = true
               /\ Qabs (realValue (binary_round 53 1024 s p ez)
                        - signQ s * scaled (Zpos p) ez) <= 3 * pow2 (-36)).
    { intros s p Ep. rewrite Ep in BM.
      assert (Ez : (-1074 <= ez <= -37)%Z) by (unfold ez; lia).
      clearbody ez.
      assert (Dp : (Zdigits2 (Zpos p) <= 17 - ez)%Z)
        by (apply Zdigits2_le; lia).
      assert (F : (fexp 53 1024 (Zdigits2 (Zpos p) + ez) <= -36)%Z)
        by (unfold fexp, emin; lia).
      destruct (binary_round_spec s p ez ltac:(lia) ltac:(lia))
        as (m2 & e2 & -> & M0 & E2 & B).
      split; [now apply isFinite_rounded|].
      rewrite realValue_rounded by exact M0.
      setoid_replace (signQ s * scaled m2 e2 - signQ s * scaled (Zpos p) ez)
        with (signQ s * (scaled m2 e2 - scaled (Zpos p) ez)) by ring.
      rewrite signQ_abs. eapply Qle_trans; [exact B|].
      apply Qmult_le_l; [reflexivity|]. now apply pow2_le. }
    destruct M as [|p|p] eqn:EM.
    + split; [reflexivity|]. apply Zero. unfold scaled. cbn. ring.
    + destruct (R false p eq_refl) as [Fi Bd]. split; [exact Fi|].
      unfold signQ in Bd.
      now setoid_replace (scaled (Zpos p) ez) with (1 * scaled (Zpos p) ez) by ring.
    + destruct (R true p eq_refl) as [Fi Bd]. split; [exact Fi|].
      unfold signQ in Bd.
      setoid_replace (scaled (Zneg p) ez) with (- (1) * scaled (Zpos p) ez); [exact Bd|].
      unfold scaled. change (Zneg p) with (- Zpos p)%Z. rewrite inject_Z_opp. ring.
Qed.

(** A pixel coordinate is below [2^17]. *)
Lemma pixel_inRange x : pixelCoordinate x -> inPixelRange x.
Proof.
  intros (Va & Fi & B). destruct x as [s|s| |s m e]; try discriminate;
    [exact I|].
  cbn [valid_binary] in Va. unfold bounded, canonical_mantissa in Va.
  apply andb_prop in Va. destruct Va as [C _]. apply Z.eqb_eq in C.
  cbn [inPixelRange]. split; [unfold fexp, emin in C; lia|].
  cbn [realValue] in B. rewrite signQ_abs in B.
  pose proof (Zdigits2_bounds (Zpos m) ltac:(lia)) as [L _].
  pose proof (Zdigits2_nonneg (Zpos m)) as Dn.
  destruct (Z_le_gt_dec (Zdigits2 (Zpos m) + e) 17) as [Le|Gt]; [exact Le|].
  exfalso.
  assert (D1 : (1 <= Zdigits2 (Zpos m))%Z) by (cbn; lia).
  assert (A : pow2 17 <= scaled (Zpos m) e).
  { eapply Qle_trans; [apply (pow2_le 17 (Zdigits2 (Zpos m) - 1 + e)); lia|].
    rewrite pow2_add, <- pow2_inj by lia. unfold scaled.
    apply Qmult_le_compat_r; [|apply Qlt_le_weak, pow2_pos].
    now rewrite <- Zle_Qle. }
  rewrite Qabs_pos in B.
  - change (pow2 17) with 131072 in A. lra.
  - unfold scaled. apply Qmult_le_0_compat; [|apply Qlt_le_weak, pow2_pos].
    change 0 with (inject_Z 0). rewrite <- Zle_Qle. lia.
Qed.

Lemma realValue_S_Q : realValue SCALE_FACTOR == 4691249611844267 # 1125899906842624.
Proof. rewrite SCALE_FACTOR_eq. vm_compute. reflexivity. Qed.

(** A stored coordinate is within [2e-11] of the exact quotient. *)
Lemma coordinate_error x :
  pixelCoordinate x ->
  smallDouble (fdiv x SCALE_FACTOR)
  /\ Qabs (realValue (fdiv x SCALE_FACTOR) - realValue x / (300 # 72))
     <= 1 # 50000000000.
Proof.
  intros Px. pose proof Px as (_ & _ & B).
  destruct (fdiv_S_value x (pixel_inRange x Px)) as [Sm E].
  split; [exact Sm|].
  assert (T : realValue x / realValue SCALE_FACTOR
              == realValue x * (1125899906842624 # 4691249611844267)).
  { rewrite realValue_S_Q. unfold Qdiv. apply Qmult_comp; reflexivity. }
  rewrite T in E. change (pow2 (-36)) with (1 # 68719476736) in E.
  apply Qabs_Qle_condition in E, B. apply Qabs_Qle_condition.
  unfold Qdiv. change (/ (300 # 72)) with (72 # 300).
  set (v := realValue x) in *. set (r := realValue (fdiv x SCALE_FACTOR)) in *.
  split; lra.
Qed.

(** The width of a stored box, as the readers of the store compute it,
    is within [1e-10] of the exact width. *)
Lemma width_error x0 x1 :
  pixelCoordinate x0 -> pixelCoordinate x1 ->
  isFinite (fsub (fdiv x1 SCALE_FACTOR) (fdiv x0 SCALE_FACTOR)) = true
  /\ Qabs (realValue (fsub (fdiv x1 SCALE_FACTOR) (fdiv x0 SCALE_FACTOR))
           - (realValue x1 - realValue x0) / (300 # 72))
     <= 1 # 10000000000.
Proof.
  intros P0 P1.
  destruct (coordinate_error x0 P0) as [S0 E0].
  destruct (coordinate_error x1 P1) as [S1 E1].
  destruct (fsub_value _ _ S1 S0) as [Fi E]. split; [exact Fi|].
  change (pow2 (-36)) with (1 # 68719476736) in E.
  apply Qabs_Qle_condition in E, E0, E1. apply Qabs_Qle_condition.
  unfold Qdiv in *. change (/ (300 # 72)) with (72 # 300) in *.
  set (v0 := realValue x0) in *. set (v1 := realValue x1) in *.
  set (r0 := realValue (fdiv x0 SCALE_FACTOR)) in *.
  set (r1 := realValue (fdiv x1 SCALE_FACTOR)) in *.
  set (w := realValue (fsub (fdiv x1 SCALE_FACTOR) (fdiv x0 SCALE_FACTOR))) in *.
  split; lra.
Qed.

Close Scope Q_scope.
Close Scope Z_scope.

Lemma pixelCoordinate_900 : pixelCoordinate (dbl 900).
Proof. repeat split. vm_compute. discriminate. Qed.

(** C7: the words stored for a page are the recognised words with each
    coordinate of the 300-dpi box divided, as doubles, by the scale
    factor, the double nearest to 300/72. For pixel coordinates (doubles
    of magnitude at most 65536) a stored coordinate is a number within
    1e-6 of the coordinate divided by 300/72, and the width of a stored
    box, the difference of its stored [x1] and [x0] taken exactly or as
    the readers of the store compute it in doubles, is within 1e-6 of
    [(x1 - x0) / (300/72)]. *)
Theorem ocr_word_box_conversion :
  (forall data pageHeight,
      OcrPage.words (ocrPageResult data pageHeight)
      = map convertWord (dataWords data))
  /\ (forall word,
        let b := Word.bbox word in
        let stored := Word.bbox (convertWord word) in
        Bbox.x0 stored = fdiv (Bbox.x0 b) (fdiv (dbl 300) (dbl 72))
        /\ Bbox.y0 stored = fdiv (Bbox.y0 b) (fdiv (dbl 300) (dbl 72))
        /\ Bbox.x1 stored = fdiv (Bbox.x1 b) (fdiv (dbl 300) (dbl 72))
        /\ Bbox.y1 stored = fdiv (Bbox.y1 b) (fdiv (dbl 300) (dbl 72)))
  /\ (forall x,
        pixelCoordinate x ->
        isFinite (fdiv x SCALE_FACTOR) = true
        /\ (Qabs (realValue (fdiv x SCALE_FACTOR) - realValue x / (300 / 72))
            <= 1 # 1000000)%Q)
  /\ (forall word,
        let b := Word.bbox word in
        let stored := Word.bbox (convertWord word) in
        pixelCoordinate (Bbox.x0 b) -> pixelCoordinate (Bbox.x1 b) ->
        isFinite (bboxWidth stored) = true
        /\ (Qabs (realValue (bboxWidth stored)
                  - (realValue (Bbox.x1 b) - realValue (Bbox.x0 b))
                    / (300 / 72))
            <= 1 # 1000000)%Q
        /\ (Qabs (realValue (Bbox.x1 stored) - realValue (Bbox.x0 stored)
                  - (realValue (Bbox.x1 b) - realValue (Bbox.x0 b))
                    / (300 / 72))
            <= 1 # 1000000)%Q).
Proof.
  split; [apply ocrPageResult_words|].
  split; [intros word b stored; repeat split|].
  split.
  - intros x Px. destruct (coordinate_error x Px) as [Sm E]. split.
    + destruct (fdiv x SCALE_FACTOR); try reflexivity; now elim Sm.
    + change (300 / 72)%Q with (300 # 72)%Q.
      eapply Qle_trans; [exact E|discriminate].
  - intros word b stored P0 P1.
    destruct (width_error _ _ P0 P1) as [Fi E].
    destruct (coordinate_error _ P0) as [_ E0].
    destruct (coordinate_error _ P1) as [_ E1].
    change (300 / 72)%Q with (300 # 72)%Q.
    split; [exact Fi|]. split.
    + eapply Qle_trans; [exact E|discriminate].
    + subst stored. unfold convertWord, pdfBbox.
      cbn [Word.bbox Bbox.x0 Bbox.x1]. fold b.
      apply Qabs_Qle_condition in E0, E1. apply Qabs_Qle_condition.
      unfold Qdiv in *. change (/ (300 # 72))%Q with (72 # 300)%Q in *.
      set (v0 := realValue (Bbox.x0 b)) in *.
      set (v1 := realValue (Bbox.x1 b)) in *.
      set (r0 := realValue (fdiv (Bbox.x0 b) SCALE_FACTOR)) in *.
      set (r1 := realValue (fdiv (Bbox.x1 b) SCALE_FACTOR)) in *.
      split; lra.
Qed.

(** The box of [world] in the example: its right edge, 900 pixels, is
    stored as the double below 216, [7599824371187711 * 2^-45]. *)
Lemma ocr_word_box_conversion_witness :
  pixelCoordinate (dbl 900)
  /\ fdiv (dbl 900) SCALE_FACTOR = S754_finite false 7599824371187711 (-45)
  /\ isFinite (fdiv (dbl 900) SCALE_FACTOR) = true
  /\ (Qabs (realValue (fdiv (dbl 900) SCALE_FACTOR)
            - realValue (dbl 900) / (300 / 72))
      <= 1 # 1000000)%Q.
Proof.
  split; [exact pixelCoordinate_900|].
  split; [vm_compute; reflexivity|].
  exact (proj1 (proj2 (proj2 ocr_word_box_conversion)) (dbl 900)
           pixelCoordinate_900).
Defined.

(** ** The matcher *)

Section MatcherFacts.
Context `{Host}.

Lemma skipn_nth_error {A : Type} (l : list A) : forall i,
  skipn i l = match nth_error l i with
              | Some a => a :: skipn (S i) l
              | None => []
              end.
Proof.
  induction l as [|a l IH]; intros [|i]; try reflexivity.
  simpl skipn at 1. rewrite IH. simpl nth_error.
  destruct (nth_error l i); reflexivity.
Qed.

Lemma matchR_literal p : forall txt i k,
  matchR true (literal p) txt i k
  = if occursAt p txt i then k (i + length p) else None.
Proof.
  unfold occursAt.
  induction p as [|a p IH]; intros txt i k.
  - simpl. now rewrite Nat.add_0_r.
  - change (literal (a :: p)) with (Seq (Chr (CChar a)) (literal p)).
    cbn [matchR]. rewrite (skipn_nth_error txt i).
    destruct (nth_error txt i) as [c|]; [|reflexivity].
    cbn [ciPrefix cmem]. fold (ciEq a c).
    destruct (ciEq a c); [|reflexivity].
    rewrite IH. cbn [andb length].
    now rewrite Nat.add_succ_r.
Qed.

Lemma execFrom_Some n re txt : forall i j e,
  execFrom n re txt i = Some (j, e) ->
  i <= j < i + n
  /\ matchR (ignoreCase re) (source re) txt j (fun e => Some e) = Some e
  /\ (forall j', i <= j' < j ->
        matchR (ignoreCase re) (source re) txt j' (fun e => Some e) = None).
Proof.
  induction n as [|n IH]; intros i j e; cbn [execFrom]; [discriminate|].
  destruct (matchR (ignoreCase re) (source re) txt i (fun e => Some e))
    as [e'|] eqn:E.
  - intros [= <- <-]. repeat split; trivial; try lia.
  - intros Hx. apply IH in Hx as (R & M & N).
    repeat split; trivial; try lia.
    intros j' Hj'. destruct (Nat.eq_dec j' i) as [->|Hne]; [exact E|].
    apply N. lia.
Qed.

Lemma execFrom_None n re txt : forall i,
  execFrom n re txt i = None ->
  forall j, i <= j < i + n ->
    matchR (ignoreCase re) (source re) txt j (fun e => Some e) = None.
Proof.
  induction n as [|n IH]; intros i; cbn [execFrom]; [lia|].
  destruct (matchR (ignoreCase re) (source re) txt i (fun e => Some e))
    as [e'|] eqn:E; [discriminate|].
  intros Hx j Hj. destruct (Nat.eq_dec j i) as [->|Hne]; [exact E|].
  apply (IH (S i) Hx). lia.
Qed.

Lemma exec_Some re txt lastIndex j e :
  exec re txt lastIndex = Some (j, e) ->
  lastIndex <= j <= length txt
  /\ matchR (ignoreCase re) (source re) txt j (fun e => Some e) = Some e
  /\ (forall j', lastIndex <= j' < j ->
        matchR (ignoreCase re) (source re) txt j' (fun e => Some e) = None).
Proof.
  unfold exec. destruct (length txt <? lastIndex) eqn:L; [discriminate|].
  apply Nat.ltb_ge in L. intros Hx.
  apply execFrom_Some in Hx as (R & M & N).
  repeat split; trivial; lia.
Qed.

Lemma exec_None re txt lastIndex :
  exec re txt lastIndex = None ->
  forall j, lastIndex <= j <= length txt ->
    matchR (ignoreCase re) (source re) txt j (fun e => Some e) = None.
Proof.
  unfold exec. destruct (length txt <? lastIndex) eqn:L.
  - apply Nat.ltb_lt in L. intros _ j Hj. lia.
  - apply Nat.ltb_ge in L. intros Hx j Hj.
    apply (execFrom_None _ _ _ _ Hx). lia.
Qed.

(** [exec] of a literal pattern finds its leftmost occurrence at or
    after [lastIndex], up to case folding. *)
Lemma exec_literal_Some p txt lastIndex j e :
  exec (mkRegExp (literal p) true) txt lastIndex = Some (j, e) ->
  lastIndex <= j /\ e = j + length p
  /\ occursAt p txt j = true
  /\ (forall j', lastIndex <= j' < j -> occursAt p txt j' = false).
Proof.
  intros Hx. apply exec_Some in Hx as (R & M & N). cbn in M, N.
  rewrite matchR_literal in M.
  destruct (occursAt p txt j) eqn:O; [|discriminate].
  injection M as <-. repeat split; trivial; try lia.
  intros j' Hj'. specialize (N j' Hj'). rewrite matchR_literal in N.
  destruct (occursAt p txt j'); [discriminate|reflexivity].
Qed.

Lemma exec_literal_None p txt lastIndex :
  exec (mkRegExp (literal p) true) txt lastIndex = None ->
  forall j, lastIndex <= j <= length txt -> occursAt p txt j = false.
Proof.
  intros Hx j Hj. pose proof (exec_None _ _ _ Hx j Hj) as N. cbn in N.
  rewrite matchR_literal in N.
  destruct (occursAt p txt j); [discriminate|reflexivity].
Qed.

End MatcherFacts.

(** ** The search loop *)

Section SearchFacts.
Context `{Host}.

Lemma matchLoop_hasRects fuel re validate pageNum patternName fullText
  charMap : forall lastIndex results out,
  Forall hasRects results ->
  matchLoop fuel re validate pageNum patternName fullText charMap
    lastIndex results = Returns out ->
  Forall hasRects out.
Proof.
  induction fuel as [|fuel IH]; intros lastIndex results out Hres;
    cbn [matchLoop]; [discriminate|].
  destruct (exec re fullText lastIndex) as [[index lastIndex']|].
  - destruct (negb (validate (substring fullText index lastIndex'))).
    + apply IH, Hres.
    + destruct (0 <? length (getRectsForRange charMap index
                   (index + length (substring fullText index lastIndex'))))
        eqn:L.
      * apply IH. apply Forall_app. split; [exact Hres|].
        constructor; [|constructor].
        unfold hasRects. cbn. apply Nat.ltb_lt in L.
        intros E. rewrite E in L. simpl in L. lia.
      * apply IH, Hres.
  - intros [= <-]. exact Hres.
Qed.

Lemma searchPattern_hasRects fuel pageNum fullText charMap customPattern
  results patternName out :
  Forall hasRects results ->
  searchPattern fuel pageNum fullText charMap customPattern results
    patternName = Returns out ->
  Forall hasRects out.
Proof.
  intros Hres. unfold searchPattern.
  destruct (lookupPattern patternName REDACTION_PATTERNS) as [pattern|];
    [|intros [= <-]; exact Hres].
  destruct (match String.eqb patternName "custom", truthy customPattern with
            | true, Some p => re <- customRegExp p ;; Returns (Some re)
            | _, _ => Returns (Pattern.regex pattern)
            end) as [[re|]| |]; cbn [bind]; try discriminate.
  - apply matchLoop_hasRects, Hres.
  - intros [= <-]. exact Hres.
Qed.

Lemma forPatterns_hasRects fuel pageNum fullText charMap customPattern
  patternNames : forall results out,
  Forall hasRects results ->
  forPatterns fuel pageNum fullText charMap customPattern patternNames
    results = Returns out ->
  Forall hasRects out.
Proof.
  induction patternNames as [|n names IH]; intros results out Hres;
    cbn [forPatterns].
  - intros [= <-]. exact Hres.
  - destruct (searchPattern fuel pageNum fullText charMap customPattern
                results n) as [r| |] eqn:E; cbn [bind]; try discriminate.
    apply IH. eapply searchPattern_hasRects; eassumption.
Qed.

Lemma forPages_hasRects fuel patternNames customPattern pages :
  forall pageNum results out,
  Forall hasRects results ->
  forPages fuel pages pageNum patternNames customPattern results
  = Returns out ->
  Forall hasRects out.
Proof.
  induction pages as [|page pages IH]; intros pageNum results out Hres;
    cbn [forPages].
  - intros [= <-]. exact Hres.
  - destruct (buildCharMap (Page.items page) (Page.viewport page))
      as [fullText charMap].
    destruct (forPatterns fuel pageNum fullText charMap customPattern
                patternNames results) as [r| |] eqn:E; cbn [bind];
      try discriminate.
    apply IH. eapply forPatterns_hasRects; eassumption.
Qed.

End SearchFacts.

(** ** Matches of the table's patterns have the table's shapes *)

Lemma firstn_add_split {A : Type} (a b : nat) : forall l : list A,
  firstn (a + b) l = firstn a l ++ firstn b (skipn a l).
Proof.
  induction a as [|a IH]; intros [|x l]; cbn [Nat.add firstn skipn app];
    try reflexivity.
  - now rewrite firstn_nil.
  - now rewrite IH.
Qed.

Lemma substring_app {A : Type} (l : list A) i j k :
  i <= j -> j <= k ->
  firstn (k - i) (skipn i l)
  = firstn (j - i) (skipn i l) ++ firstn (k - j) (skipn j l).
Proof.
  intros Hij Hjk.
  replace (k - i) with ((j - i) + (k - j)) by lia.
  rewrite firstn_add_split, skipn_skipn.
  now replace (j - i + i) with j by lia.
Qed.

Section Soundness.
Context `{Host}.

Lemma substring_split (txt : jsstring) i j k :
  i <= j -> j <= k ->
  substring txt i k = substring txt i j ++ substring txt j k.
Proof. apply substring_app. Qed.

Lemma substring_empty (txt : jsstring) i : substring txt i i = [].
Proof. unfold substring. now rewrite Nat.sub_diag. Qed.

Lemma substring_one (txt : jsstring) i c :
  nth_error txt i = Some c -> substring txt i (S i) = [c].
Proof.
  intros E. unfold substring. rewrite (skipn_nth_error txt i), E.
  replace (S i - i) with 1 by lia. reflexivity.
Qed.

(** A successful run of the matcher consumed a text the pattern
    matches, and handed its end to the continuation. *)
Lemma matchR_sound ic r txt : forall i k e,
  matchR ic r txt i k = Some e ->
  exists j, i <= j /\ matchesText ic r (substring txt i j) /\ k j = Some e.
Proof.
  induction r as [|cl|r1 IH1 r2 IH2|r1 IH1 r2 IH2|r IH|];
    intros i k e; cbn [matchR matchesText].
  - intros E. exists i. rewrite substring_empty. now repeat split.
  - destruct (nth_error txt i) as [c|] eqn:N; [|discriminate].
    destruct (cmem ic cl c) eqn:M; [|discriminate].
    intros E. exists (S i). split; [lia|]. split; [|exact E].
    exists c. split; [now apply substring_one|exact M].
  - intros E. apply IH1 in E as (j1 & L1 & M1 & E).
    apply IH2 in E as (j & L2 & M2 & E).
    exists j. split; [lia|]. split; [|exact E].
    exists (substring txt i j1), (substring txt j1 j).
    split; [now apply substring_split|now split].
  - destruct (matchR ic r1 txt i k) as [e1|] eqn:E1.
    + intros [= <-]. apply IH1 in E1 as (j & L & M & E).
      exists j. repeat split; trivial. now left.
    + intros E. apply IH2 in E as (j & L & M & E).
      exists j. repeat split; trivial. now right.
  - generalize (S (length txt)) as n. intros n. revert i.
    induction n as [|n IHn]; intros i; cbn [starIter].
    + intros E. exists i. split; [lia|]. split; [|exact E].
      exists []. rewrite substring_empty. now split.
    + destruct (matchR ic r txt i _) as [e1|] eqn:E1.
      * intros [= <-]. apply IH in E1 as (j1 & L1 & M1 & E1).
        destruct (j1 =? i); [discriminate|].
        apply IHn in E1 as (j & L & (l & El & Fl) & E).
        exists j. split; [lia|]. split; [|exact E].
        exists (substring txt i j1 :: l). split.
        -- cbn [concat]. rewrite <- El. now apply substring_split.
        -- now constructor.
      * intros E. exists i. split; [lia|]. split; [|exact E].
        exists []. rewrite substring_empty. now split.
  - destruct (atWordBoundary txt i); [|discriminate].
    intros E. exists i. rewrite substring_empty. now repeat split.
Qed.

Lemma exec_matchesText re txt lastIndex j e :
  exec re txt lastIndex = Some (j, e) ->
  matchesText (ignoreCase re) (source re) (substring txt j e).
Proof.
  intros Hx. apply exec_Some in Hx as (_ & M & _).
  apply matchR_sound in M as (j' & _ & M & [= <-]). exact M.
Qed.

Lemma sepClass_separator c :
  cmem false sepClass c = true -> isSeparator c = true.
Proof.
  unfold sepClass, isSeparator. cbn [cmem].
  now rewrite (N.eqb_sym DASH c).
Qed.

Lemma matchesText_digit s :
  matchesText false digit s -> allDigits 1 s.
Proof.
  intros (c & -> & M). cbn in M. split; [reflexivity|].
  cbn. now rewrite M.
Qed.

Lemma matchesText_optSep s :
  matchesText false (opt (Chr sepClass)) s -> optionalSeparator s.
Proof.
  intros [(c & -> & M)| ->]; [right|now left].
  exists c. split; [reflexivity|now apply sepClass_separator].
Qed.

Lemma allDigits_app n1 n2 s1 s2 :
  allDigits n1 s1 -> allDigits n2 s2 -> allDigits (n1 + n2) (s1 ++ s2).
Proof.
  intros [L1 D1] [L2 D2]. split.
  - rewrite length_app. lia.
  - now rewrite forallb_app, D1, D2.
Qed.

Lemma matchesText_rep n s :
  matchesText false (rep n digit) s -> allDigits n s.
Proof.
  revert s. induction n as [|n IH]; intros s.
  - intros ->. now split.
  - intros (s1 & s2 & -> & M1 & M2).
    apply matchesText_digit in M1. apply IH in M2.
    apply (allDigits_app 1 n s1 s2 M1 M2).
Qed.

Lemma matchesText_upto n s :
  matchesText false (upto n digit) s ->
  forallb isDigit s = true /\ length s <= n.
Proof.
  revert s. induction n as [|n IH]; intros s.
  - intros ->. now split.
  - intros [(s1 & s2 & -> & M1 & M2)| ->]; [|split; [reflexivity|simpl; lia]].
    apply matchesText_digit in M1 as [L1 D1]. apply IH in M2 as [D2 L2].
    split; [now rewrite forallb_app, D1, D2|rewrite length_app; lia].
Qed.

(** A match of the SSN pattern has the SSN shape. *)
Lemma ssn_match_shape txt lastIndex j e :
  exec ssn_regex txt lastIndex = Some (j, e) ->
  ssnShape (substring txt j e).
Proof.
  intros Hx. apply exec_matchesText in Hx.
  change (source ssn_regex) with
    (Seq WordB (Seq (rep 3 digit) (Seq (opt (Chr sepClass))
       (Seq (rep 2 digit) (Seq (opt (Chr sepClass))
          (Seq (rep 4 digit) (Seq WordB Eps))))))) in Hx.
  change (ignoreCase ssn_regex) with false in Hx.
  destruct Hx as (b0 & t0 & -> & -> & area & t1 & -> & Ma
                  & s1 & t2 & -> & M1 & group & t3 & -> & Mg
                  & s2 & t4 & -> & M2 & serial & t5 & -> & Mn
                  & b1 & t6 & -> & -> & ->).
  exists area, s1, group, s2, serial.
  cbn [app]. rewrite !app_nil_r.
  split; [reflexivity|].
  repeat split;
    (apply (matchesText_rep _ _ Ma) || apply (matchesText_rep _ _ Mg)
     || apply (matchesText_rep _ _ Mn) || now apply matchesText_optSep).
Qed.

(** A match of the credit-card pattern has the card shape. *)
Lemma creditCard_match_shape txt lastIndex j e :
  exec creditCard_regex txt lastIndex = Some (j, e) ->
  cardShape (substring txt j e).
Proof.
  intros Hx. apply exec_matchesText in Hx.
  change (source creditCard_regex) with
    (Seq WordB
       (Seq (Seq (Seq (rep 4 digit) (opt (Chr sepClass)))
               (Seq (Seq (rep 4 digit) (opt (Chr sepClass)))
                  (Seq (Seq (rep 4 digit) (opt (Chr sepClass))) Eps)))
          (Seq digit (Seq (upto 3 digit) (Seq WordB Eps))))) in Hx.
  change (ignoreCase creditCard_regex) with false in Hx.
  destruct Hx as (b0 & t0 & -> & -> & groups & t1 & -> & Mgroups
                  & d & t2 & -> & Md & u & t3 & -> & Mu
                  & b1 & t4 & -> & -> & ->).
  destruct Mgroups as (x1 & y1 & -> & (g1 & s1 & -> & Mg1 & Ms1)
                       & x2 & y2 & -> & (g2 & s2 & -> & Mg2 & Ms2)
                       & x3 & y3 & -> & (g3 & s3 & -> & Mg3 & Ms3) & ->).
  apply matchesText_digit in Md as [Ld Dd].
  apply matchesText_upto in Mu as [Du Lu].
  exists g1, s1, g2, s2, g3, s3, (d ++ u).
  cbn [app]. rewrite !app_nil_r, <- !app_assoc.
  split; [reflexivity|].
  repeat split;
    try (apply (matchesText_rep _ _ Mg1) || apply (matchesText_rep _ _ Mg2)
         || apply (matchesText_rep _ _ Mg3));
    try (now apply matchesText_optSep).
  - now rewrite forallb_app, Dd, Du.
  - rewrite length_app. lia.
  - rewrite length_app. lia.
Qed.

End Soundness.

(** ** The validators on the matches of their patterns *)

(** C3: a match of the SSN pattern has the SSN shape; on every text of
    that shape the validator strips the separators, leaving the nine
    digits, and accepts exactly when the area is not 000, not 666 and
    not in 900-999, the group is not "00" and the serial is not "0000";
    "078-05-1120" is accepted, "000-12-3456" and "123-00-4567" are
    rejected. *)
Theorem ssn_validate_spec :
  (forall (H : Host) txt lastIndex j e,
      exec ssn_regex txt lastIndex = Some (j, e) ->
      ssnShape (substring txt j e))
  /\ (forall area s1 group s2 serial,
        allDigits 3 area -> optionalSeparator s1 ->
        allDigits 2 group -> optionalSeparator s2 ->
        allDigits 4 serial ->
        let m := area ++ s1 ++ group ++ s2 ++ serial in
        stripSeparators m = area ++ group ++ serial
        /\ (ssn_validate m = true <-> ssnRule area group serial))
  /\ ssn_validate (js "078-05-1120") = true
  /\ ssn_validate (js "000-12-3456") = false
  /\ ssn_validate (js "123-00-4567") = false.
Proof.
  split; [intros H; apply ssn_match_shape|].
  split; [|repeat split; reflexivity].
  intros area s1 group s2 serial Ha H1 Hg H2 Hn m.
  assert (E : stripSeparators m = area ++ group ++ serial).
  { subst m. rewrite !strip_app.
    rewrite (strip_optionalSeparator s1 H1), (strip_optionalSeparator s2 H2).
    rewrite !strip_digits by (apply Ha || apply Hg || apply Hn).
    reflexivity. }
  split; [exact E|].
  rewrite <- (ssn_validate_digits area group serial Ha Hg Hn).
  unfold ssn_validate at 1 2. rewrite E.
  rewrite strip_digits; [reflexivity|].
  rewrite !forallb_app.
  destruct Ha as [_ ->], Hg as [_ ->], Hn as [_ ->]. reflexivity.
Qed.

(** The match ["078-05-1120"]. *)
Lemma ssn_validate_spec_witness :
  allDigits 3 (js "078") /\ optionalSeparator [DASH]
  /\ allDigits 2 (js "05") /\ allDigits 4 (js "1120")
  /\ stripSeparators (js "078-05-1120") = js "078051120"
  /\ (ssn_validate (js "078-05-1120") = true
      <-> ssnRule (js "078") (js "05") (js "1120")).
Proof.
  assert (A : allDigits 3 (js "078")) by (split; reflexivity).
  assert (S : optionalSeparator [DASH])
    by (right; exists DASH; split; reflexivity).
  assert (G : allDigits 2 (js "05")) by (split; reflexivity).
  assert (N : allDigits 4 (js "1120")) by (split; reflexivity).
  repeat (split; [assumption|]).
  exact (proj1 (proj2 ssn_validate_spec) (js "078") [DASH] (js "05") [DASH]
           (js "1120") A S G S N).
Defined.

(** C4: a match of the card pattern has the card shape, which strips to
    13-16 digits; the validator strips the separators, rejects a
    stripped string shorter than 13 or longer than 19, and otherwise
    accepts a digit string exactly when it passes the Luhn checksum;
    "4532015112830366" is accepted and "4532015112830367" rejected. *)
Theorem creditCard_validate_spec :
  (forall (H : Host) txt lastIndex j e,
      exec creditCard_regex txt lastIndex = Some (j, e) ->
      cardShape (substring txt j e))
  /\ (forall m,
        cardShape m ->
        forallb isDigit (stripSeparators m) = true
        /\ 13 <= length (stripSeparators m) <= 16)
  /\ (forall m,
        length (stripSeparators m) < 13 \/ 19 < length (stripSeparators m) ->
        creditCard_validate m = false)
  /\ (forall m,
        forallb isDigit (stripSeparators m) = true ->
        13 <= length (stripSeparators m) <= 19 ->
        (creditCard_validate m = true <-> luhnValid (stripSeparators m)))
  /\ creditCard_validate (js "4532015112830366") = true
  /\ creditCard_validate (js "4532015112830367") = false.
Proof.
  split; [intros H; apply creditCard_match_shape|].
  split; [|split; [|split; [|split; reflexivity]]].
  - intros m (g1 & s1 & g2 & s2 & g3 & s3 & g4 & -> & [L1 D1] & H1
              & [L2 D2] & H2 & [L3 D3] & H3 & D4 & L4).
    rewrite !strip_app.
    rewrite (strip_optionalSeparator s1 H1), (strip_optionalSeparator s2 H2),
      (strip_optionalSeparator s3 H3).
    rewrite !strip_digits by assumption. cbn [app].
    split.
    + now rewrite !forallb_app, D1, D2, D3, D4.
    + rewrite !length_app. lia.
  - intros m Hlen. unfold creditCard_validate.
    destruct Hlen as [Hl|Hl].
    + apply Nat.ltb_lt in Hl. now rewrite Hl.
    + apply Nat.ltb_lt in Hl. rewrite Hl. now rewrite orb_true_r.
  - intros m Hd [Hlo Hhi]. unfold creditCard_validate.
    replace (length (stripSeparators m) <? 13) with false
      by (symmetry; apply Nat.ltb_ge; lia).
    replace (19 <? length (stripSeparators m)) with false
      by (symmetry; apply Nat.ltb_ge; lia).
    cbn [orb]. now apply luhnCheck_digits.
Qed.

(** The match ["4532 0151 1283 0366"]. *)
Lemma creditCard_validate_spec_witness :
  forallb isDigit (stripSeparators (js "4532 0151 1283 0366")) = true
  /\ 13 <= length (stripSeparators (js "4532 0151 1283 0366")) <= 19
  /\ (creditCard_validate (js "4532 0151 1283 0366") = true
      <-> luhnValid (stripSeparators (js "4532 0151 1283 0366"))).
Proof.
  assert (D : forallb isDigit (stripSeparators (js "4532 0151 1283 0366"))
              = true) by reflexivity.
  assert (L : 13 <= length (stripSeparators (js "4532 0151 1283 0366")) <= 19)
    by (vm_compute; lia).
  split; [exact D|]. split; [exact L|].
  exact (proj1 (proj2 (proj2 (proj2 creditCard_validate_spec)))
           (js "4532 0151 1283 0366") D L).
Defined.

(** ** Termination of the search *)

Section Progress.
Context `{Host}.

Lemma matchR_minLen ic r txt : forall i k e,
  matchR ic r txt i k = Some e ->
  exists j, i + minLen r <= j /\ k j = Some e.
Proof.
  induction r as [|cl|r1 IH1 r2 IH2|r1 IH1 r2 IH2|r IH|];
    intros i k e; cbn [matchR minLen].
  - intros E. exists i. split; [lia|exact E].
  - destruct (nth_error txt i) as [c|]; [|discriminate].
    destruct (cmem ic cl c); [|discriminate].
    intros E. exists (S i). split; [lia|exact E].
  - intros E. apply IH1 in E as (j1 & L1 & E).
    apply IH2 in E as (j & L2 & E).
    exists j. split; [lia|exact E].
  - destruct (matchR ic r1 txt i k) as [e1|] eqn:E1.
    + intros [= <-]. apply IH1 in E1 as (j & L & E).
      exists j. split; [lia|exact E].
    + intros E. apply IH2 in E as (j & L & E).
      exists j. split; [lia|exact E].
  - generalize (S (length txt)) as n. intros n. revert i.
    induction n as [|n IHn]; intros i; cbn [starIter].
    + intros E. exists i. split; [lia|exact E].
    + destruct (matchR ic r txt i _) as [e1|] eqn:E1.
      * intros [= <-]. apply IH in E1 as (j1 & L1 & E1).
        destruct (j1 =? i); [discriminate|].
        apply IHn in E1 as (j & L & E).
        exists j. split; [lia|exact E].
      * intros E. exists i. split; [lia|exact E].
  - destruct (atWordBoundary txt i); [|discriminate].
    intros E. exists i. split; [lia|exact E].
Qed.

Lemma exec_progress re txt lastIndex j e :
  progresses re ->
  exec re txt lastIndex = Some (j, e) -> lastIndex < e.
Proof.
  intros P Hx. apply exec_Some in Hx as (R & M & _).
  apply matchR_minLen in M as (j' & L & [= <-]).
  unfold progresses in P. lia.
Qed.

Lemma matchLoop_returns re validate pageNum patternName fullText charMap :
  progresses re ->
  forall fuel lastIndex results,
    1 <= fuel ->
    length fullText + 2 <= fuel + lastIndex ->
    exists out,
      matchLoop fuel re validate pageNum patternName fullText charMap
        lastIndex results = Returns out.
Proof.
  intros P. induction fuel as [|fuel IH]; intros lastIndex results H1 Hf;
    [lia|].
  cbn [matchLoop].
  destruct (exec re fullText lastIndex) as [[index lastIndex']|] eqn:E;
    [|eexists; reflexivity].
  pose proof (exec_progress _ _ _ _ _ P E) as Hlt.
  apply exec_Some in E as (R & _ & _).
  assert (H1' : 1 <= fuel) by lia.
  assert (Hf' : length fullText + 2 <= fuel + lastIndex') by lia.
  destruct (negb (validate (substring fullText index lastIndex')));
    [apply IH; assumption|].
  destruct (0 <? length _); apply IH; assumption.
Qed.

End Progress.

Lemma table_progresses name pattern re :
  lookupPattern name REDACTION_PATTERNS = Some pattern ->
  Pattern.regex pattern = Some re ->
  progresses re.
Proof.
  unfold lookupPattern, REDACTION_PATTERNS.
  repeat (destruct (String.eqb name _);
          [intros [= <-] [= <-]; unfold progresses; vm_compute; lia|]).
  discriminate.
Qed.

Section Returns.
Context `{Host}.

Lemma searchPattern_returns fuel pageNum fullText charMap customPattern
  results patternName :
  customProgresses customPattern ->
  length fullText + 2 <= fuel ->
  exists out,
    searchPattern fuel pageNum fullText charMap customPattern results
      patternName = Returns out.
Proof.
  intros C Hf. unfold searchPattern.
  destruct (lookupPattern patternName REDACTION_PATTERNS) as [pattern|] eqn:L;
    [|eexists; reflexivity].
  assert (B : forall re, Pattern.regex pattern = Some re ->
              exists out,
                matchLoop fuel re (Pattern.validate pattern) pageNum
                  patternName fullText charMap 0 results = Returns out).
  { intros re E. apply matchLoop_returns; [|lia|lia].
    eapply table_progresses; eassumption. }
  unfold customProgresses in C.
  destruct (String.eqb patternName "custom");
    [destruct (truthy customPattern) as [p|]|].
  - destruct C as (re & -> & P). cbn [bind].
    apply matchLoop_returns; [exact P|lia|lia].
  - cbn [bind]. destruct (Pattern.regex pattern) as [re|];
      [now apply B|eexists; reflexivity].
  - cbn [bind]. destruct (Pattern.regex pattern) as [re|];
      [now apply B|eexists; reflexivity].
Qed.

Lemma forPatterns_returns fuel pageNum fullText charMap customPattern
  patternNames :
  customProgresses customPattern ->
  length fullText + 2 <= fuel ->
  forall results,
  exists out,
    forPatterns fuel pageNum fullText charMap customPattern patternNames
      results = Returns out.
Proof.
  intros C Hf.
  induction patternNames as [|n names IH]; intros results;
    cbn [forPatterns]; [eexists; reflexivity|].
  destruct (searchPattern_returns fuel pageNum fullText charMap
              customPattern results n C Hf) as (r & ->).
  cbn [bind]. apply IH.
Qed.

Lemma forPages_returns fuel patternNames customPattern pages :
  customProgresses customPattern ->
  enoughFuel pages fuel ->
  forall pageNum results,
  exists out,
    forPages fuel pages pageNum patternNames customPattern results
    = Returns out.
Proof.
  intros C. induction pages as [|page pages IH]; intros Hf pageNum results;
    cbn [forPages]; [eexists; reflexivity|].
  rewrite buildCharMap_eq.
  destruct (forPatterns_returns fuel pageNum (indexText (Page.items page))
              (flat_map (runMap (Page.viewport page)) (Page.items page))
              customPattern patternNames C
              (Hf page (or_introl eq_refl)) results) as (r & ->).
  cbn [bind]. apply IH.
  intros p Hp. apply Hf. now right.
Qed.

(** The search returns when the custom pattern, if any, cannot match
    the empty string, given a bound on the loop that exceeds the length
    of every page's text by two. *)
Lemma searchPatterns_returns fuel pdfDoc patternNames customPattern :
  customProgresses customPattern ->
  match pdfDoc with Some pages => enoughFuel pages fuel | None => True end ->
  exists out,
    searchPatterns fuel pdfDoc patternNames customPattern = Returns out.
Proof.
  intros C Hf. destruct pdfDoc as [pages|]; cbn [searchPatterns];
    [|eexists; reflexivity].
  now apply forPages_returns.
Qed.

End Returns.

(** ** The custom pattern *)

Lemma escapeClass_syntax c : inEscapeClass c = isSyntaxCharacter c.
Proof.
  apply eq_true_iff_eq. unfold inEscapeClass, isSyntaxCharacter.
  rewrite !existsb_exists.
  split; intros (x & Hx & E); exists x; (split; [|exact E]);
    cbn in Hx |- *; intuition.
Qed.

Lemma escapeRegex_render s : escapeRegex s = flat_map renderLiteral s.
Proof.
  unfold escapeRegex, renderLiteral.
  induction s as [|c s IH]; [reflexivity|].
  cbn [flat_map]. now rewrite IH, escapeClass_syntax.
Qed.

Lemma minLen_literal p : minLen (literal p) = length p.
Proof.
  induction p as [|c p IH]; [reflexivity|].
  change (literal (c :: p)) with (Seq (Chr (CChar c)) (literal p)).
  cbn [minLen length]. now rewrite IH.
Qed.

Section Fallback.
Context `{Host}.
Hypothesis contract : acceptsLiterals H.

Lemma rejected_not_empty p : RegExp_gi p = None -> p <> [].
Proof.
  intros E ->. pose proof (contract []) as C. cbn in C. congruence.
Qed.

Lemma customRegExp_fallback p :
  RegExp_gi p = None ->
  customRegExp p = Returns (mkRegExp (literal p) true).
Proof.
  intros E. unfold customRegExp.
  now rewrite E, escapeRegex_render, contract.
Qed.

Lemma fallback_progresses p :
  RegExp_gi p = None -> customProgresses (Some p).
Proof.
  intros E. unfold customProgresses.
  pose proof (rejected_not_empty p E) as N.
  destruct p as [|c p]; [congruence|]. cbn [truthy].
  exists (mkRegExp (literal (c :: p)) true).
  split; [now apply customRegExp_fallback|].
  unfold progresses. cbn [source]. rewrite minLen_literal. simpl. lia.
Qed.

End Fallback.

(** ** The concrete host meets the contract *)

Lemma isChar_eq s c : isChar s c = true -> c = ch s.
Proof. unfold isChar. apply N.eqb_eq. Qed.

Lemma not_syntax_not_char s c :
  isSyntaxCharacter (ch s) = true ->
  isSyntaxCharacter c = false -> isChar s c = false.
Proof.
  intros Hs Hc. destruct (isChar s c) eqn:E; [|reflexivity].
  apply isChar_eq in E. congruence.
Qed.

Lemma render_head_not_quantifier q s rest :
  isSyntaxCharacter (ch q) = true -> ch q <> BACKSLASH ->
  forall c, flat_map renderLiteral s = c :: rest -> isChar q c = false.
Proof.
  intros Hq Hb c E. destruct s as [|d s]; [discriminate|].
  cbn [flat_map] in E. unfold renderLiteral in E.
  destruct (isSyntaxCharacter d) eqn:D; cbn [app] in E;
    injection E as <- _.
  - unfold isChar. apply N.eqb_neq. congruence.
  - now apply not_syntax_not_char.
Qed.

Lemma parseQuantifier_literal a s :
  parseQuantifier a (flat_map renderLiteral s)
  = Some (a, flat_map renderLiteral s).
Proof.
  destruct (flat_map renderLiteral s) as [|c rest] eqn:E; [reflexivity|].
  unfold parseQuantifier.
  rewrite (render_head_not_quantifier "*" s rest eq_refl ltac:(discriminate) c E).
  rewrite (render_head_not_quantifier "+" s rest eq_refl ltac:(discriminate) c E).
  rewrite (render_head_not_quantifier "?" s rest eq_refl ltac:(discriminate) c E).
  reflexivity.
Qed.

Lemma parseAlternative_cons n c s :
  parseAlternative (S n) (c :: s)
  = if isChar "|" c || isChar ")" c then Some (Eps, c :: s)
    else match parseTerm n (c :: s) with
         | Some (r, rest) =>
             match parseAlternative n rest with
             | Some (r', rest') => Some (Seq r r', rest')
             | None => None
             end
         | None => None
         end.
Proof. reflexivity. Qed.

Lemma parseTerm_escape n e rest :
  isSyntaxCharacter e = true ->
  parseTerm (S n) (BACKSLASH :: e :: rest)
  = parseQuantifier (Chr (CChar e)) rest.
Proof.
  intros D. cbn [parseTerm].
  change (isChar "(" BACKSLASH) with false.
  change (isChar "\" BACKSLASH) with true.
  cbv iota. unfold parseEscape. now rewrite D.
Qed.

Lemma parseTerm_char n c rest :
  isSyntaxCharacter c = false ->
  parseTerm (S n) (c :: rest) = parseQuantifier (Chr (CChar c)) rest.
Proof.
  intros D. cbn [parseTerm].
  rewrite (not_syntax_not_char "(" c eq_refl D),
    (not_syntax_not_char "\" c eq_refl D),
    (not_syntax_not_char "." c eq_refl D), D.
  reflexivity.
Qed.

Lemma parseAlternative_literal s : forall n,
  length s + 1 <= n ->
  parseAlternative n (flat_map renderLiteral s) = Some (literal s, []).
Proof.
  induction s as [|c s IH]; intros n Hn.
  - destruct n as [|n]; [simpl in Hn; lia|reflexivity].
  - destruct n as [|[|n]]; [simpl in Hn; lia|simpl in Hn; lia|].
    assert (Hn' : length s + 1 <= S n) by (simpl in Hn; lia).
    change (literal (c :: s)) with (Seq (Chr (CChar c)) (literal s)).
    cbn [flat_map]. unfold renderLiteral at 1.
    destruct (isSyntaxCharacter c) eqn:D; cbn [app];
      rewrite parseAlternative_cons.
    + change (isChar "|" BACKSLASH || isChar ")" BACKSLASH) with false.
      cbv iota.
      rewrite (parseTerm_escape n c _ D), parseQuantifier_literal,
        (IH (S n) Hn').
      reflexivity.
    + rewrite (not_syntax_not_char "|" c eq_refl D),
        (not_syntax_not_char ")" c eq_refl D).
      cbn [orb].
      rewrite (parseTerm_char n c _ D), parseQuantifier_literal,
        (IH (S n) Hn').
      reflexivity.
Qed.

Lemma flat_map_render_length s :
  length s <= length (flat_map renderLiteral s).
Proof.
  induction s as [|c s IH]; [reflexivity|].
  cbn [flat_map]. rewrite length_app. unfold renderLiteral in *.
  destruct (isSyntaxCharacter c); cbn [length]; lia.
Qed.

Lemma browser_acceptsLiterals : acceptsLiterals browser.
Proof.
  intros s. cbn. unfold RegExp_fragment.
  pose proof (flat_map_render_length s) as L.
  replace (4 * length (flat_map renderLiteral s) + 4)
    with (S (4 * length (flat_map renderLiteral s) + 3)) by lia.
  cbn [parseDisjunction].
  rewrite parseAlternative_literal by lia. reflexivity.
Qed.

Section LiteralScan.
Context `{Host}.

Lemma ciPrefix_length p : forall txt,
  ciPrefix p txt = true -> length p <= length txt.
Proof.
  induction p as [|a p IH]; intros txt E; [cbn; lia|].
  destruct txt as [|c txt]; [discriminate|].
  cbn [ciPrefix] in E. apply andb_prop in E. destruct E as [_ E].
  apply IH in E. cbn [length]. lia.
Qed.

Lemma occursAt_bound p txt j :
  occursAt p txt j = true -> j + length p <= length txt \/ p = [].
Proof.
  unfold occursAt. intros E. apply ciPrefix_length in E.
  rewrite length_skipn in E. destruct p as [|a p]; [now right|left].
  cbn [length] in *. lia.
Qed.

Lemma skipn_tail {A : Type} (l : list A) j c rest :
  skipn j l = c :: rest -> skipn (S j) l = rest.
Proof.
  revert l. induction j as [|j IH]; intros l E.
  - cbn in E. subst l. reflexivity.
  - destruct l as [|a l]; [discriminate|]. cbn [skipn] in *. now apply IH.
Qed.

(** The characters of an occurrence are passed over. *)
Lemma literalScan_skip p txt skip : forall j,
  j + skip <= length txt ->
  literalScan p (skipn j txt) j skip
  = literalScan p (skipn (j + skip) txt) (j + skip) 0.
Proof.
  induction skip as [|skip IH]; intros j L; [now rewrite Nat.add_0_r|].
  destruct (skipn j txt) as [|c rest] eqn:E.
  - apply (f_equal (@length _)) in E. rewrite length_skipn in E.
    cbn [length] in E. lia.
  - cbn [literalScan]. rewrite <- (skipn_tail txt j c rest E).
    rewrite IH by lia. now rewrite Nat.add_succ_r.
Qed.

(** Where the string does not occur the reading moves on. *)
Lemma literalScan_pass p txt j : forall from,
  from <= j -> j <= length txt ->
  (forall j', from <= j' < j -> occursAt p txt j' = false) ->
  literalScan p (skipn from txt) from 0 = literalScan p (skipn j txt) j 0.
Proof.
  induction j as [|j IH]; intros from F L N.
  - now replace from with 0 by lia.
  - destruct (Nat.eq_dec from (S j)) as [->|D]; [reflexivity|].
    rewrite (IH from) by (try lia; intros j' Hj'; apply N; lia).
    destruct (skipn j txt) as [|c rest] eqn:E.
    + apply (f_equal (@length _)) in E. rewrite length_skipn in E.
      cbn [length] in E. lia.
    + cbn [literalScan]. rewrite <- E.
      pose proof (N j ltac:(lia)) as O. unfold occursAt in O. rewrite O.
      now rewrite (skipn_tail txt j c rest E).
Qed.

Lemma literalScan_found p txt j :
  p <> [] -> occursAt p txt j = true ->
  literalScan p (skipn j txt) j 0
  = j :: literalScan p (skipn (j + length p) txt) (j + length p) 0.
Proof.
  intros P O. destruct (occursAt_bound p txt j O) as [L|E]; [|now elim P].
  destruct p as [|a p]; [now elim P|]. cbn [length] in *.
  destruct (skipn j txt) as [|c rest] eqn:E.
  - apply (f_equal (@length _)) in E. rewrite length_skipn in E.
    cbn [length] in E. lia.
  - cbn [literalScan]. rewrite <- E. unfold occursAt in O. rewrite O.
    rewrite <- (skipn_tail txt j c rest E).
    cbn [length]. rewrite Nat.sub_succ, Nat.sub_0_r.
    rewrite literalScan_skip by lia. f_equal. f_equal; [f_equal|]; lia.
Qed.

Lemma literalScan_none p txt from :
  (forall j, from <= j <= length txt -> occursAt p txt j = false) ->
  literalScan p (skipn from txt) from 0 = [].
Proof.
  intros N. destruct (Nat.le_gt_cases from (length txt)) as [L|L].
  - rewrite (literalScan_pass p txt (length txt) from L (Nat.le_refl _))
      by (intros j' Hj'; apply N; lia).
    now rewrite skipn_all.
  - now rewrite skipn_all2 by lia.
Qed.

(** The loop of the search with the literal pattern reports the
    occurrences that the reading finds. *)
Lemma matchLoop_literal p pageNum fullText charMap :
  p <> [] ->
  forall fuel lastIndex results,
    1 <= fuel ->
    length fullText + 2 <= fuel + lastIndex ->
    matchLoop fuel (mkRegExp (literal p) true) (fun _ => true) pageNum
      "custom" fullText charMap lastIndex results
    = Returns
        (results
         ++ flat_map (literalMatch p pageNum fullText charMap)
              (literalScan p (skipn lastIndex fullText) lastIndex 0)).
Proof.
  intros P. induction fuel as [|fuel IH]; intros lastIndex results F1 F;
    [lia|].
  cbn [matchLoop].
  destruct (exec (mkRegExp (literal p) true) fullText lastIndex)
    as [[j e]|] eqn:X.
  - apply exec_literal_Some in X as (L & -> & O & N).
    destruct (occursAt_bound p fullText j O) as [B|E]; [|now elim P].
    assert (P1 : 1 <= length p) by (destruct p; [now elim P|cbn; lia]).
    rewrite (literalScan_pass p fullText j lastIndex L ltac:(lia) N).
    rewrite (literalScan_found p fullText j P O). cbn [flat_map negb].
    assert (Len : length (substring fullText j (j + length p)) = length p).
    { unfold substring. rewrite length_firstn, length_skipn. lia. }
    rewrite Len. unfold literalMatch at 1.
    destruct (getRectsForRange charMap j (j + length p)) as [|r rects];
      cbn [length Nat.ltb Nat.leb app].
    + apply IH; lia.
    + rewrite IH by lia. now rewrite <- app_assoc.
  - rewrite (literalScan_none p fullText lastIndex (exec_literal_None _ _ _ X)).
    cbn [flat_map]. now rewrite app_nil_r.
Qed.

End LiteralScan.

Section FallbackSearch.
Context `{Host}.
Hypothesis contract : acceptsLiterals H.

Lemma searchPattern_literal p fuel pageNum fullText charMap results :
  RegExp_gi p = None ->
  length fullText + 2 <= fuel ->
  searchPattern fuel pageNum fullText charMap (Some p) results "custom"
  = Returns (results ++ literalMatches p pageNum fullText charMap).
Proof.
  intros E F. pose proof (rejected_not_empty contract p E) as P.
  unfold searchPattern.
  change (lookupPattern "custom" REDACTION_PATTERNS)
    with (Some (Pattern.mk "Custom Pattern"
                  "Enter your own regex or text to find" None
                  (fun _ : jsstring => true))).
  cbv beta iota. replace (String.eqb "custom" "custom") with true
    by reflexivity.
  destruct p as [|c p]; [now elim P|]. cbn [truthy].
  rewrite (customRegExp_fallback contract (c :: p) E). cbn [bind].
  cbn [Pattern.validate].
  rewrite (matchLoop_literal (c :: p) pageNum fullText charMap P fuel 0
             results) by lia.
  reflexivity.
Qed.

Lemma forPages_literal p fuel pages : forall pageNum results,
  RegExp_gi p = None -> enoughFuel pages fuel ->
  forPages fuel pages pageNum ["custom"%string] (Some p) results
  = Returns (results ++ literalSearch p pages pageNum).
Proof.
  induction pages as [|page pages IH]; intros pageNum results E F;
    cbn [forPages literalSearch]; [now rewrite app_nil_r|].
  assert (Fp : length (fst (buildCharMap (Page.items page)
                              (Page.viewport page))) + 2 <= fuel).
  { rewrite buildCharMap_eq. cbn [fst]. apply F. now left. }
  destruct (buildCharMap (Page.items page) (Page.viewport page))
    as [fullText charMap]. cbn [fst snd] in *. cbn [forPatterns].
  rewrite (searchPattern_literal p fuel pageNum fullText charMap results E Fp).
  cbn [bind]. rewrite IH; [now rewrite <- app_assoc|exact E|].
  intros q Hq. apply F. now right.
Qed.

End FallbackSearch.

(** C5: a custom pattern that the RegExp constructor rejects does not
    make the search throw: it is searched as the literal sequence of its
    characters, every syntax character escaped, under the flags [gi] of
    the search, that is up to letter case.  The pattern compiled is the
    literal; each iteration of the search for ['custom'] adds to the
    results the occurrences of the supplied string in the text of the
    page, as the literal search reads them from left to right, each
    with the rectangles of its span; the search for ['custom'] alone
    returns the literal search of the pages; and the search returns for
    every list of pattern names. *)
Theorem invalid_custom_pattern_literal_fallback `{Host} (p : jsstring) :
  acceptsLiterals H ->
  RegExp_gi p = None ->
  customRegExp p = Returns (mkRegExp (literal p) true)
  /\ (forall fuel pageNum fullText charMap results,
        length fullText + 2 <= fuel ->
        searchPattern fuel pageNum fullText charMap (Some p) results "custom"
        = Returns (results ++ literalMatches p pageNum fullText charMap))
  /\ (forall fuel pages,
        enoughFuel pages fuel ->
        searchPatterns fuel (Some pages) ["custom"%string] (Some p)
        = Returns (literalSearch p pages 1))
  /\ (forall fuel pdfDoc patternNames,
        match pdfDoc with
        | Some pages => enoughFuel pages fuel
        | None => True
        end ->
        exists out,
          searchPatterns fuel pdfDoc patternNames (Some p) = Returns out).
Proof.
  intros C E. split; [now apply customRegExp_fallback|].
  split; [intros; now apply searchPattern_literal|].
  split.
  - intros fuel pages F. cbn [searchPatterns].
    now rewrite (forPages_literal C p fuel pages 1 [] E F).
  - intros fuel pdfDoc names Hf.
    apply searchPatterns_returns; [|exact Hf].
    now apply fallback_progresses.
Qed.

(** The fallback for the pattern ["(abc"], whose parenthesis is not
    closed, on a page with the text ["(ABC"]: the occurrence in capital
    letters is the match reported. *)
Lemma invalid_custom_pattern_literal_fallback_witness :
  acceptsLiterals browser
  /\ RegExp_gi (Host := browser) (js "(abc") = None
  /\ enoughFuel [upperPage] 7
  /\ searchPatterns (H := browser) 7 (Some [upperPage]) ["custom"%string]
       (Some (js "(abc"))
     = Returns (literalSearch (H := browser) (js "(abc") [upperPage] 1)
  /\ map Match.text (literalSearch (H := browser) (js "(abc") [upperPage] 1)
     = [js "(ABC"].
Proof.
  assert (F : enoughFuel [upperPage] 7)
    by (intros page [<-|[]]; vm_compute; lia).
  split; [exact browser_acceptsLiterals|].
  split; [reflexivity|].
  split; [exact F|].
  destruct (invalid_custom_pattern_literal_fallback (H := browser)
              (js "(abc") browser_acceptsLiterals eq_refl)
    as (_ & _ & S & _).
  split; [exact (S 7 [upperPage] F)|reflexivity].
Defined.

(** ** Searching pages without text *)

Section EmptyText.
Context `{Host}.

Lemma matchR_nil ic r : forall i k e,
  matchR ic r [] i k = Some e -> k i = Some e.
Proof.
  induction r as [|cl|r1 IH1 r2 IH2|r1 IH1 r2 IH2|r IH|];
    intros i k e; cbn [matchR].
  - trivial.
  - now destruct i.
  - intros E. apply IH1 in E. now apply IH2 in E.
  - destruct (matchR ic r1 [] i k) as [e1|] eqn:E1.
    + intros [= <-]. now apply IH1.
    + apply IH2.
  - generalize (S (@length char16 [])) as n. intros n.
    induction n as [|n IHn]; cbn [starIter]; [trivial|].
    destruct (matchR ic r [] i _) as [e1|] eqn:E1; [|trivial].
    apply IH in E1. now rewrite Nat.eqb_refl in E1.
  - unfold atWordBoundary, wordAt. destruct i as [|i]; cbn.
    + discriminate.
    + destruct i; discriminate.
Qed.

Lemma exec_nil re lastIndex :
  progresses re -> exec re [] lastIndex = None.
Proof.
  intros P. destruct (exec re [] lastIndex) as [[j e]|] eqn:E;
    [|reflexivity].
  apply exec_Some in E as (_ & M & _).
  pose proof (matchR_minLen _ _ _ _ _ _ M) as (j' & L & [= <-]).
  apply matchR_nil in M. injection M as <-.
  unfold progresses in P. lia.
Qed.

Lemma searchPattern_nil fuel pageNum charMap customPattern results
  patternName :
  customProgresses customPattern ->
  searchPattern (S fuel) pageNum [] charMap customPattern results patternName
  = Returns results.
Proof.
  intros C. unfold searchPattern.
  destruct (lookupPattern patternName REDACTION_PATTERNS) as [pattern|] eqn:L;
    [|reflexivity].
  assert (B : forall re, Pattern.regex pattern = Some re ->
              matchLoop (S fuel) re (Pattern.validate pattern) pageNum
                patternName [] charMap 0 results = Returns results).
  { intros re E. cbn [matchLoop]. rewrite exec_nil; [reflexivity|].
    eapply table_progresses; eassumption. }
  unfold customProgresses in C.
  destruct (String.eqb patternName "custom");
    [destruct (truthy customPattern) as [p|]|].
  - destruct C as (re & -> & P). cbn [bind matchLoop].
    now rewrite exec_nil.
  - cbn [bind]. destruct (Pattern.regex pattern) as [re|];
      [now apply B|reflexivity].
  - cbn [bind]. destruct (Pattern.regex pattern) as [re|];
      [now apply B|reflexivity].
Qed.

Lemma forPatterns_nil fuel pageNum charMap customPattern patternNames
  results :
  customProgresses customPattern ->
  forPatterns (S fuel) pageNum [] charMap customPattern patternNames results
  = Returns results.
Proof.
  intros C. induction patternNames as [|n names IH]; cbn [forPatterns];
    [reflexivity|].
  rewrite searchPattern_nil by exact C. exact IH.
Qed.

(** On pages without text items the search returns no match, for the
    patterns of the table and for a custom pattern that cannot match the
    empty string. *)
Lemma empty_pages_no_match fuel pages patternNames customPattern :
  customProgresses customPattern ->
  Forall (fun page => Page.items page = []) pages ->
  searchPatterns (S fuel) (Some pages) patternNames customPattern
  = Returns [].
Proof.
  intros C Hp. cbn [searchPatterns]. generalize 1 as pageNum.
  induction Hp as [|page pages E _ IH]; intros pageNum; cbn [forPages];
    [reflexivity|].
  rewrite E.
  change (buildCharMap [] (Page.viewport page))
    with (@nil char16, @nil (option CharPos.t)).
  cbv iota beta.
  rewrite forPatterns_nil by exact C. cbn [bind]. apply IH.
Qed.

End EmptyText.

(** C9, at the failing input: on a page without text items, a custom
    pattern that matches the empty string ([a*]) keeps the [while] loop
    of [searchPatterns] at [lastIndex = 0]; the search returns for no
    bound on the number of iterations. *)
Theorem empty_page_custom_star_never_returns :
  RegExp_gi (Host := browser) (js "a*") = Some (Seq (Star (chr "a")) Eps)
  /\ buildCharMap (H := browser) (Page.items emptyPage)
       (Page.viewport emptyPage) = ([], [])
  /\ exec (H := browser) (mkRegExp (Seq (Star (chr "a")) Eps) true) [] 0
     = Some (0, 0)
  /\ forall fuel,
       searchPatterns (H := browser) fuel (Some [emptyPage])
         ["custom"%string] (Some (js "a*"))
       = OutOfFuel.
Proof.
  repeat split; try reflexivity.
  intros fuel. cbn [searchPatterns forPages emptyPage Page.items Page.viewport].
  change (buildCharMap (H := browser) [] exampleViewport) with
    (@nil char16, @nil (option CharPos.t)).
  cbn [forPatterns].
  assert (L : forall f, matchLoop (H := browser) f
                (mkRegExp (Seq (Star (chr "a")) Eps) true) (fun _ => true)
                1 "custom" [] [] 0 [] = OutOfFuel).
  { induction f as [|f IH]; [reflexivity|]. exact IH. }
  change (searchPattern (H := browser) fuel 1 [] [] (Some (js "a*")) []
            "custom")
    with (matchLoop (H := browser) fuel
            (mkRegExp (Seq (Star (chr "a")) Eps) true) (fun _ => true)
            1 "custom" [] [] 0 []).
  now rewrite L.
Qed.

(** ** What the search reports *)

(** C10: every element of the array returned by [searchPatterns] has a
    non-empty [rects] (and the search does return, whenever the custom
    pattern cannot match the empty string); a span of the character map
    that holds only null entries has no rectangle, and a match on such a
    span, though it passes its validator, leaves the results as they
    were. *)
Theorem searchPatterns_results_have_rects :
  (forall (H : Host) fuel pdfDoc patternNames customPattern out,
      searchPatterns fuel pdfDoc patternNames customPattern = Returns out ->
      Forall hasRects out)
  /\ (forall (H : Host) fuel pdfDoc patternNames customPattern,
        customProgresses customPattern ->
        match pdfDoc with
        | Some pages => enoughFuel pages fuel
        | None => True
        end ->
        exists out,
          searchPatterns fuel pdfDoc patternNames customPattern
          = Returns out)
  /\ (forall charMap startIdx endIdx,
        Forall (fun entry => entry = None) (slice charMap startIdx endIdx) ->
        getRectsForRange charMap startIdx endIdx = [])
  /\ (forall (H : Host) fuel re validate pageNum patternName fullText charMap
             lastIndex results index lastIndex',
        exec re fullText lastIndex = Some (index, lastIndex') ->
        validate (substring fullText index lastIndex') = true ->
        Forall (fun entry => entry = None)
          (slice charMap index
             (index + length (substring fullText index lastIndex'))) ->
        matchLoop (S fuel) re validate pageNum patternName fullText charMap
          lastIndex results
        = matchLoop fuel re validate pageNum patternName fullText charMap
            lastIndex' results)
  /\ (exec (H := browser) (mkRegExp (literal [SPACE]) true)
        (fst (buildCharMap (H := browser) (Page.items blankPage)
                (Page.viewport blankPage))) 0
      = Some (0, 1)
      /\ searchPatterns (H := browser) 3 (Some [blankPage]) ["custom"%string]
           (Some [SPACE])
         = Returns []).
Proof.
  split; [|split; [|split; [|split]]].
  - intros H fuel [pages|] names custom out; cbn [searchPatterns].
    + apply forPages_hasRects. constructor.
    + intros [= <-]. constructor.
  - intros H fuel pdfDoc names custom C Hf.
    now apply searchPatterns_returns.
  - intros charMap startIdx endIdx Hnull.
    rewrite getRectsForRange_walk. now apply walkSpec_all_null.
  - intros H fuel re validate pageNum patternName fullText charMap
      lastIndex results index lastIndex' Hexec Hval Hnull.
    cbn [matchLoop]. rewrite Hexec, Hval. cbn [negb].
    rewrite getRectsForRange_walk, (walkSpec_all_null _ _ Hnull).
    reflexivity.
  - split; reflexivity.
Qed.


(** The results of a search of the two runs ["123-45"] and ["6789"] for
    SSNs: one match, with rectangles. *)
Lemma searchPatterns_results_have_rects_witness :
  searchPatterns (H := browser) 5
    (Some [Page.mk [runA; runB] exampleViewport]) ["ssn"%string] None
  = Returns
      [Match.mk 1 "ssn" (js "123-45 6789")
         (getRectsForRange
            (snd (buildCharMap (H := browser) [runA; runB] exampleViewport))
            0 11)]
  /\ Forall hasRects
       [Match.mk 1 "ssn" (js "123-45 6789")
          (getRectsForRange
             (snd (buildCharMap (H := browser) [runA; runB] exampleViewport))
             0 11)].
Proof.
  assert (E : searchPatterns (H := browser) 5
                (Some [Page.mk [runA; runB] exampleViewport])
                ["ssn"%string] None
              = Returns
                  [Match.mk 1 "ssn" (js "123-45 6789")
                     (getRectsForRange
                        (snd (buildCharMap (H := browser) [runA; runB]
                                exampleViewport)) 0 11)])
    by reflexivity.
  split; [exact E|].
  exact (proj1 searchPatterns_results_have_rects browser 5 _ _ _ _ E).
Defined.


(* ================================================================= *)
(** * Part III: further properties of the code *)
(* ================================================================= *)

(** ** Transforms *)


(** ** Rectangles and positioned characters *)

Lemma walkSpec_open_nonempty test entries : forall r,
  walkSpec test (Some r) entries <> [].
Proof.
  induction entries as [|[p|] entries IH]; intros r; cbn [walkSpec].
  - discriminate.
  - destruct (test p r); [apply IH|discriminate].
  - discriminate.
Qed.

Lemma walkSpec_empty_iff test entries :
  walkSpec test None entries = []
  <-> Forall (fun entry => entry = None) entries.
Proof.
  split; [|apply walkSpec_all_null].
  induction entries as [|[p|] entries IH]; cbn [walkSpec]; intros E.
  - constructor.
  - exfalso. exact (walkSpec_open_nonempty test entries (rectOf p) E).
  - constructor; [reflexivity|now apply IH].
Qed.

Lemma positioned_cons entry entries :
  positioned (entry :: entries)
  = match entry with Some _ => 1 | None => 0 end + positioned entries.
Proof. destruct entry; reflexivity. Qed.

Lemma walkSpec_count test entries : forall open,
  length (walkSpec test open entries)
  <= positioned entries + match open with Some _ => 1 | None => 0 end.
Proof.
  induction entries as [|entry entries IH]; intros open.
  - destruct open; cbn; lia.
  - rewrite positioned_cons.
    destruct entry as [p|], open as [r|]; cbn [walkSpec].
    + destruct (test p r); cbn [length].
      * specialize (IH (Some (extendRect r p))). cbv iota in IH. lia.
      * specialize (IH (Some (rectOf p))). cbv iota in IH. lia.
    + specialize (IH (Some (rectOf p))). cbv iota in IH. lia.
    + cbn [length]. specialize (IH None). cbv iota in IH. lia.
    + specialize (IH None). cbv iota in IH. lia.
Qed.

(** X2: the rectangles of a span are at most as many as its entries that
    carry a box, and there is none exactly when every entry of the span
    is null. *)
Theorem rects_and_positioned_chars charMap startIdx endIdx :
  length (getRectsForRange charMap startIdx endIdx)
  <= positioned (slice charMap startIdx endIdx)
  /\ (getRectsForRange charMap startIdx endIdx = []
      <-> Forall (fun entry => entry = None)
            (slice charMap startIdx endIdx)).
Proof.
  rewrite getRectsForRange_walk. split.
  - pose proof (walkSpec_count sameLine (slice charMap startIdx endIdx) None)
      as Hc.
    cbv iota in Hc. lia.
  - apply walkSpec_empty_iff.
Qed.

Lemma slice_clip {A : Type} (l : list A) s e :
  slice l s e = slice l s (Nat.min e (length l)).
Proof.
  unfold slice.
  destruct (Nat.le_gt_cases e (length l)) as [He|He].
  - now rewrite Nat.min_l by lia.
  - rewrite Nat.min_r by lia.
    rewrite !firstn_all2; trivial; rewrite length_skipn; lia.
Qed.

(** X3: a range that is empty or starts at or after the end of the
    character map has no rectangle, and an end index beyond the map
    counts as the length of the map. *)
Theorem getRectsForRange_bounds charMap startIdx endIdx :
  (endIdx <= startIdx -> getRectsForRange charMap startIdx endIdx = [])
  /\ (length charMap <= startIdx ->
      getRectsForRange charMap startIdx endIdx = [])
  /\ getRectsForRange charMap startIdx endIdx
     = getRectsForRange charMap startIdx (Nat.min endIdx (length charMap)).
Proof.
  rewrite !getRectsForRange_walk. split; [|split].
  - intros Hle. unfold slice.
    replace (endIdx - startIdx) with 0 by lia. reflexivity.
  - intros Hle. unfold slice. rewrite skipn_all2 by lia.
    now rewrite firstn_nil.
  - now rewrite <- slice_clip.
Qed.

(** ** Characters and rectangles of one run *)






Section OneRun.
Context `{Host}.
Variable viewport : Viewport.t.
Variable item : TextItem.t.
Variable s : jsstring.

Lemma itemBoxes_runBox :
  itemBoxes viewport item s = map (runBox viewport item s) (seq 0 (length s)).
Proof.
  unfold itemBoxes, runBox.
  destruct s as [|c s']; [reflexivity|]. reflexivity.
Qed.



End OneRun.



(** X5: the character [i] of a run is found in the text at the offset
    of the run plus [i], and the character map holds there the box of
    that character: the [i]-th of the equal parts into which the width
    of the run is divided, at the top edge and with the height of the
    run. *)
Theorem charMap_lookup `{Host} (viewport : Viewport.t)
  (pre post : list TextItem.t) (item : TextItem.t) (s : jsstring)
  (i : nat) :
  TextItem.str item = Some s ->
  i < length s ->
  nth_error (fst (buildCharMap (pre ++ item :: post) viewport))
    (length (indexText pre) + i)
  = nth_error s i
  /\ nth_error (snd (buildCharMap (pre ++ item :: post) viewport))
       (length (indexText pre) + i)
     = Some (Some (runBox viewport item s i)).
Proof.
  intros E Hi. rewrite buildCharMap_eq. cbn [fst snd]. split.
  - rewrite indexText_app, nth_error_app2 by lia.
    replace (length (indexText pre) + i - length (indexText pre)) with i
      by lia.
    cbn [indexText flat_map]. unfold runText. rewrite E.
    rewrite <- app_assoc. now rewrite nth_error_app1 by lia.
  - rewrite flat_map_app, nth_error_app2
      by (rewrite flat_runMap_length; lia).
    rewrite flat_runMap_length.
    replace (length (indexText pre) + i - length (indexText pre)) with i
      by lia.
    cbn [flat_map]. unfold runMap at 1. rewrite E, itemChars_boxes.
    rewrite <- app_assoc,
      nth_error_app1 by (rewrite length_map, itemBoxes_length; lia).
    rewrite itemBoxes_runBox, map_map, nth_error_map, nth_error_seq.
    apply Nat.ltb_lt in Hi. now rewrite Hi.
Qed.

(** The fourth character of the first example run. *)
Lemma charMap_lookup_witness :
  TextItem.str runA = Some (js "123-45")
  /\ 3 < length (js "123-45")
  /\ nth_error
       (fst (buildCharMap (H := browser) ([] ++ runA :: [runB])
               exampleViewport)) 3
     = Some DASH.
Proof.
  assert (L : 3 < length (js "123-45")) by (cbn; lia).
  split; [reflexivity|]. split; [exact L|].
  exact (proj1 (charMap_lookup (H := browser) exampleViewport [] [runB]
                  runA (js "123-45") 3 eq_refl L)).
Defined.

(** ** Validators, beyond the matches of their patterns *)

Lemma parseInt_not_digit c :
  isDigit c = false -> parseInt [c] (Some 10%Z) = NaN.
Proof.
  intros Hc. unfold parseInt. cbn [trimStart].
  destruct (isSpace c); [reflexivity|].
  destruct (c =? 45)%N; [reflexivity|].
  destruct (c =? 43)%N; [reflexivity|].
  cbn [parseDigits]. unfold digitValue.
  unfold isDigit in Hc. rewrite Hc.
  destruct ((97 <=? c)%N && (c <=? 122)%N) eqn:Lo.
  - apply andb_true_iff in Lo as [L1 L2].
    apply N.leb_le in L1.
    replace (Z.of_N c - 87 <? 10)%Z with false
      by (symmetry; apply Z.ltb_ge; lia).
    reflexivity.
  - destruct ((65 <=? c)%N && (c <=? 90)%N) eqn:Up; [|reflexivity].
    apply andb_true_iff in Up as [L1 L2].
    apply N.leb_le in L1.
    replace (Z.of_N c - 55 <? 10)%Z with false
      by (symmetry; apply Z.ltb_ge; lia).
    reflexivity.
Qed.

Lemma luhnLoop_NaN num k : forall alt, luhnLoop num k NaN alt = NaN.
Proof.
  induction k as [|k IH]; intros alt; cbn [luhnLoop]; [reflexivity|].
  apply IH.
Qed.

Lemma num_add_NaN_r a : num_add a NaN = NaN.
Proof. now destruct a. Qed.

Lemma luhnLoop_number num k : forall sum alt v,
  luhnLoop num k sum alt = Some v ->
  forall i c, i < k -> nth_error num i = Some c -> isDigit c = true.
Proof.
  induction k as [|k IH]; intros sum alt v E i c Hi Hc; [lia|].
  cbn [luhnLoop] in E.
  destruct (Nat.eq_dec i k) as [->|Hne].
  - destruct (isDigit c) eqn:D; [reflexivity|exfalso].
    unfold charAt in E. rewrite Hc, (parseInt_not_digit c D) in E.
    assert (N : (if alt
                 then if num_gt (num_mul NaN 2) 9
                      then num_sub (num_mul NaN 2) 9
                      else num_mul NaN 2
                 else NaN) = NaN) by (destruct alt; reflexivity).
    rewrite N, num_add_NaN_r, luhnLoop_NaN in E. discriminate.
  - eapply IH; [exact E| |exact Hc]. lia.
Qed.

(** X6: [luhnCheck] accepts no string that holds a character other than
    a decimal digit: such a character parses to NaN, which the sum
    keeps. *)
Theorem luhnCheck_only_digits (num : jsstring) :
  luhnCheck num = true -> forallb isDigit num = true.
Proof.
  unfold luhnCheck. intros E.
  destruct (luhnLoop num (length num) (Some 0%Z) false) as [v|] eqn:L;
    [|discriminate].
  apply forallb_forall. intros c Hc.
  apply In_nth_error in Hc as (i & Hi).
  eapply luhnLoop_number; [exact L| |exact Hi].
  apply nth_error_Some. congruence.
Qed.

(** A valid card number, which holds digits only. *)
Lemma luhnCheck_only_digits_witness :
  luhnCheck (js "4532015112830366") = true
  /\ forallb isDigit (js "4532015112830366") = true.
Proof.
  split; [reflexivity|].
  exact (luhnCheck_only_digits (js "4532015112830366") eq_refl).
Defined.

Lemma altSum_app l1 : forall alt l2,
  altSum alt (l1 ++ l2)
  = (altSum alt l1 + altSum (xorb alt (Nat.odd (length l1))) l2)%Z.
Proof.
  induction l1 as [|d l1 IH]; intros alt l2.
  - cbn. now rewrite xorb_false_r.
  - cbn [app altSum length]. rewrite IH, Nat.odd_succ.
    replace (xorb (negb alt) (Nat.odd (length l1)))
      with (xorb alt (Nat.even (length l1))).
    + lia.
    + rewrite <- Nat.negb_odd. now destruct alt, (Nat.odd (length l1)).
Qed.

Lemma luhnTerm_injective alt d d' :
  (0 <= d <= 9)%Z -> (0 <= d' <= 9)%Z -> d <> d' ->
  luhnTerm alt d <> luhnTerm alt d'
  /\ (0 <= luhnTerm alt d <= 9)%Z /\ (0 <= luhnTerm alt d' <= 9)%Z.
Proof.
  intros Hd Hd' Hne. unfold luhnTerm, luhnDouble.
  destruct alt; [|lia].
  destruct (9 <? 2 * d)%Z eqn:E1, (9 <? 2 * d')%Z eqn:E2;
    try apply Z.ltb_lt in E1; try apply Z.ltb_lt in E2;
    try apply Z.ltb_ge in E1; try apply Z.ltb_ge in E2; lia.
Qed.

Lemma digitOf_injective c c' :
  isDigit c = true -> isDigit c' = true -> c <> c' ->
  digitOf c <> digitOf c'.
Proof. unfold digitOf. intros _ _ Hne E. apply Hne. lia. Qed.

(** X7: [luhnCheck] detects every error in a single digit: replacing
    one digit of an accepted digit string by a different digit gives a
    string that is rejected. *)
Theorem luhnCheck_single_digit_error (pre post : jsstring) (c c' : char16) :
  forallb isDigit (pre ++ c :: post) = true ->
  isDigit c' = true ->
  c <> c' ->
  luhnCheck (pre ++ c :: post) = true ->
  luhnCheck (pre ++ c' :: post) = false.
Proof.
  intros D Dc' Hne V.
  assert (Dpre : forallb isDigit pre = true /\ isDigit c = true
                 /\ forallb isDigit post = true).
  { rewrite forallb_app in D. cbn in D.
    rewrite !andb_true_iff in D. tauto. }
  destruct Dpre as (Dpre & Dc & Dpost).
  assert (D' : forallb isDigit (pre ++ c' :: post) = true)
    by (rewrite forallb_app; cbn; now rewrite Dpre, Dc', Dpost).
  apply (luhnCheck_digits _ D) in V.
  destruct (luhnCheck (pre ++ c' :: post)) eqn:V'; [exfalso|reflexivity].
  apply (luhnCheck_digits _ D') in V'.
  unfold luhnValid in V, V'.
  rewrite (proj1 (luhnSum_altSum _)) in V.
  rewrite (proj1 (luhnSum_altSum _)) in V'.
  rewrite map_app, rev_app_distr in V. rewrite map_app, rev_app_distr in V'.
  cbn [map rev] in V, V'.
  rewrite <- !app_assoc in V. rewrite <- !app_assoc in V'.
  cbn [app] in V, V'.
  rewrite altSum_app in V. rewrite altSum_app in V'.
  cbn [altSum] in V, V'.
  set (b := xorb false (Nat.odd (length (rev (map digitOf post))))) in *.
  fold (luhnTerm b (digitOf c)) in V. fold (luhnTerm b (digitOf c')) in V'.
  destruct (luhnTerm_injective b (digitOf c) (digitOf c')
              (digit_bounds c Dc) (digit_bounds c' Dc')
              (digitOf_injective c c' Dc Dc' Hne)) as (Ne & B & B').
  set (A := altSum false (rev (map digitOf post))) in *.
  set (R := altSum (negb b) (rev (map digitOf pre))) in *.
  set (t := luhnTerm b (digitOf c)) in *.
  set (t' := luhnTerm b (digitOf c')) in *.
  assert (M : ((t - t') mod 10 = 0)%Z).
  { replace (t - t')%Z with ((A + (t + R)) - (A + (t' + R)))%Z by lia.
    rewrite Zminus_mod, V, V'. reflexivity. }
  apply Z.mod_divide in M; [|lia].
  destruct M as [q Hq]. lia.
Qed.

(** The valid card number of the examples, its last digit 6 replaced by
    7. *)
Lemma luhnCheck_single_digit_error_witness :
  forallb isDigit (js "453201511283036" ++ ch "6" :: []) = true
  /\ isDigit (ch "7") = true
  /\ ch "6" <> ch "7"
  /\ luhnCheck (js "453201511283036" ++ ch "6" :: []) = true
  /\ luhnCheck (js "453201511283036" ++ ch "7" :: []) = false.
Proof.
  assert (Ne : ch "6" <> ch "7") by discriminate.
  do 2 (split; [reflexivity|]). split; [exact Ne|].
  split; [reflexivity|].
  exact (luhnCheck_single_digit_error (js "453201511283036") [] (ch "6")
           (ch "7") eq_refl eq_refl Ne eq_refl).
Defined.

Section PhoneMatches.
Context `{Host}.

Lemma stripNonDigits_app s t :
  stripNonDigits (s ++ t) = stripNonDigits s ++ stripNonDigits t.
Proof. apply filter_app. Qed.

Lemma matchesText_chr x s :
  matchesText false (chr x) s -> s = [ch x].
Proof.
  intros (c & -> & M). cbn in M. apply N.eqb_eq in M. now subst.
Qed.

Lemma matchesText_opt_chr x s :
  isDigit (ch x) = false ->
  matchesText false (opt (chr x)) s -> stripNonDigits s = [].
Proof.
  intros D [M| ->]; [|reflexivity].
  apply matchesText_chr in M. subst. cbn. now rewrite D.
Qed.

Lemma phoneSep_not_digit c :
  cmem false phoneSepClass c = true -> isDigit c = false.
Proof.
  unfold phoneSepClass. cbn [cmem]. intros M.
  destruct (isDigit c) eqn:D; [exfalso|reflexivity].
  pose proof (isDigit_not_separator c D) as S.
  unfold isSeparator in S. apply orb_false_iff in S as [S1 S2].
  apply isDigit_range in D.
  rewrite S2, orb_false_r in M.
  apply orb_true_iff in M as [M|M]; apply N.eqb_eq in M; rewrite <- M in D;
    vm_compute in D; destruct D as [D _]; now apply D.
Qed.

Lemma matchesText_opt_phoneSep s :
  matchesText false (opt (Chr phoneSepClass)) s -> stripNonDigits s = [].
Proof.
  intros [(c & -> & M)| ->]; [|reflexivity].
  cbn. now rewrite (phoneSep_not_digit c M).
Qed.

Lemma matchesText_rep_digits n s :
  matchesText false (rep n digit) s ->
  length (stripNonDigits s) = n.
Proof.
  intros M. apply matchesText_rep in M as [L D].
  unfold stripNonDigits.
  now rewrite (forallb_filter_id _ _ D).
Qed.

(** X8: the phone validator accepts every match of the phone pattern:
    a match holds ten digits, or eleven with the leading 1, whatever
    separators and parentheses it has. *)
Theorem phone_validate_accepts_matches txt lastIndex j e :
  exec phone_regex txt lastIndex = Some (j, e) ->
  phone_validate (substring txt j e) = true
  /\ (length (stripNonDigits (substring txt j e)) = 10
      \/ length (stripNonDigits (substring txt j e)) = 11).
Proof.
  intros Hx. apply exec_matchesText in Hx.
  unfold phone_regex, seqs in Hx.
  cbn [source ignoreCase fold_right matchesText] in Hx.
  destruct Hx as (p0 & t0 & -> & M0 & p1 & t1 & -> & M1
                  & p2 & t2 & -> & M2 & p3 & t3 & -> & M3
                  & p4 & t4 & -> & M4 & p5 & t5 & -> & M5
                  & p6 & t6 & -> & M6 & p7 & t7 & -> & M7
                  & p8 & t8 & -> & -> & ->).
  assert (L0 : length (stripNonDigits p0) = 0
               \/ length (stripNonDigits p0) = 1).
  { destruct M0 as [M0| ->]; [right|now left].
    unfold seqs in M0. cbn [fold_right matchesText] in M0.
    destruct M0 as (a & ta & -> & Ma & b & tb & -> & Mb
                    & c & tc & -> & Mc & ->).
    rewrite !stripNonDigits_app.
    rewrite (matchesText_opt_chr "+" a eq_refl Ma),
      (matchesText_opt_phoneSep c Mc).
    apply matchesText_chr in Mb. now subst. }
  assert (L : length (stripNonDigits
                        (p0 ++ p1 ++ p2 ++ p3 ++ p4 ++ p5 ++ p6 ++ p7
                         ++ [] ++ []))
              = length (stripNonDigits p0) + 10).
  { rewrite !stripNonDigits_app, !length_app.
    rewrite (matchesText_opt_chr "(" p1 eq_refl M1),
      (matchesText_opt_chr ")" p3 eq_refl M3),
      (matchesText_opt_phoneSep p4 M4), (matchesText_opt_phoneSep p6 M6),
      (matchesText_rep_digits 3 p2 M2), (matchesText_rep_digits 3 p5 M5),
      (matchesText_rep_digits 4 p7 M7).
    cbn. lia. }
  unfold phone_validate. rewrite L.
  destruct L0 as [-> | ->]; cbn; split; auto.
Qed.

End PhoneMatches.

(** The match ["+1 (555) 123-4567"]. *)
Lemma phone_validate_accepts_matches_witness :
  exec (H := browser) phone_regex (js "call +1 (555) 123-4567 now") 0
  = Some (5, 22)
  /\ phone_validate (substring (js "call +1 (555) 123-4567 now") 5 22)
     = true.
Proof.
  split; [reflexivity|].
  exact (proj1 (phone_validate_accepts_matches (H := browser)
                  (js "call +1 (555) 123-4567 now") 0 5 22 eq_refl)).
Defined.

(** ** What the search reports, and in which order *)

Section Provenance.
Context `{Host}.

Lemma matchLoop_appends fuel re validate pageNum patternName fullText
  charMap : forall lastIndex results out,
  matchLoop fuel re validate pageNum patternName fullText charMap
    lastIndex results = Returns out ->
  exists extra,
    out = results ++ extra
    /\ Forall (matchOf pageNum patternName validate fullText charMap) extra.
Proof.
  induction fuel as [|fuel IH]; intros lastIndex results out;
    cbn [matchLoop]; [discriminate|].
  destruct (exec re fullText lastIndex) as [[index lastIndex']|].
  - destruct (validate (substring fullText index lastIndex')) eqn:V;
      cbn [negb]; [|apply IH].
    destruct (0 <? length (getRectsForRange charMap index
                 (index + length (substring fullText index lastIndex'))))
      eqn:L; [|apply IH].
    intros E. apply IH in E as (extra & -> & F).
    eexists. rewrite <- app_assoc. split; [reflexivity|].
    constructor; [|exact F].
    repeat split; trivial.
    + cbn [Match.text]. intros N. rewrite N in L. cbn [length] in L.
      rewrite Nat.add_0_r in L.
      rewrite (proj1 (getRectsForRange_bounds charMap index index)
                 (le_n index)) in L.
      discriminate.
    + exists index, lastIndex'. now split.
  - intros [= <-]. exists []. rewrite app_nil_r. now split.
Qed.

Lemma searchPattern_appends fuel pageNum fullText charMap customPattern
  results patternName out :
  searchPattern fuel pageNum fullText charMap customPattern results
    patternName = Returns out ->
  exists extra,
    out = results ++ extra
    /\ Forall (fun m =>
                 exists pattern,
                   lookupPattern patternName REDACTION_PATTERNS
                   = Some pattern
                   /\ matchOf pageNum patternName (Pattern.validate pattern)
                        fullText charMap m) extra.
Proof.
  unfold searchPattern.
  destruct (lookupPattern patternName REDACTION_PATTERNS) as [pattern|];
    [|intros [= <-]; exists []; rewrite app_nil_r; now split].
  destruct (match String.eqb patternName "custom", truthy customPattern with
            | true, Some p => re <- customRegExp p ;; Returns (Some re)
            | _, _ => Returns (Pattern.regex pattern)
            end) as [[re|]| |]; cbn [bind]; try discriminate.
  - intros E. apply matchLoop_appends in E as (extra & -> & F).
    exists extra. split; [reflexivity|].
    eapply Forall_impl; [|exact F]. intros m Hm. now exists pattern.
  - intros [= <-]. exists []. rewrite app_nil_r. now split.
Qed.

Lemma forPatterns_appends fuel pageNum fullText charMap customPattern
  patternNames : forall results out,
  forPatterns fuel pageNum fullText charMap customPattern patternNames
    results = Returns out ->
  exists extra,
    out = results ++ extra
    /\ Forall (fun m =>
                 In (Match.pattern m) patternNames
                 /\ exists pattern,
                      lookupPattern (Match.pattern m) REDACTION_PATTERNS
                      = Some pattern
                      /\ matchOf pageNum (Match.pattern m)
                           (Pattern.validate pattern) fullText charMap m)
         extra.
Proof.
  induction patternNames as [|n names IH]; intros results out;
    cbn [forPatterns].
  - intros [= <-]. exists []. rewrite app_nil_r. now split.
  - destruct (searchPattern fuel pageNum fullText charMap customPattern
                results n) as [r| |] eqn:E; cbn [bind]; try discriminate.
    apply searchPattern_appends in E as (e1 & -> & F1).
    intros E. apply IH in E as (e2 & -> & F2).
    exists (e1 ++ e2). rewrite app_assoc. split; [reflexivity|].
    apply Forall_app. split.
    + eapply Forall_impl; [|exact F1].
      intros m (pattern & L & M).
      assert (P : Match.pattern m = n) by apply M.
      rewrite P. split; [now left|]. now exists pattern.
    + eapply Forall_impl; [|exact F2].
      intros m (I & R). split; [now right|exact R].
Qed.

Lemma pagesAscend_app l1 l2 :
  pagesAscend l1 -> pagesAscend l2 ->
  (forall a b, In a l1 -> In b l2 -> Match.pageNum a <= Match.pageNum b) ->
  pagesAscend (l1 ++ l2).
Proof.
  intros A1 A2 C i j a b Hij Ha Hb.
  destruct (Nat.lt_ge_cases i (length l1)) as [Hi|Hi];
    destruct (Nat.lt_ge_cases j (length l1)) as [Hj|Hj].
  - rewrite nth_error_app1 in Ha, Hb by assumption.
    now apply (A1 i j).
  - rewrite nth_error_app1 in Ha by assumption.
    rewrite nth_error_app2 in Hb by assumption.
    apply C; eapply nth_error_In; eassumption.
  - lia.
  - rewrite nth_error_app2 in Ha, Hb by assumption.
    apply (A2 (i - length l1) (j - length l1)); trivial. lia.
Qed.

Lemma pagesAscend_same n l :
  Forall (fun m => Match.pageNum m = n) l -> pagesAscend l.
Proof.
  intros F i j a b _ Ha Hb.
  rewrite Forall_forall in F.
  rewrite (F a (nth_error_In _ _ Ha)), (F b (nth_error_In _ _ Hb)).
  apply le_n.
Qed.

Lemma forPages_appends fuel patternNames customPattern pages :
  forall pageNum results out,
  forPages fuel pages pageNum patternNames customPattern results
  = Returns out ->
  exists extra,
    out = results ++ extra
    /\ Forall (fun m =>
                 pageNum <= Match.pageNum m
                 /\ exists page,
                      nth_error pages (Match.pageNum m - pageNum)
                      = Some page
                      /\ reportedOn page (Match.pageNum m) patternNames m)
         extra
    /\ pagesAscend extra.
Proof.
  induction pages as [|page pages IH]; intros pageNum results out;
    cbn [forPages].
  - intros [= <-]. exists []. rewrite app_nil_r.
    split; [reflexivity|]. split; [constructor|].
    intros i j a b _ Ha. now destruct i.
  - destruct (buildCharMap (Page.items page) (Page.viewport page))
      as [fullText charMap] eqn:B.
    destruct (forPatterns fuel pageNum fullText charMap customPattern
                patternNames results) as [r| |] eqn:E; cbn [bind];
      try discriminate.
    apply forPatterns_appends in E as (e1 & -> & F1).
    intros E. apply IH in E as (e2 & -> & F2 & A2).
    exists (e1 ++ e2). rewrite app_assoc. split; [reflexivity|].
    assert (P1 : Forall (fun m => Match.pageNum m = pageNum) e1).
    { eapply Forall_impl; [|exact F1].
      intros m (_ & pattern & _ & M). apply M. }
    split; [apply Forall_app; split|].
    + rewrite Forall_forall in F1, P1. apply Forall_forall.
      intros m Hm. destruct (F1 m Hm) as (I & pattern & L & M).
      rewrite (P1 m Hm). split; [apply le_n|].
      exists page. rewrite Nat.sub_diag. split; [reflexivity|].
      split; [exact I|]. exists pattern. split; [exact L|].
      rewrite B. cbn [fst snd]. exact M.
    + eapply Forall_impl; [|exact F2].
      intros m (Hle & pg & N & R). split; [lia|].
      exists pg. split; [|exact R].
      replace (Match.pageNum m - pageNum)
        with (S (Match.pageNum m - S pageNum)) by lia.
      exact N.
    + apply pagesAscend_app; [now apply (pagesAscend_same pageNum)|exact A2|].
      intros a b Ia Ib. rewrite Forall_forall in P1, F2.
      rewrite (P1 a Ia). destruct (F2 b Ib) as (Hle & _). lia.
Qed.

End Provenance.

(** X9: every match that [searchPatterns] returns names a page of the
    document and one of the requested patterns of the table; its text
    is a non-empty part of the text of that page, passes the validator
    of that pattern, and its rectangles are those of the span of that
    part in the character map of the page. *)
Theorem searchPatterns_provenance `{Host} (fuel : nat)
  (pages : list Page.t) (patternNames : list string)
  (customPattern : option jsstring) (out : list Match.t) :
  searchPatterns fuel (Some pages) patternNames customPattern
  = Returns out ->
  Forall (fun m =>
            1 <= Match.pageNum m <= length pages
            /\ exists page,
                 nth_error pages (Match.pageNum m - 1) = Some page
                 /\ reportedOn page (Match.pageNum m) patternNames m)
    out.
Proof.
  cbn [searchPatterns]. intros E.
  apply forPages_appends in E as (extra & -> & F & _). cbn [app].
  eapply Forall_impl; [|exact F].
  intros m (Hle & page & N & R). split.
  - split; [exact Hle|].
    assert (L : Match.pageNum m - 1 < length pages)
      by (apply nth_error_Some; congruence).
    lia.
  - now exists page.
Qed.

(** X10: [searchPatterns] returns the matches page by page: along the
    returned array the page numbers never decrease. *)
Theorem searchPatterns_pages_ascend `{Host} (fuel : nat)
  (pdfDoc : option PDFDoc) (patternNames : list string)
  (customPattern : option jsstring) (out : list Match.t) :
  searchPatterns fuel pdfDoc patternNames customPattern = Returns out ->
  pagesAscend out.
Proof.
  destruct pdfDoc as [pages|]; cbn [searchPatterns].
  - intros E. apply forPages_appends in E as (extra & -> & _ & A).
    exact A.
  - intros [= <-]. intros i j a b _ Ha. now destruct i.
Qed.

(** The search of the two example runs for SSNs. *)
Lemma searchPatterns_provenance_witness :
  searchPatterns (H := browser) 5 (Some [twoRunPage]) ["ssn"%string] None
  = Returns [spanningMatch]
  /\ Forall (fun m =>
               1 <= Match.pageNum m <= length [twoRunPage]
               /\ exists page,
                    nth_error [twoRunPage] (Match.pageNum m - 1) = Some page
                    /\ reportedOn (H := browser) page (Match.pageNum m)
                         ["ssn"%string] m)
       [spanningMatch].
Proof.
  assert (E : searchPatterns (H := browser) 5 (Some [twoRunPage])
                ["ssn"%string] None = Returns [spanningMatch])
    by reflexivity.
  split; [exact E|].
  exact (searchPatterns_provenance (H := browser) 5 [twoRunPage]
           ["ssn"%string] None [spanningMatch] E).
Defined.

(** The search of the two example runs for SSNs. *)
Lemma searchPatterns_pages_ascend_witness :
  searchPatterns (H := browser) 5 (Some [twoRunPage]) ["ssn"%string] None
  = Returns [spanningMatch]
  /\ pagesAscend [spanningMatch].
Proof.
  assert (E : searchPatterns (H := browser) 5 (Some [twoRunPage])
                ["ssn"%string] None = Returns [spanningMatch])
    by reflexivity.
  split; [exact E|].
  exact (searchPatterns_pages_ascend (H := browser) 5 (Some [twoRunPage])
           ["ssn"%string] None [spanningMatch] E).
Defined.

Section Skipped.
Context `{Host}.

Lemma searchPattern_skipped fuel pageNum fullText charMap customPattern
  results patternName :
  searchable customPattern patternName = false ->
  searchPattern fuel pageNum fullText charMap customPattern results
    patternName = Returns results.
Proof.
  unfold searchable, searchPattern.
  destruct (lookupPattern patternName REDACTION_PATTERNS) as [pattern|];
    [|reflexivity].
  destruct (String.eqb patternName "custom");
    [destruct (truthy customPattern)|]; try discriminate;
    destruct (Pattern.regex pattern); try discriminate; reflexivity.
Qed.

Lemma forPatterns_filter fuel pageNum fullText charMap customPattern
  patternNames : forall results,
  forPatterns fuel pageNum fullText charMap customPattern patternNames
    results
  = forPatterns fuel pageNum fullText charMap customPattern
      (filter (searchable customPattern) patternNames) results.
Proof.
  induction patternNames as [|n names IH]; intros results;
    [reflexivity|].
  cbn [filter].
  destruct (searchable customPattern n) eqn:S; cbn [forPatterns].
  - destruct (searchPattern fuel pageNum fullText charMap customPattern
                results n); cbn [bind]; [apply IH|reflexivity|reflexivity].
  - rewrite searchPattern_skipped by exact S. cbn [bind]. apply IH.
Qed.

Lemma forPages_filter fuel patternNames customPattern pages :
  forall pageNum results,
  forPages fuel pages pageNum patternNames customPattern results
  = forPages fuel pages pageNum
      (filter (searchable customPattern) patternNames) customPattern
      results.
Proof.
  induction pages as [|page pages IH]; intros pageNum results;
    [reflexivity|].
  cbn [forPages].
  destruct (buildCharMap (Page.items page) (Page.viewport page))
    as [fullText charMap].
  rewrite <- forPatterns_filter.
  destruct (forPatterns fuel pageNum fullText charMap customPattern
              patternNames results); cbn [bind];
    [apply IH|reflexivity|reflexivity].
Qed.

End Skipped.

(** X11: pattern names that lead to no search are ignored without an
    error: a name outside the table, and ['custom'] when no custom
    pattern is supplied, change nothing in what [searchPatterns]
    returns. *)
Theorem searchPatterns_skips_names `{Host} (fuel : nat)
  (pdfDoc : option PDFDoc) (patternNames : list string)
  (customPattern : option jsstring) :
  searchPatterns fuel pdfDoc patternNames customPattern
  = searchPatterns fuel pdfDoc
      (filter (searchable customPattern) patternNames) customPattern
  /\ (forall name,
        lookupPattern name REDACTION_PATTERNS = None ->
        searchable customPattern name = false)
  /\ searchable None "custom" = false
  /\ searchable (Some []) "custom" = false.
Proof.
  split; [|split; [|split; reflexivity]].
  - destruct pdfDoc as [pages|]; cbn [searchPatterns]; [|reflexivity].
    apply forPages_filter.
  - intros name L. unfold searchable. now rewrite L.
Qed.

(** X12: on pages without text items the search returns no match and no
    error, for every pattern of the table and for a custom pattern that
    cannot match the empty string. *)
Theorem search_of_pages_without_text `{Host} (fuel : nat)
  (pages : list Page.t) (patternNames : list string)
  (customPattern : option jsstring) :
  customProgresses customPattern ->
  Forall (fun page => Page.items page = []) pages ->
  searchPatterns (S fuel) (Some pages) patternNames customPattern
  = Returns [].
Proof.
  intros C Hp. cbn [searchPatterns]. generalize 1 as pageNum.
  induction Hp as [|page pages E _ IH]; intros pageNum; cbn [forPages];
    [reflexivity|].
  rewrite E.
  change (buildCharMap [] (Page.viewport page))
    with (@nil char16, @nil (option CharPos.t)).
  cbv iota beta.
  rewrite forPatterns_nil by exact C. cbn [bind]. apply IH.
Qed.

(** Two empty pages searched for every pattern of the table. *)
Lemma search_of_pages_without_text_witness :
  customProgresses (H := browser) None
  /\ Forall (fun page => Page.items page = []) [emptyPage; emptyPage]
  /\ searchPatterns (H := browser) 1 (Some [emptyPage; emptyPage])
       ["ssn"; "creditCard"; "email"; "phone"; "date"; "custom"]%string None
     = Returns [].
Proof.
  assert (C : customProgresses (H := browser) None) by exact I.
  assert (F : Forall (fun page => Page.items page = [])
                [emptyPage; emptyPage])
    by (repeat constructor).
  split; [exact C|]. split; [exact F|].
  exact (search_of_pages_without_text (H := browser) 0
           [emptyPage; emptyPage]
           ["ssn"; "creditCard"; "email"; "phone"; "date"; "custom"]%string
           None C F).
Defined.

(** ** Bates numbering *)

Lemma decimalValue_acc s : forall acc,
  fold_left (fun a c => a * 10 + (Z.of_N c - 48))%Z s acc
  = (acc * 10 ^ Z.of_nat (length s) + decimalValue s)%Z.
Proof.
  unfold decimalValue.
  induction s as [|c s IH]; intros acc.
  - cbn. lia.
  - cbn [fold_left length]. rewrite IH, (IH (0 * 10 + _)%Z).
    rewrite Nat2Z.inj_succ, Z.pow_succ_r by lia. lia.
Qed.

Lemma uintChars_acc d : forall acc,
  fold_left (fun a c => a * 10 + (Z.of_N c - 48))%Z (uintChars d)
    (Zpos acc)
  = Zpos (Pos.of_uint_acc d acc).
Proof.
  induction d; intros acc; cbn [uintChars fold_left Pos.of_uint_acc];
    [reflexivity|..]; rewrite <- IHd; f_equal; lia.
Qed.

Lemma uintChars_value d :
  decimalValue (uintChars d) = Z.of_N (Pos.of_uint d).
Proof.
  unfold decimalValue.
  induction d; cbn [uintChars fold_left Pos.of_uint];
    [reflexivity|exact IHd|..];
    match goal with
    | |- fold_left _ _ ?a = _ =>
        let v := eval cbv in a in change a with v
    end; apply uintChars_acc.
Qed.

Lemma String_of_Z_value num :
  (0 <= num)%Z -> decimalValue (String_of_Z num) = num.
Proof.
  intros Hn. destruct num as [|p|p]; [reflexivity| |lia].
  cbn [String_of_Z Z.to_N]. rewrite uintChars_value.
  change (Pos.of_uint (N.to_uint (N.pos p)))
    with (N.of_uint (N.to_uint (N.pos p))).
  now rewrite DecimalN.Unsigned.of_to.
Qed.

Lemma decimalValue_app s t :
  decimalValue (s ++ t)
  = (decimalValue s * 10 ^ Z.of_nat (length t) + decimalValue t)%Z.
Proof.
  unfold decimalValue at 1. rewrite fold_left_app.
  fold (decimalValue s). apply decimalValue_acc.
Qed.

Lemma decimalValue_repeat_zero n : decimalValue (repeat (ch "0") n) = 0%Z.
Proof.
  induction n as [|n IH]; [reflexivity|exact IH].
Qed.

Lemma decimalValue_zeros n s :
  decimalValue (repeat (ch "0") n ++ s) = decimalValue s.
Proof.
  rewrite decimalValue_app, decimalValue_repeat_zero. lia.
Qed.

Lemma padStart_value num zeroPad :
  (0 <= num)%Z ->
  decimalValue (padStart (String_of_Z num) zeroPad (ch "0")) = num.
Proof.
  intros Hn. unfold padStart.
  now rewrite decimalValue_zeros, String_of_Z_value.
Qed.


Lemma roundDouble_safe z : (Z.abs z <= SAFE)%Z -> roundDouble z = z.
Proof.
  unfold SAFE. intros B.
  destruct (Z.eq_dec (Z.abs z) (2 ^ 53)) as [E|N].
  - destruct (Z.abs_eq_or_opp z) as [A|A]; rewrite A in E.
    + now subst z.
    + replace z with (- 2 ^ 53)%Z by lia. reflexivity.
  - unfold roundDouble.
    replace (Z.log2 (Z.abs z) + 1 - 53 <=? 0)%Z with true; [reflexivity|].
    symmetry. apply Z.leb_le.
    destruct (Z.eq_dec (Z.abs z) 0) as [->|P]; [cbn; lia|].
    assert (Z.log2 (Z.abs z) < 53)%Z by (apply Z.log2_lt_pow2; lia).
    lia.
Qed.

Lemma batesNumber_succ startNumber k :
  batesNumber startNumber (S k) = batesNumber (numSucc startNumber) k.
Proof. unfold batesNumber. apply Nat.iter_succ_r. Qed.

(** Within the safe integers the counter is exact. *)
Lemma batesNumber_safe k : forall startNumber,
  (- SAFE <= startNumber)%Z -> (startNumber + Z.of_nat k <= SAFE)%Z ->
  batesNumber startNumber k = (startNumber + Z.of_nat k)%Z.
Proof.
  induction k as [|k IH]; intros n L U; [cbn; lia|].
  rewrite batesNumber_succ. unfold numSucc.
  rewrite roundDouble_safe by lia. rewrite IH by lia. lia.
Qed.

Section SafeNumbers.
Context {engine : Engine}.

Lemma String_of_Number_safe num :
  (Z.abs num <= SAFE)%Z -> String_of_Number num = String_of_Z num.
Proof.
  intros B. unfold String_of_Number.
  apply Z.leb_le in B. now rewrite B.
Qed.

Lemma batesLabel_injective prefix suffix zeroPad n m :
  (0 <= n <= SAFE)%Z -> (0 <= m <= SAFE)%Z ->
  batesLabel prefix suffix n zeroPad = batesLabel prefix suffix m zeroPad ->
  n = m.
Proof.
  intros Hn Hm E. unfold batesLabel in E.
  apply app_inv_head, app_inv_tail in E.
  rewrite !String_of_Number_safe in E by lia.
  apply (f_equal decimalValue) in E.
  rewrite !padStart_value in E; lia.
Qed.

End SafeNumbers.

Lemma Zseq_cons start count :
  Zseq start (S count) = start :: Zseq (start + 1) count.
Proof.
  unfold Zseq. cbn [seq map]. rewrite Z.add_0_r. f_equal.
  rewrite <- seq_shift, map_map. apply map_ext. intros k. lia.
Qed.

Lemma last_cons_default (A : Type) (a d : A) l :
  last (a :: l) d = last l a.
Proof.
  revert a d. induction l as [|b l IH]; intros a d; [reflexivity|].
  change (last (a :: b :: l) d) with (last (b :: l) d).
  now rewrite !IH.
Qed.

Lemma calcPosition_facts position pageW pageH textW fontSize x y :
  calcPosition position pageW pageH textW fontSize = (x, y) ->
  (y = MARGIN \/ y = (pageH - MARGIN - fontSize)%Q)
  /\ ((textW <= pageW - 2 * MARGIN)%Q ->
      (MARGIN <= x)%Q /\ (x + textW <= pageW - MARGIN)%Q).
Proof.
  unfold calcPosition, MARGIN. intros C.
  destruct (String.eqb position "top-left");
    [|destruct (String.eqb position "top-center");
      [|destruct (String.eqb position "top-right");
        [|destruct (String.eqb position "bottom-left");
          [|destruct (String.eqb position "bottom-right")]]]];
    injection C as <- <-; (split; [tauto|]); intros F;
    unfold Qdiv; change (/ 2)%Q with (1 # 2)%Q; lra.
Qed.

Lemma PDFLib_rgb_outcome r g b : PDFLib_rgb r g b <> OutOfFuel.
Proof.
  unfold PDFLib_rgb. destruct r, g, b; try discriminate.
  now destruct (inUnit _ && inUnit _ && inUnit _).
Qed.

Section BatesFacts.
Context {font : PdfFont} {engine : Engine}.
Variable pages : list PageSize.t.
Variables prefix suffix : jsstring.
Variable zeroPad : Z.
Variable position : string.
Variable fontSize : Q.
Variables r g b : option Q.
Variable first : Z.

(** The labels of [count] pages, counted from [num]. *)
Lemma labels_cons num count :
  map (fun k => batesLabel prefix suffix (batesNumber num k) zeroPad)
    (seq 0 (S count))
  = batesLabel prefix suffix num zeroPad
    :: map (fun k =>
              batesLabel prefix suffix (batesNumber (numSucc num) k) zeroPad)
         (seq 0 count).
Proof.
  cbn [seq map]. f_equal.
  rewrite <- seq_shift, map_map. apply map_ext. intros k.
  now rewrite batesNumber_succ.
Qed.

(** What the loop does, for each of its three outcomes. *)
Lemma stampLoop_spec count : forall i num acc,
  (0 <= i)%Z -> (first <= i)%Z ->
  (count <> 0 -> Z.to_nat i + count <= length pages) ->
  match stampLoop pages prefix suffix zeroPad position fontSize r g b first
          count i num acc with
  | Returns result =>
      exists new,
        result
        = BatesResult.mk (BatesResult.stamps acc ++ new)
            (if (i =? first)%Z && (0 <? count)
             then batesLabel prefix suffix num zeroPad
             else BatesResult.firstLabel acc)
            (last (map Stamp.label new) (BatesResult.lastLabel acc))
        /\ map Stamp.pageIndex new = Zseq i count
        /\ map Stamp.label new
           = map (fun k =>
                    batesLabel prefix suffix (batesNumber num k) zeroPad)
               (seq 0 count)
        /\ Forall (fun st =>
                     Stamp.size st = fontSize
                     /\ PDFLib_rgb r g b = Returns (Stamp.color st)
                     /\ placed pages position st) new
  | Throws =>
      count <> 0
      /\ (PDFLib_rgb r g b = Throws
          \/ exists k,
               k < count
               /\ widthOfTextAtSize
                    (batesLabel prefix suffix (batesNumber num k) zeroPad)
                    fontSize = None)
  | OutOfFuel => False
  end.
Proof.
  induction count as [|count IH]; intros i num acc Hi Hf Hn.
  - cbn [stampLoop]. exists []. rewrite andb_false_r, app_nil_r.
    destruct acc. repeat split; constructor.
  - specialize (Hn (Nat.neq_succ_0 count)).
    cbn [stampLoop]. unfold getPage.
    replace (i <? 0)%Z with false by (symmetry; apply Z.ltb_ge; lia).
    destruct (nth_error pages (Z.to_nat i)) as [page|] eqn:P;
      [|apply nth_error_None in P; lia].
    cbn [bind]. unfold measure.
    destruct (widthOfTextAtSize (batesLabel prefix suffix num zeroPad)
                fontSize) as [textWidth|] eqn:W; cbn [bind].
    2:{ split; [discriminate|]. right. exists 0. split; [lia|exact W]. }
    destruct (calcPosition position (PageSize.width page)
                (PageSize.height page) textWidth fontSize) as [x y] eqn:C.
    destruct (PDFLib_rgb r g b) as [color| |] eqn:K; cbn [bind].
    2:{ split; [discriminate|]. now left. }
    2:{ now apply PDFLib_rgb_outcome in K. }
    specialize (IH (i + 1)%Z (numSucc num)
                  (BatesResult.mk
                     (BatesResult.stamps acc
                      ++ [Stamp.mk i (batesLabel prefix suffix num zeroPad)
                            x y fontSize color])
                     (if (i =? first)%Z
                      then batesLabel prefix suffix num zeroPad
                      else BatesResult.firstLabel acc)
                     (batesLabel prefix suffix num zeroPad))
                  ltac:(lia) ltac:(lia) ltac:(lia)).
    destruct (stampLoop pages prefix suffix zeroPad position fontSize r g b
                first count (i + 1) (numSucc num) _) as [result| |].
    + destruct IH as (new & -> & Ei & El & Ef).
      exists (Stamp.mk i (batesLabel prefix suffix num zeroPad) x y
                fontSize color :: new).
      cbn [BatesResult.stamps BatesResult.firstLabel BatesResult.lastLabel].
      replace (i + 1 =? first)%Z with false
        by (symmetry; apply Z.eqb_neq; lia).
      cbn [andb]. rewrite andb_true_r, <- app_assoc. cbn [app].
      split; [|split; [|split]].
      * f_equal. cbn [map Stamp.label]. now rewrite last_cons_default.
      * cbn [map Stamp.pageIndex]. now rewrite Ei, Zseq_cons.
      * cbn [map Stamp.label]. now rewrite El, labels_cons.
      * constructor; [|exact Ef].
        cbn [Stamp.size Stamp.color]. split; [reflexivity|].
        split; [reflexivity|].
        exists page, textWidth.
        cbn [Stamp.pageIndex Stamp.label Stamp.size Stamp.x Stamp.y].
        split; [exact P|]. split; [exact W|]. split; [now rewrite C|].
        destruct (calcPosition_facts _ _ _ _ _ _ _ C) as [B M].
        split; [exact B|]. intros F. unfold betweenMargins.
        cbn [Stamp.x]. now apply M.
    + destruct IH as [_ [T|(k & Hk & Wk)]]; (split; [discriminate|]);
        [now left|].
      right. exists (S k). split; [lia|]. now rewrite batesNumber_succ.
    + exact IH.
Qed.

End BatesFacts.

Lemma batesRange_fits startPage endPage pageCount :
  (0 <= batesFirst startPage)%Z
  /\ (Z.to_nat (batesLast endPage pageCount - batesFirst startPage) <> 0 ->
      Z.to_nat (batesFirst startPage)
      + Z.to_nat (batesLast endPage pageCount - batesFirst startPage)
      <= pageCount).
Proof.
  unfold batesFirst, batesLast. split; [lia|].
  destruct (0 <? endPage)%Z eqn:E; [apply Z.ltb_lt in E|]; cbv iota; lia.
Qed.

Section BatesTheorems.
Context {font : PdfFont} {engine : Engine}.

(** [applyBatesNumbers], for each of its outcomes. *)
Lemma applyBatesNumbers_spec pages opts :
  let prefix := orElse (BatesOptions.prefix opts) [] in
  let suffix := orElse (BatesOptions.suffix opts) [] in
  let startNumber := orElse (BatesOptions.startNumber opts) 1%Z in
  let zeroPad := orElse (BatesOptions.zeroPad opts) 6%Z in
  let position :=
    orElse (BatesOptions.position opts) "bottom-center"%string in
  let fontSize := orElse (BatesOptions.fontSize opts) 10%Q in
  let first := batesFirst (orElse (BatesOptions.startPage opts) 1%Z) in
  let stop :=
    batesLast (orElse (BatesOptions.endPage opts) 0%Z) (length pages) in
  let count := Z.to_nat (stop - first) in
  match applyBatesNumbers pages opts with
  | Returns result =>
      BatesResult.firstLabel result
      = (if 0 <? count then batesLabel prefix suffix startNumber zeroPad
         else [])
      /\ BatesResult.lastLabel result
         = last (map Stamp.label (BatesResult.stamps result)) []
      /\ map Stamp.pageIndex (BatesResult.stamps result) = Zseq first count
      /\ map Stamp.label (BatesResult.stamps result)
         = map (fun k =>
                  batesLabel prefix suffix (batesNumber startNumber k)
                    zeroPad)
             (seq 0 count)
      /\ Forall (fun st =>
                   Stamp.size st = fontSize
                   /\ batesColor opts = Returns (Stamp.color st)
                   /\ placed pages position st)
           (BatesResult.stamps result)
  | Throws =>
      count <> 0
      /\ (batesColor opts = Throws
          \/ exists k,
               k < count
               /\ widthOfTextAtSize
                    (batesLabel prefix suffix (batesNumber startNumber k)
                       zeroPad)
                    fontSize = None)
  | OutOfFuel => False
  end.
Proof.
  intros prefix suffix startNumber zeroPad position fontSize first stop count.
  destruct (batesRange_fits (orElse (BatesOptions.startPage opts) 1%Z)
              (orElse (BatesOptions.endPage opts) 0%Z) (length pages))
    as [F0 Fn].
  unfold applyBatesNumbers, batesColor.
  fold prefix suffix startNumber zeroPad position fontSize first stop count.
  pose proof (stampLoop_spec pages prefix suffix zeroPad position fontSize
                (colorComponent
                   (orElse (BatesOptions.color opts) (js "#000000")) 1 3)
                (colorComponent
                   (orElse (BatesOptions.color opts) (js "#000000")) 3 5)
                (colorComponent
                   (orElse (BatesOptions.color opts) (js "#000000")) 5 7)
                first count first startNumber (BatesResult.mk [] [] [])
                F0 (Z.le_refl _) Fn) as S.
  destruct (stampLoop pages prefix suffix zeroPad position fontSize _ _ _
              first count first startNumber _) as [result| |];
    [|exact S|exact S].
  destruct S as (new & -> & Ei & El & Ef).
  cbn [BatesResult.stamps BatesResult.firstLabel BatesResult.lastLabel app].
  rewrite Z.eqb_refl. cbn [andb]. repeat split; trivial.
Qed.

(** Within the safe integers the labels carry consecutive numbers. *)
Lemma labels_safe pages opts result :
  let prefix := orElse (BatesOptions.prefix opts) [] in
  let suffix := orElse (BatesOptions.suffix opts) [] in
  let startNumber := orElse (BatesOptions.startNumber opts) 1%Z in
  let zeroPad := orElse (BatesOptions.zeroPad opts) 6%Z in
  applyBatesNumbers pages opts = Returns result ->
  (- SAFE <= startNumber)%Z ->
  (startNumber + Z.of_nat (length (BatesResult.stamps result)) <= SAFE)%Z ->
  map Stamp.label (BatesResult.stamps result)
  = map (fun k =>
           batesLabel prefix suffix (startNumber + Z.of_nat k) zeroPad)
      (seq 0 (length (BatesResult.stamps result)))
  /\ BatesResult.firstLabel result
     = (if 0 <? length (BatesResult.stamps result)
        then batesLabel prefix suffix startNumber zeroPad
        else []).
Proof.
  intros prefix suffix startNumber zeroPad R L U.
  pose proof (applyBatesNumbers_spec pages opts) as S. cbv zeta in S.
  rewrite R in S. destruct S as (Ef & El & Ei & Es & _).
  fold prefix suffix startNumber zeroPad in Ef, Es.
  assert (Len : length (BatesResult.stamps result)
                = Z.to_nat
                    (batesLast (orElse (BatesOptions.endPage opts) 0%Z)
                       (length pages)
                     - batesFirst
                         (orElse (BatesOptions.startPage opts) 1%Z))).
  { rewrite <- (length_map Stamp.pageIndex), Ei. unfold Zseq.
    now rewrite length_map, length_seq. }
  rewrite <- Len in Ef, Es. split; [|exact Ef].
  rewrite Es. apply map_ext_in. intros k Hk. apply in_seq in Hk.
  rewrite batesNumber_safe by lia. reflexivity.
Qed.


(** X14: the labels that [applyBatesNumbers] draws.  When the call
    returns and the Bates numbers stay within the safe integers (from
    [-2^53] to [2^53]), the labels carry the numbers [startNumber],
    [startNumber + 1], ... in the order of the pages; [firstLabel] is
    the label of the first page stamped and [lastLabel] that of the
    last one, and both are the empty string when no page is stamped. *)
Theorem applyBatesNumbers_sequential_labels pages opts result :
  let prefix := orElse (BatesOptions.prefix opts) [] in
  let suffix := orElse (BatesOptions.suffix opts) [] in
  let startNumber := orElse (BatesOptions.startNumber opts) 1%Z in
  let zeroPad := orElse (BatesOptions.zeroPad opts) 6%Z in
  applyBatesNumbers pages opts = Returns result ->
  (- SAFE <= startNumber)%Z ->
  (startNumber + Z.of_nat (length (BatesResult.stamps result)) <= SAFE)%Z ->
  map Stamp.label (BatesResult.stamps result)
  = map (fun k =>
           batesLabel prefix suffix (startNumber + Z.of_nat k) zeroPad)
      (seq 0 (length (BatesResult.stamps result)))
  /\ BatesResult.firstLabel result
     = hd [] (map Stamp.label (BatesResult.stamps result))
  /\ BatesResult.lastLabel result
     = last (map Stamp.label (BatesResult.stamps result)) [].
Proof.
  intros prefix suffix startNumber zeroPad R L U.
  destruct (labels_safe pages opts result R L U) as [Es Ef].
  fold prefix suffix startNumber zeroPad in Es, Ef.
  pose proof (applyBatesNumbers_spec pages opts) as S. cbv zeta in S.
  rewrite R in S. destruct S as (_ & El & _).
  split; [exact Es|]. split; [|exact El].
  rewrite Ef, Es.
  destruct (length (BatesResult.stamps result)) as [|n]; [reflexivity|].
  cbn [Nat.ltb Nat.leb seq map hd]. now rewrite Z.add_0_r.
Qed.

(** X15: [previewBatesLabel] agrees with [applyBatesNumbers]: whenever
    at least one page is stamped, the label
    that the preview shows for an option record is the [firstLabel] that
    stamping with the same record returns, whatever the page range. *)
Theorem previewBatesLabel_is_first_label pages opts result :
  applyBatesNumbers pages opts = Returns result ->
  BatesResult.stamps result <> [] ->
  BatesResult.firstLabel result = previewBatesLabel opts.
Proof.
  intros R N.
  pose proof (applyBatesNumbers_spec pages opts) as S. cbv zeta in S.
  rewrite R in S. destruct S as (Ef & _ & Ei & _ & _).
  rewrite Ef. destruct (Z.to_nat _) as [|count].
  - destruct (BatesResult.stamps result); [now elim N|discriminate Ei].
  - reflexivity.
Qed.

(** X16: when [applyBatesNumbers] returns, the start number is not
    negative and the Bates numbers stay within the safe integers (up to
    [2^53]), no two pages have the same label. *)
Theorem applyBatesNumbers_labels_distinct pages opts result :
  let startNumber := orElse (BatesOptions.startNumber opts) 1%Z in
  (0 <= startNumber)%Z ->
  (startNumber + Z.of_nat (length (BatesResult.stamps result)) <= SAFE)%Z ->
  applyBatesNumbers pages opts = Returns result ->
  NoDup (map Stamp.label (BatesResult.stamps result)).
Proof.
  intros startNumber S0 U R.
  assert (L : (- SAFE <= startNumber)%Z) by (unfold SAFE; lia).
  destruct (labels_safe pages opts result R L U) as [El _].
  rewrite El. fold startNumber. clear El R.
  revert U. generalize (length (BatesResult.stamps result)). intros count U.
  assert (G : forall n start,
             start + n <= count ->
             NoDup
               (map (fun k =>
                       batesLabel (orElse (BatesOptions.prefix opts) [])
                         (orElse (BatesOptions.suffix opts) [])
                         (startNumber + Z.of_nat k)%Z
                         (orElse (BatesOptions.zeroPad opts) 6%Z))
                  (seq start n))).
  { induction n as [|n IH]; intros start B; [constructor|].
    cbn [seq map]. constructor; [|apply IH; lia].
    intros I. apply in_map_iff in I. destruct I as (k & Ek & Hk).
    apply in_seq in Hk. apply batesLabel_injective in Ek; lia. }
  apply G. lia.
Qed.

(** X18: [calcPosition] in [applyBatesNumbers]: when the call returns,
    every stamp has the font size and the colour of the options and is
    drawn on a page of the document at the place that [calcPosition]
    computes for the position name of the options, the size of that
    page and the measure of the label; its base line is one margin above
    the bottom of the page, or one margin and the font size below its
    top; and, with sizes and widths as exact numbers, when the label is
    no wider than the page less the two margins, its text starts at or
    after the left margin and ends at or before the right one, for each
    of the position names and for any other name. *)
Theorem stamps_between_margins pages opts result :
  let position :=
    orElse (BatesOptions.position opts) "bottom-center"%string in
  let fontSize := orElse (BatesOptions.fontSize opts) 10%Q in
  applyBatesNumbers pages opts = Returns result ->
  Forall (fun st =>
            Stamp.size st = fontSize
            /\ batesColor opts = Returns (Stamp.color st)
            /\ exists page textWidth,
                 nth_error pages (Z.to_nat (Stamp.pageIndex st)) = Some page
                 /\ widthOfTextAtSize (Stamp.label st) fontSize
                    = Some textWidth
                 /\ (Stamp.x st, Stamp.y st)
                    = calcPosition position (PageSize.width page)
                        (PageSize.height page) textWidth fontSize
                 /\ (Stamp.y st = MARGIN
                     \/ Stamp.y st
                        = (PageSize.height page - MARGIN - fontSize)%Q)
                 /\ ((textWidth <= PageSize.width page - 2 * MARGIN)%Q ->
                     (MARGIN <= Stamp.x st)%Q
                     /\ (Stamp.x st + textWidth
                         <= PageSize.width page - MARGIN)%Q))
    (BatesResult.stamps result).
Proof.
  intros position fontSize R.
  pose proof (applyBatesNumbers_spec pages opts) as S. cbv zeta in S.
  rewrite R in S. destruct S as (_ & _ & _ & _ & Ef).
  eapply Forall_impl; [|exact Ef].
  intros st (Es & Ec & page & textWidth & P & W & C & B & M).
  fold fontSize in Es. fold position in C.
  rewrite Es in W, C, B. split; [exact Es|]. split; [exact Ec|].
  exists page, textWidth. repeat split; trivial; now apply M.
Qed.

End BatesTheorems.

Lemma isDigit_uintChars d : Forall (fun c => isDigit c = true) (uintChars d).
Proof.
  induction d; cbn [uintChars]; constructor; trivial.
Qed.


Lemma isHexDigit_In c : isHexDigit c = true -> In c hexDigits.
Proof.
  unfold isHexDigit. intros E. apply existsb_exists in E.
  destruct E as (x & I & E). apply N.eqb_eq in E. now subst x.
Qed.

Lemma hexPair_range c1 c2 :
  isHexDigit c1 = true -> isHexDigit c2 = true ->
  exists v, parseIntHex [c1; c2] = Some v /\ (0 <= v <= 255)%Z.
Proof.
  intros H1 H2. apply isHexDigit_In in H1, H2.
  assert (A : forallb (fun a => forallb (hexPairOk a) hexDigits) hexDigits
              = true) by (vm_compute; reflexivity).
  rewrite forallb_forall in A. specialize (A c1 H1).
  rewrite forallb_forall in A. specialize (A c2 H2).
  unfold hexPairOk in A. destruct (parseIntHex [c1; c2]) as [v|]; [|easy].
  exists v. split; [reflexivity|]. lia.
Qed.

Lemma hexPair_component c1 c2 color i j :
  substring color i j = [c1; c2] ->
  isHexDigit c1 = true -> isHexDigit c2 = true ->
  unitInterval (colorComponent color i j).
Proof.
  intros S H1 H2. destruct (hexPair_range c1 c2 H1 H2) as (v & E & R).
  unfold colorComponent. rewrite S, E. eexists. split; [reflexivity|].
  split.
  - apply Qle_shift_div_l; [reflexivity|].
    rewrite Qmult_0_l. change 0%Q with (inject_Z 0). rewrite <- Zle_Qle. lia.
  - apply Qle_shift_div_r; [reflexivity|].
    rewrite Qmult_1_l. change 255%Q with (inject_Z 255).
    rewrite <- Zle_Qle. lia.
Qed.

(** X19: the colour of [applyBatesNumbers]: for a colour written
    as one character followed by six hexadecimal digits, in either case,
    each of the three components handed to [PDFLib.rgb] is a number
    between 0 and 1, and none is NaN. *)
Theorem color_components_in_unit_interval c0 r1 r2 g1 g2 b1 b2 rest :
  forallb isHexDigit [r1; r2; g1; g2; b1; b2] = true ->
  let color := c0 :: r1 :: r2 :: g1 :: g2 :: b1 :: b2 :: rest in
  unitInterval (colorComponent color 1 3)
  /\ unitInterval (colorComponent color 3 5)
  /\ unitInterval (colorComponent color 5 7).
Proof.
  intros A color. cbn [forallb] in A.
  repeat (apply andb_prop in A; destruct A as [? A]).
  repeat split.
  - now apply (hexPair_component r1 r2).
  - now apply (hexPair_component g1 g2).
  - now apply (hexPair_component b1 b2).
Qed.

(** The labels of the second and third page of a document of three. *)
Lemma applyBatesNumbers_sequential_labels_witness :
  exists result,
    applyBatesNumbers (font := fixedPitch) (engine := plainDigits)
      threePages docOptions = Returns result
    /\ map Stamp.label (BatesResult.stamps result)
       = [js "DOC-000001"; js "DOC-000002"]
    /\ BatesResult.firstLabel result = js "DOC-000001"
    /\ BatesResult.lastLabel result = js "DOC-000002".
Proof.
  eexists.
  assert (E : applyBatesNumbers (font := fixedPitch) (engine := plainDigits)
                threePages docOptions
              = Returns
                  (match applyBatesNumbers (font := fixedPitch)
                           (engine := plainDigits) threePages docOptions
                   with
                   | Returns r => r
                   | _ => BatesResult.mk [] [] []
                   end))
    by (vm_compute; reflexivity).
  assert (L : (- SAFE <= orElse (BatesOptions.startNumber docOptions) 1)%Z)
    by (vm_compute; discriminate).
  assert (U : (orElse (BatesOptions.startNumber docOptions) 1
               + Z.of_nat
                   (length
                      (BatesResult.stamps
                         (match applyBatesNumbers (font := fixedPitch)
                                  (engine := plainDigits) threePages
                                  docOptions
                          with
                          | Returns r => r
                          | _ => BatesResult.mk [] [] []
                          end))) <= SAFE)%Z)
    by (vm_compute; discriminate).
  split; [exact E|].
  exact (applyBatesNumbers_sequential_labels (font := fixedPitch)
           (engine := plainDigits) threePages docOptions _ E L U).
Defined.

Lemma previewBatesLabel_is_first_label_witness :
  exists result,
    applyBatesNumbers (font := fixedPitch) (engine := plainDigits)
      threePages docOptions = Returns result
    /\ BatesResult.stamps result <> []
    /\ BatesResult.firstLabel result
       = previewBatesLabel (engine := plainDigits) docOptions.
Proof.
  eexists.
  assert (E : applyBatesNumbers (font := fixedPitch) (engine := plainDigits)
                threePages docOptions
              = Returns
                  (match applyBatesNumbers (font := fixedPitch)
                           (engine := plainDigits) threePages docOptions
                   with
                   | Returns r => r
                   | _ => BatesResult.mk [] [] []
                   end))
    by (vm_compute; reflexivity).
  split; [exact E|].
  assert (N : BatesResult.stamps
                (match applyBatesNumbers (font := fixedPitch)
                         (engine := plainDigits) threePages docOptions
                 with
                 | Returns r => r
                 | _ => BatesResult.mk [] [] []
                 end) <> [])
    by discriminate.
  split; [exact N|].
  exact (previewBatesLabel_is_first_label (font := fixedPitch)
           (engine := plainDigits) threePages docOptions _ E N).
Defined.

Lemma applyBatesNumbers_labels_distinct_witness :
  exists result,
    applyBatesNumbers (font := fixedPitch) (engine := plainDigits)
      threePages docOptions = Returns result
    /\ (0 <= orElse (BatesOptions.startNumber docOptions) 1)%Z
    /\ NoDup (map Stamp.label (BatesResult.stamps result)).
Proof.
  eexists.
  assert (E : applyBatesNumbers (font := fixedPitch) (engine := plainDigits)
                threePages docOptions
              = Returns
                  (match applyBatesNumbers (font := fixedPitch)
                           (engine := plainDigits) threePages docOptions
                   with
                   | Returns r => r
                   | _ => BatesResult.mk [] [] []
                   end))
    by (vm_compute; reflexivity).
  assert (S0 : (0 <= orElse (BatesOptions.startNumber docOptions) 1)%Z)
    by (cbn; lia).
  assert (U : (orElse (BatesOptions.startNumber docOptions) 1
               + Z.of_nat
                   (length
                      (BatesResult.stamps
                         (match applyBatesNumbers (font := fixedPitch)
                                  (engine := plainDigits) threePages
                                  docOptions
                          with
                          | Returns r => r
                          | _ => BatesResult.mk [] [] []
                          end))) <= SAFE)%Z)
    by (vm_compute; discriminate).
  split; [exact E|]. split; [exact S0|].
  exact (applyBatesNumbers_labels_distinct (font := fixedPitch)
           (engine := plainDigits) threePages docOptions _ S0 U E).
Defined.

(** The two stamps of the example lie at the bottom centre of their
    pages. *)
Lemma stamps_between_margins_witness :
  exists result,
    applyBatesNumbers (font := fixedPitch) (engine := plainDigits)
      threePages docOptions = Returns result
    /\ map Stamp.pageIndex (BatesResult.stamps result) = [1; 2]%Z
    /\ Forall (fun st =>
                 Stamp.size st = 10%Q
                 /\ batesColor docOptions = Returns (Stamp.color st)
                 /\ exists page textWidth,
                      nth_error threePages (Z.to_nat (Stamp.pageIndex st))
                      = Some page
                      /\ widthOfTextAtSize (PdfFont := fixedPitch)
                           (Stamp.label st) 10%Q = Some textWidth
                      /\ (Stamp.x st, Stamp.y st)
                         = calcPosition "bottom-center"
                             (PageSize.width page) (PageSize.height page)
                             textWidth 10%Q
                      /\ (Stamp.y st = MARGIN
                          \/ Stamp.y st
                             = (PageSize.height page - MARGIN - 10)%Q)
                      /\ ((textWidth <= PageSize.width page - 2 * MARGIN)%Q ->
                          (MARGIN <= Stamp.x st)%Q
                          /\ (Stamp.x st + textWidth
                              <= PageSize.width page - MARGIN)%Q))
         (BatesResult.stamps result).
Proof.
  eexists.
  assert (E : applyBatesNumbers (font := fixedPitch) (engine := plainDigits)
                threePages docOptions
              = Returns
                  (match applyBatesNumbers (font := fixedPitch)
                           (engine := plainDigits) threePages docOptions
                   with
                   | Returns r => r
                   | _ => BatesResult.mk [] [] []
                   end))
    by (vm_compute; reflexivity).
  split; [exact E|]. split; [reflexivity|].
  exact (stamps_between_margins (font := fixedPitch)
           (engine := plainDigits) threePages docOptions _ E).
Defined.


Lemma color_components_in_unit_interval_witness :
  forallb isHexDigit (js "ff8000") = true
  /\ unitInterval (colorComponent (js "#ff8000") 1 3)
  /\ unitInterval (colorComponent (js "#ff8000") 3 5)
  /\ unitInterval (colorComponent (js "#ff8000") 5 7).
Proof.
  assert (A : forallb isHexDigit (js "ff8000") = true) by reflexivity.
  split; [exact A|].
  exact (color_components_in_unit_interval (ch "#") (ch "f") (ch "f")
           (ch "8") (ch "0") (ch "0") (ch "0") [] A).
Defined.

Section Dialogue.
Context {font : PdfFont} {engine : Engine}.
Variable parsePageRanges : jsstring -> Z -> outcome (list Z).

(** X20: [updateBatesPreview] and [executeBates] of the dialogue: for
    the same values in the dialogue, the label shown in
    the preview is the first label stamped, whenever a page is stamped:
    the page range, the position, the size and the colour have no part
    in it. *)
Theorem bates_preview_shows_first_stamp pdf totalPages form result :
  executeBates parsePageRanges pdf totalPages form = Some (Returns result) ->
  BatesResult.stamps result <> [] ->
  BatesResult.firstLabel result = updateBatesPreview form.
Proof.
  unfold executeBates. intros E N.
  destruct pdf as [pages|]; [|discriminate].
  destruct (batesPageRange parsePageRanges form totalPages)
    as [[startPage endPage]|]; [|discriminate].
  injection E as E.
  pose proof (applyBatesNumbers_spec pages
                (executeBatesOptions form startPage endPage)) as S.
  cbv zeta in S. rewrite E in S. destruct S as (Ef & _ & Ei & _ & _).
  rewrite Ef. destruct (Z.to_nat _) as [|count].
  - destruct (BatesResult.stamps result); [now elim N|discriminate Ei].
  - reflexivity.
Qed.


End Dialogue.

Lemma bates_preview_shows_first_stamp_witness :
  exists result,
    executeBates (font := fixedPitch) (engine := plainDigits) firstAndThird
      (Some threePages) 3 docForm
    = Some (Returns result)
    /\ BatesResult.stamps result <> []
    /\ BatesResult.firstLabel result
       = updateBatesPreview (engine := plainDigits) docForm.
Proof.
  eexists.
  assert (E : executeBates (font := fixedPitch) (engine := plainDigits)
                firstAndThird (Some threePages) 3 docForm
              = Some (Returns
                  (match executeBates (font := fixedPitch)
                           (engine := plainDigits) firstAndThird
                           (Some threePages) 3 docForm
                   with
                   | Some (Returns r) => r
                   | _ => BatesResult.mk [] [] []
                   end)))
    by (vm_compute; reflexivity).
  split; [exact E|].
  assert (N : BatesResult.stamps
                (match executeBates (font := fixedPitch)
                         (engine := plainDigits) firstAndThird
                         (Some threePages) 3 docForm
                 with
                 | Some (Returns r) => r
                 | _ => BatesResult.mk [] [] []
                 end) <> [])
    by discriminate.
  split; [exact N|].
  exact (bates_preview_shows_first_stamp (font := fixedPitch)
           (engine := plainDigits) firstAndThird _ 3 docForm _ E N).
Defined.

(** ** OCR results *)

Lemma storeGet_storeSet store pageNum result : forall p,
  storeGet (storeSet store pageNum result) p
  = if p =? pageNum then Some result else storeGet store p.
Proof.
  induction store as [|[key value] rest IH]; intros p; [reflexivity|].
  cbn [storeSet].
  destruct (pageNum <? key) eqn:L; [reflexivity|].
  destruct (pageNum =? key) eqn:E.
  - apply Nat.eqb_eq in E. subst key. cbn [storeGet].
    now destruct (p =? pageNum).
  - cbn [storeGet]. rewrite IH.
    destruct (p =? key) eqn:K; [|reflexivity].
    apply Nat.eqb_eq in K. subst key.
    rewrite Nat.eqb_sym in E. now rewrite E.
Qed.

Section RunFacts.
Variable recognize : nat -> option (OcrData.t * double).

Lemma ocrPages_spec pageNumbers : forall store,
  snd (ocrPages recognize pageNumbers store)
  = (length (recognizedPrefix recognize pageNumbers) =? length pageNumbers)
  /\ forall p,
       storeGet (fst (ocrPages recognize pageNumbers store)) p
       = if existsb (Nat.eqb p) (recognizedPrefix recognize pageNumbers)
         then recognizedPage recognize p
         else storeGet store p.
Proof.
  induction pageNumbers as [|q rest IH]; intros store.
  - split; reflexivity.
  - cbn [ocrPages recognizedPrefix].
    destruct (recognize q) as [[data pageHeight]|] eqn:R.
    + destruct (IH (storeSet store q (ocrPageResult data pageHeight)))
        as [S G].
      split; [exact S|]. intros p. rewrite G, storeGet_storeSet.
      cbn [existsb].
      destruct (existsb (Nat.eqb p) (recognizedPrefix recognize rest));
        [now rewrite orb_true_r|].
      rewrite orb_false_r. destruct (p =? q) eqn:E; [|reflexivity].
      apply Nat.eqb_eq in E. subst p. unfold recognizedPage. now rewrite R.
    + split; reflexivity.
Qed.

Lemma recognizedPrefix_length pageNumbers :
  length (recognizedPrefix recognize pageNumbers) = length pageNumbers ->
  recognizedPrefix recognize pageNumbers = pageNumbers.
Proof.
  induction pageNumbers as [|q rest IH]; [reflexivity|].
  cbn [recognizedPrefix]. destruct (recognize q); [|discriminate].
  cbn [length]. intros L. f_equal. apply IH. lia.
Qed.

Lemma recognizedPrefix_recognized pageNumbers p :
  In p (recognizedPrefix recognize pageNumbers) -> recognize p <> None.
Proof.
  induction pageNumbers as [|q rest IH]; [intros []|].
  cbn [recognizedPrefix]. destruct (recognize q) eqn:R; [|intros []].
  intros [<-|I]; [now rewrite R|now apply IH].
Qed.

(** X22: [runOCR], read back with [getOCRResults] and [hasOCRResults]:
    once the engine is loaded, a call stores an entry for each page of
    the request up to the first one that cannot be rendered or
    recognised, the entry computed from the recognition of that page,
    and leaves the entry of every other page as it was; the promise is
    fulfilled exactly when no page of the request fails. The pages
    stored before a failure stay stored. *)
Theorem runOCR_stores_recognized_pages store pageNumbers :
  let after := runOCR recognize true store pageNumbers in
  let done := recognizedPrefix recognize pageNumbers in
  (snd after = true <-> done = pageNumbers)
  /\ (forall pageNum,
        getOCRResults (fst after) pageNum
        = if existsb (Nat.eqb pageNum) done
          then recognizedPage recognize pageNum
          else getOCRResults store pageNum)
  /\ Forall (fun pageNum => hasOCRResults (fst after) pageNum = true) done.
Proof.
  intros after done. unfold after, done, runOCR, getOCRResults.
  destruct (ocrPages_spec pageNumbers store) as [S G].
  split; [|split; [exact G|]].
  - rewrite S. split.
    + intros E. apply Nat.eqb_eq in E. now apply recognizedPrefix_length.
    + intros E. rewrite E. apply Nat.eqb_refl.
  - apply Forall_forall. intros p I. unfold hasOCRResults. rewrite G.
    replace (existsb (Nat.eqb p) (recognizedPrefix recognize pageNumbers))
      with true
      by (symmetry; apply existsb_exists; exists p; split;
          [exact I|apply Nat.eqb_refl]).
    apply recognizedPrefix_recognized in I.
    unfold recognizedPage. destruct (recognize p) as [[data h]|];
      [reflexivity|now elim I].
Qed.

End RunFacts.

Lemma ocrItems_text words : forall offset,
  concat (map FindItem.str (ocrItems words offset))
  = join [SPACE] (map Word.text words).
Proof.
  induction words as [|word rest IH]; intros offset; [reflexivity|].
  cbn [ocrItems map FindItem.str concat]. rewrite IH.
  destruct rest as [|next rest]; [apply app_nil_r|].
  cbn [map join]. now rewrite <- app_assoc.
Qed.

Lemma ocrItems_length words : forall offset,
  length (ocrItems words offset) = length words.
Proof.
  induction words as [|word rest IH]; intros offset; [reflexivity|].
  cbn [ocrItems length]. now rewrite IH.
Qed.

Lemma ocrItems_at words : forall before,
  Forall (itemAt (before
                  ++ concat (map FindItem.str (ocrItems words (length before)))))
    (ocrItems words (length before)).
Proof.
  induction words as [|word rest IH]; intros before; [constructor|].
  cbn [ocrItems map FindItem.str concat].
  set (str := match rest with
              | [] => Word.text word
              | _ :: _ => Word.text word ++ [SPACE]
              end).
  constructor.
  - unfold itemAt, substring. cbn [FindItem.start FindItem.str].
    rewrite skipn_app, skipn_all, Nat.sub_diag. cbn [skipn app].
    replace (length before + length str - length before) with (length str)
      by lia.
    rewrite firstn_app, firstn_all, Nat.sub_diag. cbn [firstn].
    apply app_nil_r.
  - specialize (IH (before ++ str)).
    rewrite length_app, <- app_assoc in IH. exact IH.
Qed.

Lemma parseDigits_decimal s : forall acc,
  forallb isDigit s = true ->
  parseDigits 10 s (Some acc)
  = Some (fold_left (fun a c => a * 10 + (Z.of_N c - 48))%Z s acc).
Proof.
  induction s as [|c s IH]; intros acc D; [reflexivity|].
  cbn [forallb] in D. apply andb_prop in D. destruct D as [Dc D].
  cbn [parseDigits fold_left]. rewrite (digitValue_digit c Dc).
  destruct (digit_bounds c Dc) as [_ U].
  replace (Z.of_N c - 48 <? 10)%Z with true
    by (symmetry; apply Z.ltb_lt; lia).
  now apply IH.
Qed.

Lemma parseInt_decimal c s :
  forallb isDigit (c :: s) = true ->
  parseInt (c :: s) None = Some (decimalValue (c :: s)).
Proof.
  intros D. cbn [forallb] in D. apply andb_prop in D. destruct D as [Dc D].
  unfold parseInt. rewrite (trimStart_digit c s Dc).
  pose proof (proj1 (isDigit_range c) Dc) as Rc.
  replace (c =? 45)%N with false by (symmetry; apply N.eqb_neq; lia).
  replace (c =? 43)%N with false by (symmetry; apply N.eqb_neq; lia).
  cbv beta iota zeta.
  transitivity (match parseDigits 10 (c :: s) None with
                | Some v => Some (1 * v)%Z
                | None => NaN
                end).
  { destruct s as [|x r]; [reflexivity|].
    cbn [forallb] in D. apply andb_prop in D. destruct D as [Dx _].
    pose proof (proj1 (isDigit_range x) Dx) as Rx.
    replace (x =? 120)%N with false by (symmetry; apply N.eqb_neq; lia).
    replace (x =? 88)%N with false by (symmetry; apply N.eqb_neq; lia).
    now rewrite andb_false_r. }
  cbn [parseDigits]. rewrite (digitValue_digit c Dc).
  destruct (digit_bounds c Dc) as [_ U].
  replace (Z.of_N c - 48 <? 10)%Z with true
    by (symmetry; apply Z.ltb_lt; lia).
  rewrite (parseDigits_decimal s _ D).
  unfold decimalValue. cbn [fold_left].
  replace (0 * 10 + (Z.of_N c - 48))%Z with (Z.of_N c - 48)%Z by lia.
  now rewrite Z.mul_1_l.
Qed.

Lemma parseInt_of_key key :
  parseInt (String_of_Z (Z.of_nat key)) None = Some (Z.of_nat key).
Proof.
  assert (N : (0 <= Z.of_nat key)%Z) by lia.
  pose proof (String_of_Z_value _ N) as V.
  assert (D : forallb isDigit (String_of_Z (Z.of_nat key)) = true).
  { apply forallb_forall. apply Forall_forall.
    destruct (Z.of_nat key); try lia; apply isDigit_uintChars. }
  destruct (String_of_Z (Z.of_nat key)) as [|c s] eqn:E.
  - exfalso. destruct (Z.of_nat key) as [|p|p]; [discriminate E| |lia].
    cbn [String_of_Z Z.to_N N.to_uint] in E.
    pose proof (DecimalPos.Unsigned.to_uint_nonnil p) as Nn.
    destruct (Pos.to_uint p); [now elim Nn|discriminate E..].
  - rewrite (parseInt_decimal c s D). now rewrite V.
Qed.

Lemma ocrEntry_spec key result :
  ocrEntry (key, result)
  = match OcrPage.fullText result with
    | [] => []
    | _ =>
        [FindEntry.mk (Some (Z.of_nat key))
           (join [SPACE] (map Word.text (OcrPage.words result)))
           (ocrItems (OcrPage.words result) 0)]
    end.
Proof.
  unfold ocrEntry. rewrite parseInt_of_key, ocrItems_text. reflexivity.
Qed.

(** X24: every entry of [getOCRTextEntries] comes
    from a stored page whose full text is not empty and carries its
    number; its text is the words of the page joined by single spaces;
    it has one item for each word; and each item is found in the text
    at the offset that its [start] gives. *)
Theorem getOCRTextEntries_items store :
  Forall (fun entry =>
            exists key result,
              In (key, result) store
              /\ OcrPage.fullText result <> []
              /\ FindEntry.pageNum entry = Some (Z.of_nat key)
              /\ FindEntry.text entry
                 = join [SPACE] (map Word.text (OcrPage.words result))
              /\ length (FindEntry.items entry)
                 = length (OcrPage.words result)
              /\ Forall (itemAt (FindEntry.text entry))
                   (FindEntry.items entry))
    (getOCRTextEntries store).
Proof.
  apply Forall_forall. intros entry I.
  unfold getOCRTextEntries in I. apply in_flat_map in I.
  destruct I as ([key result] & Is & I).
  rewrite ocrEntry_spec in I.
  destruct (OcrPage.fullText result) as [|c t] eqn:F; [now elim I|].
  destruct I as [<-|[]]. exists key, result.
  cbn [FindEntry.pageNum FindEntry.text FindEntry.items].
  split; [exact Is|]. split; [now rewrite F|]. split; [reflexivity|].
  split; [reflexivity|]. split; [apply ocrItems_length|].
  rewrite <- (ocrItems_text (OcrPage.words result) 0).
  exact (ocrItems_at (OcrPage.words result) []).
Qed.

(** X25: the page numbers of the entries of [getOCRTextEntries] are, in the order of the store, those of the
    stored pages whose full text is not empty: the number read back from
    the key of the object is the number under which the page was
    stored. *)
Theorem getOCRTextEntries_page_numbers store :
  map FindEntry.pageNum (getOCRTextEntries store)
  = map (fun stored => Some (Z.of_nat (fst stored)))
      (filter (fun stored =>
                 match OcrPage.fullText (snd stored) with
                 | [] => false
                 | _ => true
                 end) store).
Proof.
  unfold getOCRTextEntries.
  induction store as [|[key result] rest IH]; [reflexivity|].
  cbn [flat_map filter fst snd]. rewrite map_app, IH, ocrEntry_spec.
  now destruct (OcrPage.fullText result).
Qed.

Lemma storeGet_In store pageNum result :
  storeGet store pageNum = Some result -> In (pageNum, result) store.
Proof.
  induction store as [|[key value] rest IH]; [discriminate|].
  cbn [storeGet]. destruct (pageNum =? key) eqn:E.
  - apply Nat.eqb_eq in E. subst key. intros [= ->]. now left.
  - intros G. right. now apply IH.
Qed.

(** X26: the fallback of [runOCR] and [getOCRTextEntries]: a page for which the recognition gives raw text and no blocks is
    stored without words, and its entry in the text index has the empty
    text and no item: the text recognised on such a page is not in the
    index. *)
Theorem raw_text_page_has_empty_entry store pageNum data pageHeight :
  OcrData.blocks data = None ->
  getOCRResults store pageNum = Some (ocrPageResult data pageHeight) ->
  OcrPage.fullText (ocrPageResult data pageHeight) <> [] ->
  OcrPage.words (ocrPageResult data pageHeight) = []
  /\ In (FindEntry.mk (Some (Z.of_nat pageNum)) [] [])
       (getOCRTextEntries store).
Proof.
  intros B G F.
  assert (W : OcrPage.words (ocrPageResult data pageHeight) = []).
  { unfold ocrPageResult. now rewrite B. }
  split; [exact W|].
  unfold getOCRTextEntries. apply in_flat_map.
  exists (pageNum, ocrPageResult data pageHeight).
  split; [now apply storeGet_In|].
  rewrite ocrEntry_spec, W.
  destruct (OcrPage.fullText (ocrPageResult data pageHeight));
    [now elim F|now left].
Qed.

Lemma raw_text_page_has_empty_entry_witness :
  OcrData.blocks rawOnly = None
  /\ OcrPage.fullText (ocrPageResult rawOnly letterHeight) = js "raw text"
  /\ OcrPage.words (ocrPageResult rawOnly letterHeight) = []
  /\ In (FindEntry.mk (Some 2%Z) [] [])
       (getOCRTextEntries
          (fst (runOCR twoPageScan true clearOCRResults [1; 2]))).
Proof.
  assert (B : OcrData.blocks rawOnly = None) by reflexivity.
  assert (G : getOCRResults
                (fst (runOCR twoPageScan true clearOCRResults [1; 2])) 2
              = Some (ocrPageResult rawOnly letterHeight)) by reflexivity.
  assert (F : OcrPage.fullText (ocrPageResult rawOnly letterHeight) <> [])
    by discriminate.
  split; [exact B|]. split; [reflexivity|].
  exact (raw_text_page_has_empty_entry
           (fst (runOCR twoPageScan true clearOCRResults [1; 2])) 2
           rawOnly letterHeight B G F).
Defined.

Lemma hasOcrSpan_app container spans :
  hasOcrSpan (container ++ spans) = hasOcrSpan container || hasOcrSpan spans.
Proof. apply existsb_app. Qed.

Lemma hasOcrSpan_rendered scale word words :
  hasOcrSpan (map (ocrSpan scale) (word :: words)) = true.
Proof. reflexivity. Qed.

(** X27: [renderOCRTextLayer] is idempotent: rendering a page
    into a container twice leaves the container as rendering it once
    does, also at another zoom: the spans are not duplicated, and are
    not resized either. *)
Theorem renderOCRTextLayer_idempotent store pageNum container scale scale' :
  renderOCRTextLayer store pageNum
    (renderOCRTextLayer store pageNum container scale) scale'
  = renderOCRTextLayer store pageNum container scale.
Proof.
  unfold renderOCRTextLayer.
  destruct (storeGet store pageNum) as [result|]; [|reflexivity].
  destruct (OcrPage.words result) as [|word words]; [reflexivity|].
  destruct (hasOcrSpan container) eqn:C.
  - now rewrite C.
  - now rewrite hasOcrSpan_app, hasOcrSpan_rendered, orb_true_r.
Qed.

Lemma Math_max_one x :
  Math_max (dbl 1) x = S754_nan \/ atLeastOne (Math_max (dbl 1) x) = true.
Proof.
  unfold Math_max, atLeastOne.
  destruct (SFcompare (dbl 1) x) as [[| |]|] eqn:C.
  - right. reflexivity.
  - right. now rewrite C.
  - right. reflexivity.
  - now left.
Qed.

Lemma ocrSpan_spanOfWord scale word : spanOfWord scale word (ocrSpan scale word).
Proof.
  unfold spanOfWord, ocrSpan.
  cbn [Span.classList Span.textContent Span.left Span.top Span.width
       Span.height Span.fontSize].
  repeat (split; [reflexivity|]). apply Math_max_one.
Qed.

(** X28: [renderOCRTextLayer] on a page that is stored with words, into
    a container that has no OCR span yet: the call keeps the elements of
    the container and adds after them one span for each word of the
    page, in the order of the words. The span of a word has the class
    [ocr-text-span], the text of the word followed by a space, the
    corner and the extent of the box of the word times the zoom, and a
    font size that is NaN or at least one pixel; after the call the
    container has an OCR span. *)
Theorem renderOCRTextLayer_appends store pageNum container scale result :
  getOCRResults store pageNum = Some result ->
  OcrPage.words result <> [] ->
  hasOcrSpan container = false ->
  exists spans,
    renderOCRTextLayer store pageNum container scale = container ++ spans
    /\ Forall2 (spanOfWord scale) (OcrPage.words result) spans
    /\ hasOcrSpan (container ++ spans) = true.
Proof.
  unfold renderOCRTextLayer, getOCRResults. intros -> W C.
  destruct (OcrPage.words result) as [|word words]; [now elim W|].
  rewrite C. exists (map (ocrSpan scale) (word :: words)).
  split; [reflexivity|]. split.
  - generalize (word :: words). intros l.
    induction l as [|w l IH]; constructor;
      [apply ocrSpan_spanOfWord|exact IH].
  - now rewrite hasOcrSpan_app, hasOcrSpan_rendered, orb_true_r.
Qed.

Lemma renderOCRTextLayer_appends_witness :
  getOCRResults (fst (runOCR twoPageScan true clearOCRResults [1])) 1
  = Some (ocrPageResult helloWorld letterHeight)
  /\ length (OcrPage.words (ocrPageResult helloWorld letterHeight)) = 2
  /\ hasOcrSpan [] = false
  /\ exists spans,
       renderOCRTextLayer (fst (runOCR twoPageScan true clearOCRResults [1]))
         1 [] (dbl 2) = [] ++ spans
       /\ Forall2 (spanOfWord (dbl 2))
            (OcrPage.words (ocrPageResult helloWorld letterHeight)) spans
       /\ hasOcrSpan ([] ++ spans) = true.
Proof.
  assert (G : getOCRResults
                (fst (runOCR twoPageScan true clearOCRResults [1])) 1
              = Some (ocrPageResult helloWorld letterHeight)) by reflexivity.
  assert (W : OcrPage.words (ocrPageResult helloWorld letterHeight) <> [])
    by discriminate.
  assert (C : hasOcrSpan [] = false) by reflexivity.
  split; [exact G|]. split; [reflexivity|]. split; [exact C|].
  exact (renderOCRTextLayer_appends
           (fst (runOCR twoPageScan true clearOCRResults [1])) 1 [] (dbl 2)
           (ocrPageResult helloWorld letterHeight) G W C).
Defined.

Lemma trimStart_length s : length (trimStart s) <= length s.
Proof.
  induction s as [|c s IH]; [reflexivity|].
  cbn [trimStart]. destruct (isSpace c); cbn [length]; lia.
Qed.

Lemma trim_length s : length (trim s) <= length s.
Proof.
  unfold trim. rewrite length_rev.
  etransitivity; [apply trimStart_length|]. rewrite length_rev.
  apply trimStart_length.
Qed.

Lemma trimStart_blank s : forallb isSpace s = true -> trimStart s = [].
Proof.
  induction s as [|c s IH]; [reflexivity|].
  cbn [forallb trimStart]. intros B. apply andb_prop in B.
  destruct B as [-> B]. now apply IH.
Qed.

Lemma forallb_concat (A : Type) (f : A -> bool) l :
  Forall (fun s => forallb f s = true) l -> forallb f (concat l) = true.
Proof.
  induction 1 as [|s l Hs _ IH]; [reflexivity|].
  cbn [concat]. rewrite forallb_app, Hs, IH. reflexivity.
Qed.

(** X29: for [isPageScanned] a page of the document
    counts as scanned when the strings of its text items have fewer
    than 20 characters together, and also when they consist of white
    space only, however long they are. *)
Theorem isPageScanned_little_text pdfDoc index page :
  nth_error pdfDoc index = Some page ->
  length (concat (map itemStr (Page.items page))) < 20
  \/ Forall (fun item => forallb isSpace (itemStr item) = true)
       (Page.items page) ->
  isPageScanned pdfDoc (S index) = Returns true.
Proof.
  intros P C. unfold isPageScanned. rewrite P. f_equal.
  apply Nat.ltb_lt. destruct C as [C|C].
  - pose proof (trim_length (concat (map itemStr (Page.items page)))). lia.
  - unfold trim.
    rewrite (trimStart_blank (concat (map itemStr (Page.items page))));
      [cbn; lia|].
    apply forallb_concat. apply Forall_map. exact C.
Qed.

Lemma isPageScanned_little_text_witness :
  nth_error [spacesPage] 0 = Some spacesPage
  /\ 20 <= length (concat (map itemStr (Page.items spacesPage)))
  /\ isPageScanned [spacesPage] 1 = Returns true.
Proof.
  assert (P : nth_error [spacesPage] 0 = Some spacesPage) by reflexivity.
  assert (C : Forall (fun item => forallb isSpace (itemStr item) = true)
                (Page.items spacesPage))
    by (repeat constructor).
  split; [exact P|]. split; [cbn; lia|].
  exact (isPageScanned_little_text [spacesPage] 0 spacesPage P (or_intror C)).
Defined.

Lemma ocrLine_linesText acc line :
  snd acc = linesText (snd (fst acc)) ->
  snd (ocrLine acc line) = linesText (snd (fst (ocrLine acc line))).
Proof.
  destruct acc as [[ws ls] t]. unfold ocrLine, linesText. cbn [fst snd].
  intros ->. destruct (Line.words line) as [lw|]; cbn [fst snd];
    [|reflexivity].
  rewrite map_app, concat_app. cbn [map concat OcrLine.text].
  now rewrite app_nil_r.
Qed.

Lemma fold_invariant (A B : Type) (f : A -> B -> A) (I : A -> Prop) l :
  (forall a b, I a -> I (f a b)) -> forall a, I a -> I (fold_left f l a).
Proof.
  intros Hf. induction l as [|b l IH]; intros a Ha; [exact Ha|].
  cbn [fold_left]. apply IH, Hf, Ha.
Qed.

(** X30: the full text that [runOCR] stores: for a recognition that gives
    blocks, the full text stored for the page is that of the stored
    lines, each followed by a line feed, trimmed; the raw text of the
    recognition has no part in it. *)
Theorem ocrPageResult_fullText_of_lines bs text pageHeight :
  let result := ocrPageResult (OcrData.mk (Some bs) text) pageHeight in
  OcrPage.fullText result = trim (linesText (OcrPage.lines result)).
Proof.
  intros result. unfold result, ocrPageResult. cbn [OcrData.blocks].
  assert (I : snd (fold_left ocrBlock bs ([], [], []))
              = linesText (snd (fst (fold_left ocrBlock bs ([], [], []))))).
  { apply (fold_invariant _ _ ocrBlock
             (fun acc : ocrAcc => snd acc = linesText (snd (fst acc))));
      [|reflexivity].
    intros acc block. unfold ocrBlock.
    destruct (Block.paragraphs block) as [ps|]; [|trivial].
    apply (fold_invariant _ _ ocrParagraph
             (fun acc : ocrAcc => snd acc = linesText (snd (fst acc)))).
    intros acc' para. unfold ocrParagraph.
    destruct (Paragraph.lines para) as [ls|]; [|trivial].
    apply (fold_invariant _ _ ocrLine
             (fun acc : ocrAcc => snd acc = linesText (snd (fst acc)))).
    intros acc'' line. apply ocrLine_linesText. }
  destruct (fold_left ocrBlock bs ([], [], [])) as [[ws ls] t].
  cbn [fst snd] in I. cbn [OcrPage.fullText OcrPage.lines]. now rewrite I.
Qed.
